(** * Contribution-grid animations: the shooter and the ant

    A shallow embedding of the two simulation cores of the repository,
    [scripts/generate_contribution_gif.py] (a self-playing shooter whose
    enemies are the cells of a contribution grid) and
    [scripts/generate_contribution_life_gif.py] (a five-colour Langton ant
    walking the same grid), together with the properties their
    specification states about them.

    Python integers are unbounded, so every [int] is a [Z].  Python's [%]
    takes the sign of the divisor, as [Z.modulo] does.  A [list] indexed
    with [l[i]] accepts [-len(l) <= i < len(l)] and raises [IndexError]
    elsewhere, and [a % 0] raises [ZeroDivisionError]; a raised exception
    is [None] in the [option] monad.  A function that assigns into its
    argument returns the argument as the call leaves it, also when it
    raises afterwards.  A [dict] keeps its entries in insertion order,
    which [max] observes, so it is an association list without duplicate
    keys.  A [float] is an IEEE 754 double; a finite one is the rational
    number it stands for, and every operation on floats is the exact
    operation followed by rounding to the nearest double. *)

From Stdlib Require Import ZArith QArith Qround Qabs Qpower Lia Lqa.
From stdpp Require Import base tactics option list sorting.

Local Open Scope Z_scope.

(** ** Python sequences *)

Section PySeq.
Context {A : Type}.

(** [l[i]] for reading. *)
Definition py_index (l : list A) (i : Z) : option A :=
  let n := Z.of_nat (length l) in
  if 0 <=? i then l !! Z.to_nat i
  else if - n <=? i then l !! Z.to_nat (n + i)
  else None.

(** [l[i] = v]: the list after the assignment. *)
Definition py_setitem (l : list A) (i : Z) (v : A) : option (list A) :=
  let n := Z.of_nat (length l) in
  if 0 <=? i then
    if i <? n then Some (<[Z.to_nat i := v]> l) else None
  else if - n <=? i then Some (<[Z.to_nat (n + i) := v]> l)
  else None.
End PySeq.

(** [a % b]. *)
Definition py_mod (a b : Z) : option Z :=
  if b =? 0 then None else Some (a mod b).

(** [sys.maxsize] of a 64-bit CPython: no [list] has more elements. *)
Definition sys_maxsize : Z := 2 ^ 63 - 1.

(** ** The ant ([generate_contribution_life_gif.py]) *)

Module Ant.

(** The grid is a list of rows, each row a list of levels.  The rows are
    distinct list objects (the grid source builds each with its own
    comprehension), so assigning to one cell touches one row only. *)
Abbreviation grid := (list (list Z)).

(** [PALETTE] has five colours; only its length is used by the step. *)
Definition PALETTE_len : Z := 5.

(** [turns = (1, -1, 1, -1, 1)]: right, left, right, left, right. *)
Definition turns : list Z := [1; -1; 1; -1; 1].

(** The last conditional of [step_ant]: the returned triple for the ant
    at [(x, y)] once it has turned to [direction]. *)
Definition advance (width height ant_x ant_y direction : Z) : option (Z * Z * Z) :=
  if direction =? 0 then
    ant_y ← py_mod (ant_y - 1) height; Some (ant_x, ant_y, direction)
  else if direction =? 1 then
    ant_x ← py_mod (ant_x + 1) width; Some (ant_x, ant_y, direction)
  else if direction =? 2 then
    ant_y ← py_mod (ant_y + 1) height; Some (ant_x, ant_y, direction)
  else
    ant_x ← py_mod (ant_x - 1) width; Some (ant_x, ant_y, direction).

(** [step_ant(grid, ant_x, ant_y, direction)]: the grid as the call leaves
    it, and the returned triple.  Whatever is raised before the assignment
    [grid[ant_y][ant_x] = ...] leaves the grid as it was; after the
    assignment only the wrap can raise, on a first row without cells. *)
Definition step_ant (g : grid) (ant_x ant_y direction : Z)
  : grid * option (Z * Z * Z) :=
  let height := Z.of_nat (length g) in
  let assigned :=
    row0 ← py_index g 0;
    let width := Z.of_nat (length row0) in
    row ← py_index g ant_y;
    current_level ← py_index row ant_x;
    turn ← py_index turns current_level;
    let direction := (direction + turn) mod 4 in
    row' ← py_setitem row ant_x ((current_level + 1) mod PALETTE_len);
    g' ← py_setitem g ant_y row';
    Some (g', width, direction) in
  match assigned with
  | None => (g, None)
  | Some (g', width, direction) =>
      (g', advance width height ant_x ant_y direction)
  end.

(** The ant's walk in [generate_gif]: [iterations] steps from a start
    cell, unless one raises.  The start cell is drawn by [find_ant_start]
    with [random.randrange], so it is an input here; the initial heading
    is [1]. *)
Fixpoint walk (iterations : nat) (g : grid) (ant_x ant_y direction : Z)
  : grid * option (Z * Z * Z) :=
  match iterations with
  | O => (g, Some (ant_x, ant_y, direction))
  | S n =>
      match step_ant g ant_x ant_y direction with
      | (g', Some (x', y', d')) => walk n g' x' y' d'
      | (g', None) => (g', None)
      end
  end.

Definition generate_gif (g : grid) (start_x start_y : Z) (iterations : nat)
  : grid * option (Z * Z * Z) :=
  walk iterations g start_x start_y 1.

(** *** Vocabulary of the statements *)

(** The level of the cell in column [x] of row [y]. *)
Definition cell (g : grid) (x y : nat) : option Z :=
  row ← g !! y; row !! x.

Definition levels_ok (g : grid) : Prop :=
  Forall (Forall (fun v => 0 <= v <= 4)) g.

(** [height] rows of [width] cells each. *)
Definition rectangular (g : grid) (width height : Z) : Prop :=
  Z.of_nat (length g) = height /\
  Forall (fun row => Z.of_nat (length row) = width) g.

(** Headings: 0 up, 1 right, 2 down, 3 left; the row index grows
    downwards. *)
Definition heading_dx (d : Z) : Z :=
  if d =? 1 then 1 else if d =? 3 then -1 else 0.
Definition heading_dy (d : Z) : Z :=
  if d =? 0 then -1 else if d =? 2 then 1 else 0.

(** A right turn is a quarter turn clockwise, a left turn one
    counter-clockwise. *)
Definition turn_right (d : Z) : Z := (d + 1) mod 4.
Definition turn_left (d : Z) : Z := (d - 1) mod 4.

End Ant.

(** ** The shooter ([generate_contribution_gif.py]) *)

Module Shooter.

(** *** Dictionaries keyed by a coordinate *)

Abbreviation coord := (Z * Z)%type.

(** [dict[tuple[int, int], int]], entries in insertion order. *)
Abbreviation dict := (list (coord * Z)).

Definition coord_eqb (a b : coord) : bool :=
  (a.1 =? b.1) && (a.2 =? b.2).

(** [d.get(k)]: [None] when [k not in d]. *)
Fixpoint dict_get (k : coord) (d : dict) : option Z :=
  match d with
  | [] => None
  | (k', v) :: d' => if coord_eqb k k' then Some v else dict_get k d'
  end.

(** [d[k] = v]: an existing key keeps its place, a new one goes last. *)
Fixpoint dict_set (k : coord) (v : Z) (d : dict) : dict :=
  match d with
  | [] => [(k, v)]
  | (k', v') :: d' =>
      if coord_eqb k k' then (k', v) :: d' else (k', v') :: dict_set k v d'
  end.

(** [del d[k]], for a key that is present. *)
Fixpoint dict_del (k : coord) (d : dict) : dict :=
  match d with
  | [] => []
  | (k', v') :: d' =>
      if coord_eqb k k' then d' else (k', v') :: dict_del k d'
  end.

Record Bullet : Type := mkBullet { bullet_x : Z; bullet_y : Z }.

(** *** [build_enemies] *)

(** One row of the comprehension: [enumerate(row)] from column [x]. *)
Fixpoint build_row (y x : Z) (row : list Z) : dict :=
  match row with
  | [] => []
  | level :: row' =>
      (if 0 <? level then [((x, y), level)] else []) ++ build_row y (x + 1) row'
  end.

(** [enumerate(contribution_grid)] from row [y]. *)
Fixpoint build_rows (y : Z) (g : list (list Z)) : dict :=
  match g with
  | [] => []
  | row :: g' => build_row y 0 row ++ build_rows (y + 1) g'
  end.

Definition build_enemies (contribution_grid : list (list Z)) : dict :=
  build_rows 0 contribution_grid.

(** *** [enemy_bounds] *)

(** [min(xs)] and [max(xs)]: [ValueError] on an empty list. *)
Definition py_min (xs : list Z) : option Z :=
  match xs with
  | [] => None
  | x :: xs' => Some (foldl Z.min x xs')
  end.

Definition py_max (xs : list Z) : option Z :=
  match xs with
  | [] => None
  | x :: xs' => Some (foldl Z.max x xs')
  end.

Definition live (e : coord * Z) : Prop := 0 < e.2.

#[export] Instance live_dec (e : coord * Z) : Decision (live e).
Proof. unfold live. apply _. Defined.

Definition enemy_bounds (enemies : dict) : option (Z * Z * Z * Z) :=
  let xs := (fun e : coord * Z => e.1.1) <$> filter live enemies in
  let ys := (fun e : coord * Z => e.1.2) <$> filter live enemies in
  min_x ← py_min xs;
  max_x ← py_max xs;
  min_y ← py_min ys;
  max_y ← py_max ys;
  Some (min_x, max_x, min_y, max_y).

(** *** [pick_target_column] *)

(** Python's ordering of 3-tuples of integers. *)
Definition tuple3_ltb (a b : Z * Z * Z) : bool :=
  let '(a1, a2, a3) := a in
  let '(b1, b2, b3) := b in
  (a1 <? b1) || ((a1 =? b1) && ((a2 <? b2) || ((a2 =? b2) && (a3 <? b3)))).

(** [max(l, key=key)]: the first element whose key no later one
    exceeds; [ValueError] on an empty list. *)
Definition py_max_by {A : Type} (key : A -> Z * Z * Z) (l : list A) : option A :=
  match l with
  | [] => None
  | x :: l' =>
      Some (foldl (fun best y => if tuple3_ltb (key best) (key y) then y else best) x l')
  end.

(** [(formation_x + ex, formation_y + ey, hp)] for the live entries. *)
Definition candidates (enemies : dict) (formation_x formation_y : Z)
  : list (Z * Z * Z) :=
  (fun e : coord * Z => (formation_x + e.1.1, formation_y + e.1.2, e.2))
    <$> filter live enemies.

(** [lambda e: (e[1], -abs(e[0] - ship_x), e[2])]. *)
Definition target_key (ship_x : Z) (e : Z * Z * Z) : Z * Z * Z :=
  let '(e0, e1, e2) := e in (e1, - Z.abs (e0 - ship_x), e2).

Definition pick_target_column (enemies : dict)
    (formation_x formation_y ship_x : Z) : option Z :=
  '(target_x, _, _) ←
    py_max_by (target_key ship_x) (candidates enemies formation_x formation_y);
  Some target_x.

(** *** [move_ship_towards] *)

Definition move_ship_towards (ship_x target_x width : Z) : Z :=
  if target_x >? ship_x then Z.min (width - 1) (ship_x + 1)
  else if target_x <? ship_x then Z.max 0 (ship_x - 1)
  else ship_x.

(** *** [move_bullets_and_apply_hits] *)

(** The inner loop, [for _ in range(n)], on one bullet: whether the
    bullet was destroyed, the bullet, and the dictionary after it. *)
Fixpoint advance_bullet (n : nat) (bullet : Bullet) (enemies : dict)
    (formation_x formation_y : Z) : bool * Bullet * dict :=
  match n with
  | O => (false, bullet, enemies)
  | S n' =>
      let bullet := mkBullet (bullet_x bullet) (bullet_y bullet - 1) in
      if bullet_y bullet <? 0 then (true, bullet, enemies)
      else
        let rel := (bullet_x bullet - formation_x, bullet_y bullet - formation_y) in
        match dict_get rel enemies with
        | Some hp =>
            if 0 <? hp then
              let enemies := dict_set rel (hp - 1) enemies in
              let enemies :=
                if hp - 1 <=? 0 then dict_del rel enemies else enemies in
              (true, bullet, enemies)
            else advance_bullet n' bullet enemies formation_x formation_y
        | None => advance_bullet n' bullet enemies formation_x formation_y
        end
  end.

(** The outer loop: the bullets kept so far are [next_bullets]. *)
Fixpoint move_bullets_loop (bullets : list Bullet) (enemies : dict)
    (formation_x formation_y bullet_speed : Z) (next_bullets : list Bullet)
  : list Bullet * dict :=
  match bullets with
  | [] => (next_bullets, enemies)
  | bullet :: bullets' =>
      let '(destroyed, bullet, enemies) :=
        advance_bullet (Z.to_nat bullet_speed) bullet enemies
          formation_x formation_y in
      move_bullets_loop bullets' enemies formation_x formation_y bullet_speed
        (if destroyed then next_bullets else next_bullets ++ [bullet])
  end.

(** The returned list and the dictionary after the call. *)
Definition move_bullets_and_apply_hits (bullets : list Bullet) (enemies : dict)
    (formation_x formation_y bullet_speed : Z) : list Bullet * dict :=
  move_bullets_loop bullets enemies formation_x formation_y bullet_speed [].

(** *** [step_enemy_formation] *)

Definition step_enemy_formation (enemies : dict)
    (width formation_x formation_y direction : Z) : option (Z * Z * Z) :=
  match enemies with
  | [] => Some (formation_x, formation_y, direction)
  | _ =>
      '(min_x, max_x, _, _) ← enemy_bounds enemies;
      if (formation_x + max_x + direction >=? width)
         || (formation_x + min_x + direction <? 0)
      then Some (formation_x, formation_y + 1, direction * -1)
      else Some (formation_x + direction, formation_y, direction)
  end.

(** *** Floats *)

(** A double has 53 significant bits and an exponent that keeps its
    last bit at [2^-1074] or above; its magnitude is below [2^1024].
    The functions below round a rational to the nearest such number,
    ties going to the even significand, as IEEE 754 prescribes for
    every operation and as CPython does when it converts an [int] or
    divides two of them. *)

(** [floor(log2(q))] of a positive [q]. *)
Definition ilog2 (q : Q) : Z :=
  let k := Z.log2 (Qnum q) - Z.log2 (Z.pos (Qden q)) in
  if Qle_bool (2 ^ k) q then k else k - 1.

(** The nearest integer, a tie going to the even one. *)
Definition round_half_even (q : Q) : Z :=
  let below := Qfloor q in
  match (q - inject_Z below ?= 1 # 2)%Q with
  | Lt => below
  | Gt => below + 1
  | Eq => if Z.even below then below else below + 1
  end.

(** The exponent of the last bit of the doubles around [q > 0]: 52 below
    the leading bit, and -1074 for the subnormal ones. *)
Definition exponent (q : Q) : Z := Z.max (ilog2 q - 52) (-1074).

(** The double nearest to [q >= 0], were the exponent unbounded above;
    in lowest terms, so that a double has one representation. *)
Definition nearest (q : Q) : Q :=
  let e := exponent q in
  Qred (inject_Z (round_half_even (q / 2 ^ e)) * 2 ^ e)%Q.

(** Rounding to a double: [None] when the rounded magnitude reaches
    [2^1024], where arithmetic gives an infinity and a conversion raises
    [OverflowError].  Zero has no sign here; no result below depends on
    one. *)
Definition round_double (q : Q) : option Q :=
  let r := if Qle_bool 0 q then nearest q else (- nearest (- q))%Q in
  if Qle_bool (2 ^ 1024) (Qabs r) then None else Some r.

(** [float(n)], as [int * float] and [float + int] convert their [int]
    operand: [OverflowError] for an [int] too large. *)
Definition float_of_int (n : Z) : option Q := round_double (inject_Z n).

(** [a * b] and [a + b] on floats; [None] is an infinity. *)
Definition float_mul (a b : Q) : option Q := round_double (a * b).
Definition float_add (a b : Q) : option Q := round_double (a + b).

(** [a / b] on two [int]s: the quotient correctly rounded,
    [ZeroDivisionError] for [b = 0] and [OverflowError] for a quotient
    too large. *)
Definition int_truediv (a b : Z) : option Q :=
  if b =? 0 then None else round_double (inject_Z a / inject_Z b).

(** The literal [1.3]: the double [0x1.4cccccccccccdp+0]. *)
Definition float_1_3 : Q := nearest (13 # 10).

(** *** [compute_enemy_move_interval] *)

(** [int(x)] truncates towards zero. *)
Definition py_int (q : Q) : Z :=
  if Qle_bool 0 q then Qfloor q else Qceiling q.

(** [int(total_hp * 1.3 + width * 6)].  [None] is the [OverflowError]
    that every overflow ends in: a failed conversion raises it at once,
    and an infinite product gives an infinite sum, on which [int]
    raises it. *)
Definition estimated_ticks_to_clear (total_hp width : Z) : option Z :=
  hp ← float_of_int total_hp;
  product ← float_mul hp float_1_3;
  w6 ← float_of_int (width * 6);
  sum ← float_add product w6;
  Some (py_int sum).

(** The division is the one of two [int]s, since the estimate has been
    truncated; [None] is an [OverflowError] again. *)
Definition compute_enemy_move_interval (total_hp width max_descents : Z)
  : option Z :=
  estimated_ticks_to_clear ← estimated_ticks_to_clear total_hp width;
  quotient ←
    int_truediv estimated_ticks_to_clear (Z.max 1 (width * max_descents));
  let raw := Qceiling quotient in
  Some (Z.max 28 (Z.min 180 raw)).

(** *** The main loop of [generate_gif] *)

(** [sorted(l, key=key)] is a stable sort; insertion before the first
    element whose key is not smaller keeps equal keys in their order. *)
Fixpoint insert_by (key : Z -> Z) (x : Z) (l : list Z) : list Z :=
  match l with
  | [] => [x]
  | y :: l' => if key x <=? key y then x :: y :: l' else y :: insert_by key x l'
  end.

Definition py_sorted_by (key : Z -> Z) (l : list Z) : list Z :=
  foldr (insert_by key) [] l.

(** [sorted({formation_x + ex for (ex, _), hp in enemies.items() if hp > 0})]:
    the set drops the repetitions and the sort fixes the order. *)
Definition enemy_columns (enemies : dict) (formation_x : Z) : list Z :=
  py_sorted_by (fun col => col)
    (remove_dups ((fun e : coord * Z => formation_x + e.1.1) <$> filter live enemies)).

(** [sorted(enemy_columns, key=lambda col: abs(col - ship_x))[:12]]. *)
Definition nearest_columns (enemies : dict) (formation_x ship_x : Z) : list Z :=
  take 12 (py_sorted_by (fun col => Z.abs (col - ship_x))
             (enemy_columns enemies formation_x)).

(** What one tick takes from the random source: the value of
    [random.random()], in [0, 1), and the number behind
    [random.choice].  Both are read only on the ticks that use them. *)
Record draw : Type := mkDraw { rnd_random : Q; rnd_choice : nat }.

(** [random.choice(l)]: the element at an index below [len(l)];
    [IndexError] on an empty list. *)
Definition py_choice (l : list Z) (r : nat) : option Z :=
  match l with
  | [] => None
  | _ => l !! (r mod length l)%nat
  end.

(** [random.random() < 0.45].  The values of [random.random()] are
    multiples of [2^-53], and none lies between the float [0.45] and
    [45/100]. *)
Definition below_045 (u : Q) : bool := negb (Qle_bool (45 # 100) u).

(** The choice of [current_target_x] at the head of the loop body. *)
Definition retarget (enemies : dict)
    (formation_x formation_y ship_x current_target_x tick : Z) (rnd : draw)
  : option Z :=
  let enemy_count := Z.of_nat (length enemies) in
  let chaos_mode := enemy_count >? 220 in
  if chaos_mode then
    if (tick mod 8 =? 0) || (ship_x =? current_target_x) then
      match enemy_columns enemies formation_x with
      | [] => Some current_target_x
      | _ =>
          if below_045 (rnd_random rnd) then
            py_choice (nearest_columns enemies formation_x ship_x) (rnd_choice rnd)
          else pick_target_column enemies formation_x formation_y ship_x
      end
    else Some current_target_x
  else pick_target_column enemies formation_x formation_y ship_x.

(** The values [generate_gif] fixes before the loop. *)
Record params : Type := mkParams {
  width : Z;
  ship_y : Z;
  fire_cooldown_ticks : Z;
  bullet_speed : Z;
  enemy_move_interval : Z
}.

(** The variables the loop updates. *)
Record state : Type := mkState {
  st_enemies : dict;
  st_formation_x : Z;
  st_formation_y : Z;
  st_enemy_direction : Z;
  st_ship_x : Z;
  st_bullets : list Bullet;
  st_cooldown : Z;
  st_tick : Z;
  st_current_target_x : Z
}.

(** [any(formation_x + ex == ship_x and formation_y + ey < ship_y ...)]. *)
Definition has_enemy_ahead (enemies : dict)
    (formation_x formation_y ship_x ship_y : Z) : bool :=
  existsb (fun e : coord * Z =>
             (0 <? e.2) && (formation_x + e.1.1 =? ship_x)
             && (formation_y + e.1.2 <? ship_y))
          enemies.

(** One pass through the body of [while enemies and tick < max_ticks].
    Rendering reads the state and changes nothing, so it is left out. *)
Definition loop_body (p : params) (rnd : Z -> draw) (s : state) : option state :=
  let tick := st_tick s + 1 in
  current_target_x ←
    retarget (st_enemies s) (st_formation_x s) (st_formation_y s)
      (st_ship_x s) (st_current_target_x s) tick (rnd tick);
  let ship_x := move_ship_towards (st_ship_x s) current_target_x (width p) in
  let '(bullets, cooldown) :=
    if st_cooldown s <=? 0 then
      if has_enemy_ahead (st_enemies s) (st_formation_x s) (st_formation_y s)
           ship_x (ship_y p)
      then (st_bullets s ++ [mkBullet ship_x (ship_y p - 1)], fire_cooldown_ticks p)
      else (st_bullets s, st_cooldown s)
    else (st_bullets s, st_cooldown s - 1) in
  let '(bullets, enemies) :=
    move_bullets_and_apply_hits bullets (st_enemies s)
      (st_formation_x s) (st_formation_y s) (bullet_speed p) in
  phase ← py_mod tick (enemy_move_interval p);
  '(formation_x, formation_y, enemy_direction) ←
    (if (phase =? 0) && negb (bool_decide (enemies = []))
     then step_enemy_formation enemies (width p)
            (st_formation_x s) (st_formation_y s) (st_enemy_direction s)
     else Some (st_formation_x s, st_formation_y s, st_enemy_direction s));
  Some (mkState enemies formation_x formation_y enemy_direction ship_x
          bullets cooldown tick current_target_x).

(** The loop, with [remaining = max_ticks - tick] passes still allowed. *)
Fixpoint run (remaining : nat) (p : params) (rnd : Z -> draw) (s : state)
  : option state :=
  match remaining with
  | O => Some s
  | S remaining' =>
      match st_enemies s with
      | [] => Some s
      | _ => s' ← loop_body p rnd s; run remaining' p rnd s'
      end
  end.

(** How [generate_gif] ends: the [RuntimeError] it raises itself, another
    exception, or the state the loop stopped in. *)
Inductive outcome : Type :=
| NoEnemiesFound
| Raised
| Stopped (s : state).

(** [generate_gif] from the fetched grid on; the grid source and the
    frame output are outside the simulation. *)
Definition generate_gif (contribution_grid : list (list Z)) (max_ticks : Z)
    (rnd : Z -> draw) : outcome :=
  let enemies := build_enemies contribution_grid in
  match enemies with
  | [] => NoEnemiesFound
  | _ =>
      match py_index contribution_grid 0 with
      | None => Raised
      | Some row0 =>
          let contribution_width := Z.of_nat (length row0) in
          let width := contribution_width + 2 in
          let enemy_height := Z.of_nat (length contribution_grid) in
          let height := enemy_height + 30 in
          let ship_x := width / 2 in
          let ship_y := height - 2 in
          let formation_x := 1 in
          let formation_y := 2 in
          let enemy_direction := 1 in
          let cooldown := 0 in
          let fire_cooldown_ticks := 0 in
          let bullet_speed := 2 in
          let total_hp := foldr Z.add 0 (snd <$> enemies) in
          let max_descents_before_fail :=
            Z.max 3 (ship_y - (formation_y + enemy_height) - 2) in
          match compute_enemy_move_interval total_hp width
                  max_descents_before_fail with
          | None => Raised
          | Some enemy_move_interval =>
              let p := mkParams width ship_y fire_cooldown_ticks bullet_speed
                         enemy_move_interval in
              let s := mkState enemies formation_x formation_y enemy_direction
                         ship_x [] cooldown 0 ship_x in
              match run (Z.to_nat max_ticks) p rnd s with
              | Some s' => Stopped s'
              | None => Raised
              end
          end
      end
  end.

(** *** Vocabulary of the statements *)

(** The invariant of a formation: no key twice, every hit-point count
    between 1 and 4. *)
Definition formation_ok (enemies : dict) : Prop :=
  NoDup (fst <$> enemies) /\ Forall (fun e : coord * Z => 1 <= e.2 <= 4) enemies.

#[export] Instance formation_ok_dec (enemies : dict) : Decision (formation_ok enemies).
Proof. unfold formation_ok. apply _. Defined.

(** [e] is at least as urgent a target as [e'] for a ship in column
    [ship_x]: lower on the screen, or in the same row and nearer to the
    ship, or equally near and with no fewer hit points.  The anchor adds
    the same offset to every row and column. *)
Definition at_least_as_urgent (formation_x formation_y ship_x : Z)
    (e e' : coord * Z) : Prop :=
  let row (c : coord * Z) := formation_y + c.1.2 in
  let dist (c : coord * Z) := Z.abs (formation_x + c.1.1 - ship_x) in
  row e' < row e \/
  (row e' = row e /\
   (dist e < dist e' \/ (dist e = dist e' /\ e'.2 <= e.2))).

(** The relative column of the leftmost and of the rightmost live enemy. *)
Definition leftmost (enemies : dict) (m : Z) : Prop :=
  (exists e, e ∈ enemies /\ live e /\ e.1.1 = m) /\
  (forall e, e ∈ enemies -> live e -> m <= e.1.1).

Definition rightmost (enemies : dict) (m : Z) : Prop :=
  (exists e, e ∈ enemies /\ live e /\ e.1.1 = m) /\
  (forall e, e ∈ enemies -> live e -> e.1.1 <= m).

(** A column of the playing field. *)
Definition on_field (width col : Z) : Prop := 0 <= col <= width - 1.

(** The dictionary after a hit on a live enemy: [enemies[rel] -= 1], then
    [del enemies[rel]] at zero. *)
Definition after_hit (rel : coord) (hp : Z) (enemies : dict) : dict :=
  if hp - 1 <=? 0 then dict_del rel (dict_set rel (hp - 1) enemies)
  else dict_set rel (hp - 1) enemies.

(** A live enemy stands on the cell [k] of the formation. *)
Definition occupied (enemies : dict) (k : coord) : Prop :=
  exists hp, dict_get k enemies = Some hp /\ 0 < hp.

(** The cell of the formation under column [bullet_x b] of row [y]. *)
Definition cell_under (formation_x formation_y : Z) (b : Bullet) (y : Z) : coord :=
  (bullet_x b - formation_x, y - formation_y).

(** What a tick does with one bullet, in the words of the specification:
    the bullet rises row by row, at most [speed] rows.  It flies on when
    none of these rows is above the field or holds a live enemy; it is
    lost when the [k]-th row is above the field; it hits when the [k]-th
    row holds a live enemy, whose hit points go down by one and whose
    entry goes away at zero, every other entry staying as it is. *)
Inductive bullet_outcome (speed formation_x formation_y : Z) (b : Bullet)
    (enemies : dict) : option Bullet -> dict -> Prop :=
| flies_on :
    0 <= bullet_y b - speed ->
    (forall j, 1 <= j <= speed ->
       ~ occupied enemies (cell_under formation_x formation_y b (bullet_y b - j))) ->
    bullet_outcome speed formation_x formation_y b enemies
      (Some (mkBullet (bullet_x b) (bullet_y b - speed))) enemies
| leaves_top (k : Z) :
    1 <= k <= speed ->
    bullet_y b - k < 0 ->
    (forall j, 1 <= j < k ->
       0 <= bullet_y b - j /\
       ~ occupied enemies (cell_under formation_x formation_y b (bullet_y b - j))) ->
    bullet_outcome speed formation_x formation_y b enemies None enemies
| hits (k hp : Z) (enemies' : dict) :
    1 <= k <= speed ->
    0 <= bullet_y b - k ->
    (forall j, 1 <= j < k ->
       ~ occupied enemies (cell_under formation_x formation_y b (bullet_y b - j))) ->
    let target := cell_under formation_x formation_y b (bullet_y b - k) in
    dict_get target enemies = Some hp -> 0 < hp ->
    dict_get target enemies' = (if hp =? 1 then None else Some (hp - 1)) ->
    (forall c, c <> target -> dict_get c enemies' = dict_get c enemies) ->
    bullet_outcome speed formation_x formation_y b enemies None enemies'.

(** A tick resolves the bullets in order, each against the formation the
    earlier ones left; the bullets that fly on are the live ones after
    the tick. *)
Inductive tick_outcome (speed formation_x formation_y : Z)
  : list Bullet -> dict -> list Bullet -> dict -> Prop :=
| tick_nil (enemies : dict) :
    tick_outcome speed formation_x formation_y [] enemies [] enemies
| tick_kept (b b' : Bullet) (bs next : list Bullet) (e0 e1 e2 : dict) :
    bullet_outcome speed formation_x formation_y b e0 (Some b') e1 ->
    tick_outcome speed formation_x formation_y bs e1 next e2 ->
    tick_outcome speed formation_x formation_y (b :: bs) e0 (b' :: next) e2
| tick_gone (b : Bullet) (bs next : list Bullet) (e0 e1 e2 : dict) :
    bullet_outcome speed formation_x formation_y b e0 None e1 ->
    tick_outcome speed formation_x formation_y bs e1 next e2 ->
    tick_outcome speed formation_x formation_y (b :: bs) e0 next e2.

(** What one bullet meets in one tick: the dictionary as the tick's
    earlier bullets left it, and the anchor of that tick. *)
Record scene : Type := mkScene {
  sc_enemies : dict;
  sc_formation_x : Z;
  sc_formation_y : Z
}.

(** One bullet followed through consecutive calls of
    [move_bullets_and_apply_hits], one scene per call: [None] once it is
    off the live list. *)
Fixpoint flight (bullet_speed : Z) (scenes : list scene) (b : Bullet)
  : option Bullet :=
  match scenes with
  | [] => Some b
  | sc :: scenes' =>
      let '(destroyed, b', _) :=
        advance_bullet (Z.to_nat bullet_speed) b (sc_enemies sc)
          (sc_formation_x sc) (sc_formation_y sc) in
      if destroyed then None else flight bullet_speed scenes' b'
  end.

(** The move interval by the formula of the specification,
    [clamp(ceil((totalHP * 1.3 + width * 6) / (width * maxDescents)), 28, 180)],
    the quotient being the exact rational one. *)
Definition spec_move_interval (total_hp width max_descents : Z) : Z :=
  Z.max 28
    (Z.min 180
       (Qceiling ((inject_Z total_hp * (13 # 10) + inject_Z (width * 6))
                  / inject_Z (width * max_descents))%Q)).

(** The quotient of [a] by a positive [b], rounded up. *)
Definition ceil_div (a b : Z) : Z := (a + b - 1) / b.

End Shooter.

(** ** The grid source and the drivers *)

(** Both scripts build the grid from the cells their HTML parser collects
    and wrap the simulation in [generate_gif] and [main].  Fetching the
    page and matching the tags is the parser's business; the model starts
    from the integers the parser read out of a matching tag. *)

(** The dataclass [Cell] of both scripts. *)
Record Cell : Type := mkCell { cell_x : Z; cell_y : Z; cell_level : Z }.

(** The [Cell] that [handle_starttag] appends for the id
    [contribution-day-component-y-x] and the level [level]: the level is
    clamped with [max(0, min(4, level))]. *)
Definition make_cell (y x level : Z) : Cell :=
  mkCell x y (Z.max 0 (Z.min 4 level)).

(** [[[0 for _ in range(width)] for _ in range(height)]]. *)
Definition zeros (width height : Z) : list (list Z) :=
  replicate (Z.to_nat height) (replicate (Z.to_nat width) 0).

(** [grid[y][x] = v]. *)
Definition assign_cell (g : list (list Z)) (x y v : Z) : option (list (list Z)) :=
  row ← py_index g y;
  row' ← py_setitem row x v;
  py_setitem g y row'.

(** A cell as the parser can produce it: the column is a number without
    sign, the row one digit, the level clamped. *)
Definition from_parser (c : Cell) : Prop :=
  0 <= cell_x c /\ 0 <= cell_y c <= 9 /\ 0 <= cell_level c <= 4.

#[export] Instance from_parser_dec (c : Cell) : Decision (from_parser c).
Proof. unfold from_parser. apply _. Defined.

(** The level of the last cell of the list at column [x] and row [y]. *)
Fixpoint last_level (cells : list Cell) (x y : Z) : option Z :=
  match cells with
  | [] => None
  | c :: cells' =>
      match last_level cells' x y with
      | Some v => Some v
      | None =>
          if (cell_x c =? x) && (cell_y c =? y) then Some (cell_level c) else None
      end
  end.

Module ShooterDriver.
Import Shooter.

(** How [fetch_contribution_grid] ends once the page is parsed: the
    [RuntimeError] for a page without cells, the [IndexError] of an
    assignment outside the grid, or the grid. *)
Inductive fetched : Type :=
| NoCellsFound
| IndexErrorRaised
| Fetched (g : list (list Z)).

(** [for cell in parser.cells: grid[cell.y][cell.x] = cell.level]. *)
Fixpoint fill (g : list (list Z)) (cells : list Cell) : option (list (list Z)) :=
  match cells with
  | [] => Some g
  | c :: cells' =>
      g' ← assign_cell g (cell_x c) (cell_y c) (cell_level c);
      fill g' cells'
  end.

(** [fetch_contribution_grid] from [parser.cells] on. *)
Definition fetch_contribution_grid (cells : list Cell) : fetched :=
  match py_max (cell_x <$> cells) with
  | None => NoCellsFound
  | Some max_x =>
      let width := max_x + 1 in
      let height := 7 in
      match fill (zeros width height) cells with
      | Some g => Fetched g
      | None => IndexErrorRaised
      end
  end.

(** [sum(enemies.values())]. *)
Definition total_hp (enemies : dict) : Z := foldr Z.add 0 (snd <$> enemies).

(** A bullet [rows] rows further up. *)
Definition rise (rows : Z) (b : Bullet) : Bullet :=
  mkBullet (bullet_x b) (bullet_y b - rows).

(** What [generate_gif] sets up between the check for enemies and the
    loop: the constants and the first state. *)
Definition initial (contribution_grid : list (list Z)) : option (params * state) :=
  let enemies := build_enemies contribution_grid in
  row0 ← py_index contribution_grid 0;
  let contribution_width := Z.of_nat (length row0) in
  let width := contribution_width + 2 in
  let enemy_height := Z.of_nat (length contribution_grid) in
  let height := enemy_height + 30 in
  let ship_x := width / 2 in
  let ship_y := height - 2 in
  let formation_x := 1 in
  let formation_y := 2 in
  let enemy_direction := 1 in
  let cooldown := 0 in
  let fire_cooldown_ticks := 0 in
  let bullet_speed := 2 in
  let total_hp := total_hp enemies in
  let max_descents_before_fail :=
    Z.max 3 (ship_y - (formation_y + enemy_height) - 2) in
  enemy_move_interval ←
    compute_enemy_move_interval total_hp width max_descents_before_fail;
  Some (mkParams width ship_y fire_cooldown_ticks bullet_speed enemy_move_interval,
        mkState enemies formation_x formation_y enemy_direction
          ship_x [] cooldown 0 ship_x).

(** What holds of every state of a run on a field [width p] columns
    wide: the invariant of the formation, a direction of one column, the
    enemies and the ship on the field. *)
Definition state_ok (p : params) (s : state) : Prop :=
  formation_ok (st_enemies s) /\
  (st_enemy_direction s = 1 \/ st_enemy_direction s = -1) /\
  (forall e, e ∈ st_enemies s -> on_field (width p) (st_formation_x s + e.1.1)) /\
  on_field (width p) (st_ship_x s).

(** The bullets of a state: no cooldown is pending, and every bullet is
    in a column of the field, not above row 0 and at least one tick above
    the row it was fired from. *)
Definition bullets_ok (p : params) (s : state) : Prop :=
  st_cooldown s = 0 /\
  Forall (fun b => on_field (width p) (bullet_x b) /\
                   0 <= bullet_y b <= ship_y p - 1 - bullet_speed p)
         (st_bullets s).

(** What [render_frame] is given: it draws at once, so a frame is the
    state at the time of the call. *)
Record frame : Type := mkFrame {
  fr_enemies : dict;
  fr_formation_x : Z;
  fr_formation_y : Z;
  fr_bullets : list Bullet;
  fr_ship_x : Z
}.

Definition snapshot (s : state) : frame :=
  mkFrame (st_enemies s) (st_formation_x s) (st_formation_y s)
    (st_bullets s) (st_ship_x s).

(** The loop of [generate_gif] with its frames: after each pass a frame
    is appended [if tick % render_every == 0 or not enemies]. *)
Fixpoint run_frames (remaining : nat) (p : params) (rnd : Z -> draw)
    (render_every : Z) (s : state) (frames : list frame)
  : option (state * list frame) :=
  match remaining with
  | O => Some (s, frames)
  | S remaining' =>
      match st_enemies s with
      | [] => Some (s, frames)
      | _ =>
          s' ← loop_body p rnd s;
          phase ← py_mod (st_tick s') render_every;
          let frames :=
            if (phase =? 0) || bool_decide (st_enemies s' = [])
            then frames ++ [snapshot s'] else frames in
          run_frames remaining' p rnd render_every s' frames
      end
  end.

(** [frames[-1]]. *)
Definition py_last {A : Type} (l : list A) : option A := last l.

(** [for _ in range(final_hold_frames): frames.append(frames[-1].copy())],
    under [if frames]. *)
Fixpoint hold (final_hold_frames : nat) (frames : list frame) : list frame :=
  match final_hold_frames with
  | O => frames
  | S n =>
      match py_last frames with
      | Some f => hold n (frames ++ [f])
      | None => frames
      end
  end.

(** How the script ends.  Drawing a frame with Pillow and writing the
    file are not modelled: [Saved] carries the frames handed to [save],
    as the states they were drawn from, and the state the loop stopped
    in. *)
Inductive result : Type :=
| SystemExit_iterations
| SystemExit_render_every
| SystemExit_final_hold_frames
| RuntimeError_no_cells
| RuntimeError_no_enemies
| Exception
| Saved (frames : list frame) (s : state).

(** [generate_gif] with its frames, from the parsed cells on. *)
Definition generate_gif (cells : list Cell)
    (max_ticks render_every final_hold_frames : Z) (rnd : Z -> draw) : result :=
  match fetch_contribution_grid cells with
  | NoCellsFound => RuntimeError_no_cells
  | IndexErrorRaised => Exception
  | Fetched contribution_grid =>
      match build_enemies contribution_grid with
      | [] => RuntimeError_no_enemies
      | _ =>
          match initial contribution_grid with
          | None => Exception
          | Some (p, s) =>
              match run_frames (Z.to_nat max_ticks) p rnd render_every s [snapshot s] with
              | None => Exception
              | Some (s', frames) =>
                  Saved (hold (Z.to_nat final_hold_frames) frames) s'
              end
          end
      end
  end.

(** [main] after [parse_args]. *)
Definition main (cells : list Cell)
    (iterations render_every final_hold_frames : Z) (rnd : Z -> draw) : result :=
  if iterations <? 1 then SystemExit_iterations
  else if render_every <? 1 then SystemExit_render_every
  else if final_hold_frames <? 0 then SystemExit_final_hold_frames
  else generate_gif cells iterations render_every final_hold_frames rnd.

End ShooterDriver.

Module AntDriver.
Import Ant.

(** The loop of [fetch_contribution_grid] in this script assigns only
    inside the grid. *)
Fixpoint fill (width height : Z) (g : grid) (cells : list Cell) : option grid :=
  match cells with
  | [] => Some g
  | c :: cells' =>
      g' ← (if (0 <=? cell_y c) && (cell_y c <? height)
               && (0 <=? cell_x c) && (cell_x c <? width)
            then assign_cell g (cell_x c) (cell_y c) (cell_level c)
            else Some g);
      fill width height g' cells'
  end.

(** How the script ends.  Drawing a frame with Pillow and writing the
    file are not modelled: [Saved] carries the frames handed to [save],
    as the grids and positions they were drawn from. *)
Inductive result : Type :=
| SystemExit_iterations
| RuntimeError_no_cells
| Exception
| Saved (frames : list (grid * (Z * Z))).

(** [fetch_contribution_grid] from [parser.cells] on: [None] for a page
    without cells ([RuntimeError]), [Some None] for another exception. *)
Definition fetch_contribution_grid (cells : list Cell) : option (option grid) :=
  match Shooter.py_max (cell_x <$> cells) with
  | None => None
  | Some max_x =>
      let width := max_x + 1 in
      let height := 7 in
      Some (fill width height (zeros width height) cells)
  end.

(** [random.randrange(n)] on the number [r] of the random source:
    [ValueError] for an empty range. *)
Definition py_randrange (n : Z) (r : nat) : option Z :=
  if n <=? 0 then None else Some (Z.of_nat r mod n).

Definition find_ant_start (g : grid) (r_x r_y : nat) : option (Z * Z) :=
  let height := Z.of_nat (length g) in
  row0 ← py_index g 0;
  let width := Z.of_nat (length row0) in
  x ← py_randrange width r_x;
  y ← py_randrange height r_y;
  Some (x, y).

(** The loop of [generate_gif] with its frames; a frame is the grid and
    the ant's position at the time of the call. *)
Fixpoint walk_frames (iterations : nat) (g : grid) (ant_x ant_y direction : Z)
    (frames : list (grid * (Z * Z))) : option (list (grid * (Z * Z))) :=
  match iterations with
  | O => Some frames
  | S n =>
      match step_ant g ant_x ant_y direction with
      | (g', Some (x', y', d')) =>
          walk_frames n g' x' y' d' (frames ++ [(g', (x', y'))])
      | (_, None) => None
      end
  end.

(** [generate_gif] from the parsed cells on. *)
Definition generate_gif (cells : list Cell) (iterations : Z) (r_x r_y : nat)
  : result :=
  match fetch_contribution_grid cells with
  | None => RuntimeError_no_cells
  | Some None => Exception
  | Some (Some current) =>
      match find_ant_start current r_x r_y with
      | None => Exception
      | Some (ant_x, ant_y) =>
          match walk_frames (Z.to_nat iterations) current ant_x ant_y 1
                  [(current, (ant_x, ant_y))] with
          | None => Exception
          | Some frames => Saved frames
          end
      end
  end.

(** [main] after [parse_args]. *)
Definition main (cells : list Cell) (iterations : Z) (r_x r_y : nat) : result :=
  if iterations <? 1 then SystemExit_iterations
  else generate_gif cells iterations r_x r_y.

(** What holds of every frame: a grid of the same shape with levels in
    0..4, and the ant on one of its cells. *)
Definition frame_ok (w h : Z) (fr : list (list Z) * (Z * Z)) : Prop :=
  rectangular fr.1 w h /\ levels_ok fr.1 /\
  0 <= fr.2.1 < w /\ 0 <= fr.2.2 < h.

End AntDriver.

(** * Properties *)

(** ** Python sequences *)

Section PySeqFacts.
Context {A : Type}.

Lemma py_index_nonneg (l : list A) (i : Z) :
  0 <= i -> py_index l i = l !! Z.to_nat i.
Proof.
  intros Hi. unfold py_index.
  destruct (Z.leb_spec 0 i); [reflexivity | lia].
Qed.

Lemma py_setitem_nonneg (l : list A) (i : Z) (v : A) :
  0 <= i < Z.of_nat (length l) ->
  py_setitem l i v = Some (<[Z.to_nat i := v]> l).
Proof.
  intros Hi. unfold py_setitem.
  destruct (Z.leb_spec 0 i); [| lia].
  destruct (Z.ltb_spec i (Z.of_nat (length l))); [reflexivity | lia].
Qed.

Lemma lookup_Z_lt (l : list A) (i : Z) :
  0 <= i < Z.of_nat (length l) -> is_Some (l !! Z.to_nat i).
Proof. intros Hi. apply lookup_lt_is_Some. lia. Qed.

End PySeqFacts.

Example py_index_from_the_end : py_index [10; 20; 30] (-1) = Some 30.
Proof. reflexivity. Qed.

Example py_index_out_of_range : py_index [10; 20; 30] 3 = None.
Proof. reflexivity. Qed.

(** ** The ant *)

Module AntSpec.
Import Ant.

Lemma cell_inv (g : grid) (x y : nat) (L : Z) :
  cell g x y = Some L -> exists row, g !! y = Some row /\ row !! x = Some L.
Proof.
  unfold cell. intros H.
  destruct (g !! y) as [row|] eqn:Hrow; simpl in H; [| discriminate].
  exists row. split; [reflexivity | exact H].
Qed.

Lemma cell_insert_same (g : grid) (row : list Z) (x y : nat) (v : Z) :
  g !! y = Some row -> (x < length row)%nat ->
  cell (<[y := <[x := v]> row]> g) x y = Some v.
Proof.
  intros Hrow Hx. unfold cell.
  rewrite list_lookup_insert_eq by (eapply lookup_lt_Some; exact Hrow).
  simpl. apply list_lookup_insert_eq. exact Hx.
Qed.

Lemma cell_insert_other (g : grid) (row : list Z) (x y i j : nat) (v : Z) :
  g !! y = Some row -> (i, j) <> (x, y) ->
  cell (<[y := <[x := v]> row]> g) i j = cell g i j.
Proof.
  intros Hrow Hne. unfold cell.
  destruct (decide (j = y)) as [-> | Hj].
  - rewrite list_lookup_insert_eq by (eapply lookup_lt_Some; exact Hrow).
    rewrite Hrow. simpl. apply list_lookup_insert_ne. congruence.
  - rewrite list_lookup_insert_ne by congruence. reflexivity.
Qed.

Lemma levels_ok_lookup (g : grid) (x y : nat) (L : Z) :
  levels_ok g -> cell g x y = Some L -> 0 <= L <= 4.
Proof.
  intros Hok Hc. apply cell_inv in Hc as (row & Hrow & HL).
  unfold levels_ok in Hok. rewrite Forall_lookup in Hok.
  specialize (Hok _ _ Hrow). rewrite Forall_lookup in Hok.
  exact (Hok _ _ HL).
Qed.

Lemma levels_ok_insert (g : grid) (row : list Z) (x y : nat) (v : Z) :
  levels_ok g -> g !! y = Some row -> 0 <= v <= 4 ->
  levels_ok (<[y := <[x := v]> row]> g).
Proof.
  intros Hok Hrow Hv. unfold levels_ok in *.
  apply Forall_insert; [exact Hok |].
  apply Forall_insert; [| exact Hv].
  rewrite Forall_lookup in Hok. exact (Hok _ _ Hrow).
Qed.

Lemma rectangular_insert (g : grid) (row : list Z) (x y : nat) (v w h : Z) :
  rectangular g w h -> g !! y = Some row ->
  rectangular (<[y := <[x := v]> row]> g) w h.
Proof.
  intros [Hh Hw] Hrow. split.
  - rewrite length_insert. exact Hh.
  - apply Forall_insert; [exact Hw |].
    rewrite length_insert. rewrite Forall_lookup in Hw. exact (Hw _ _ Hrow).
Qed.

(** The table, entry by entry. *)
Lemma turns_lookup (L : Z) :
  0 <= L <= 4 ->
  py_index turns L = Some (if Z.even L then 1 else -1).
Proof.
  intros HL.
  assert (L = 0 \/ L = 1 \/ L = 2 \/ L = 3 \/ L = 4) as Hcases by lia.
  destruct Hcases as [-> | [-> | [-> | [-> | ->]]]]; reflexivity.
Qed.

(** [step_ant] on a cell it can read, unfolded once. *)
Lemma step_ant_eq (g : grid) (row0 row : list Z) (x y d L : Z) :
  g !! 0%nat = Some row0 ->
  0 <= y -> g !! Z.to_nat y = Some row ->
  0 <= x -> row !! Z.to_nat x = Some L ->
  0 <= L <= 4 ->
  step_ant g x y d =
    (<[Z.to_nat y := <[Z.to_nat x := (L + 1) mod 5]> row]> g,
     advance (Z.of_nat (length row0)) (Z.of_nat (length g)) x y
       ((d + (if Z.even L then 1 else -1)) mod 4)).
Proof.
  intros H0 Hy Hrow Hx HL HLr.
  unfold step_ant.
  rewrite (py_index_nonneg g 0) by lia. change (Z.to_nat 0) with 0%nat.
  rewrite H0. simpl.
  rewrite (py_index_nonneg g y) by lia. rewrite Hrow. simpl.
  rewrite (py_index_nonneg row x) by lia. rewrite HL. simpl.
  rewrite (turns_lookup L HLr). simpl.
  rewrite py_setitem_nonneg
    by (split; [lia |]; apply lookup_lt_Some in HL; lia).
  simpl.
  rewrite py_setitem_nonneg
    by (split; [lia |]; apply lookup_lt_Some in Hrow; lia).
  reflexivity.
Qed.

(** Whatever the step does, it leaves the grid as it was or with one
    cell of the ant's row assigned. *)
Lemma step_ant_grid (g : grid) (x y d : Z) :
  0 <= x -> 0 <= y ->
  (step_ant g x y d).1 = g \/
  exists row v,
    g !! Z.to_nat y = Some row /\ (Z.to_nat x < length row)%nat /\
    (step_ant g x y d).1 = <[Z.to_nat y := <[Z.to_nat x := v]> row]> g.
Proof.
  intros Hx Hy. unfold step_ant.
  destruct (py_index g 0) as [row0 |]; [simpl | left; reflexivity].
  rewrite (py_index_nonneg g y) by lia.
  destruct (g !! Z.to_nat y) as [row |] eqn:Hrow; [simpl | left; reflexivity].
  rewrite (py_index_nonneg row x) by lia.
  destruct (row !! Z.to_nat x) as [L |] eqn:HL; [simpl | left; reflexivity].
  destruct (py_index turns L) as [turn |]; [simpl | left; reflexivity].
  rewrite py_setitem_nonneg
    by (split; [lia |]; apply lookup_lt_Some in HL; lia).
  simpl.
  rewrite py_setitem_nonneg
    by (split; [lia |]; apply lookup_lt_Some in Hrow; lia).
  simpl. right. eexists _, _. split; [reflexivity |].
  split; [eapply lookup_lt_Some; exact HL | reflexivity].
Qed.

Lemma advance_heading (w h x y d' : Z) :
  0 <= x < w -> 0 <= y < h -> 0 <= d' < 4 ->
  advance w h x y d' =
    Some ((x + heading_dx d') mod w, (y + heading_dy d') mod h, d').
Proof.
  intros Hx Hy Hd. unfold advance, heading_dx, heading_dy, py_mod.
  destruct (Z.eqb_spec w 0); [lia |]. destruct (Z.eqb_spec h 0); [lia |].
  assert (d' = 0 \/ d' = 1 \/ d' = 2 \/ d' = 3) as Hc by lia.
  destruct Hc as [-> | [-> | [-> | ->]]]; simpl;
    rewrite ?Z.add_0_r, ?(Z.mod_small x w), ?(Z.mod_small y h) by lia;
    reflexivity.
Qed.

(** C3: on a rectangular grid whose levels are all in 0..4, with the ant on
    a cell of the grid and any heading, one step reads the level [L] of
    the ant's cell, turns right for [L] in {0, 2, 4} and left for [L] in
    {1, 3}, sets the cell to [(L + 1) mod 5], and moves the ant one cell in
    the new heading, wrapping on both axes; the new position is inside the
    grid and every level is still in 0..4. *)
Theorem step_ant_turn_cycle_move (g : grid) (w h x y d L : Z) :
  rectangular g w h -> levels_ok g ->
  0 <= x < w -> 0 <= y < h ->
  cell g (Z.to_nat x) (Z.to_nat y) = Some L ->
  exists g' x' y' d',
    step_ant g x y d = (g', Some (x', y', d')) /\
    (L = 0 \/ L = 2 \/ L = 4 -> d' = turn_right d) /\
    (L = 1 \/ L = 3 -> d' = turn_left d) /\
    cell g' (Z.to_nat x) (Z.to_nat y) = Some ((L + 1) mod 5) /\
    x' = (x + heading_dx d') mod w /\
    y' = (y + heading_dy d') mod h /\
    (0 <= x' < w /\ 0 <= y' < h) /\
    levels_ok g' /\ rectangular g' w h.
Proof.
  intros Hrect Hok Hx Hy Hcell.
  pose proof (levels_ok_lookup _ _ _ _ Hok Hcell) as HL.
  pose proof Hrect as [Hh Hw].
  apply cell_inv in Hcell as (row & Hrow & HLrow).
  destruct (lookup_Z_lt g 0 ltac:(lia)) as [row0 H0].
  change (Z.to_nat 0) with 0%nat in H0.
  rewrite Forall_lookup in Hw.
  pose proof (Hw _ _ H0) as Hw0. pose proof (Hw _ _ Hrow) as Hwr.
  set (d' := (d + (if Z.even L then 1 else -1)) mod 4).
  assert (0 <= d' < 4) as Hd by (apply Z.mod_pos_bound; lia).
  exists (<[Z.to_nat y := <[Z.to_nat x := (L + 1) mod 5]> row]> g),
    ((x + heading_dx d') mod w), ((y + heading_dy d') mod h), d'.
  split.
  { rewrite (step_ant_eq g row0 row x y d L) by (assumption || lia).
    rewrite Hw0, Hh. fold d'. rewrite advance_heading by lia. reflexivity. }
  split.
  { intros [-> | [-> | ->]]; reflexivity. }
  split.
  { intros [-> | ->]; reflexivity. }
  split.
  { apply cell_insert_same; [exact Hrow | lia]. }
  split; [reflexivity |]. split; [reflexivity |].
  split.
  { split; apply Z.mod_pos_bound; lia. }
  split.
  - apply levels_ok_insert; [exact Hok | exact Hrow |].
    pose proof (Z.mod_pos_bound (L + 1) 5). lia.
  - apply rectangular_insert; [split; [exact Hh |] | exact Hrow].
    rewrite Forall_lookup. exact Hw.
Qed.

(** A witness for C3: the 3 by 3 grid of zeros, the ant at (0, 0) heading
    right. *)
Lemma step_ant_turn_cycle_move_witness :
  exists g' x' y' d',
    step_ant [[0; 0; 0]; [0; 0; 0]; [0; 0; 0]] 0 0 1 = (g', Some (x', y', d')) /\
    (0 = 0 \/ 0 = 2 \/ 0 = 4 -> d' = turn_right 1) /\
    (0 = 1 \/ 0 = 3 -> d' = turn_left 1) /\
    cell g' (Z.to_nat 0) (Z.to_nat 0) = Some ((0 + 1) mod 5) /\
    x' = (0 + heading_dx d') mod 3 /\
    y' = (0 + heading_dy d') mod 3 /\
    (0 <= x' < 3 /\ 0 <= y' < 3) /\
    levels_ok g' /\ rectangular g' 3 3.
Proof.
  apply (step_ant_turn_cycle_move [[0; 0; 0]; [0; 0; 0]; [0; 0; 0]] 3 3 0 0 1 0).
  - split; [reflexivity | repeat constructor].
  - repeat constructor; lia.
  - lia.
  - lia.
  - reflexivity.
Defined.

Example step_ant_on_zeros :
  step_ant [[0; 0; 0]; [0; 0; 0]; [0; 0; 0]] 0 0 1
  = ([[1; 0; 0]; [0; 0; 0]; [0; 0; 0]], Some (0, 1, 2)).
Proof. reflexivity. Qed.

(** C10: whatever a step from a position [(x, y)] does, it leaves every
    cell other than the one at [(x, y)], the number of rows and the length
    of every row as they were; the cell at [(x, y)], when it holds a level
    [L] in 0..4, is the one cell that changes, from [L] to
    [(L + 1) mod 5]. *)
Theorem step_ant_frame (g : grid) (x y d : Z) :
  0 <= x -> 0 <= y ->
  let g' := (step_ant g x y d).1 in
  (forall i j : nat,
      (i, j) <> (Z.to_nat x, Z.to_nat y) -> cell g' i j = cell g i j) /\
  length g' = length g /\
  (forall j : nat, length <$> g' !! j = length <$> g !! j) /\
  (forall L, cell g (Z.to_nat x) (Z.to_nat y) = Some L -> 0 <= L <= 4 ->
             cell g' (Z.to_nat x) (Z.to_nat y) = Some ((L + 1) mod 5) /\
             (L + 1) mod 5 <> L).
Proof.
  intros Hx Hy g'.
  assert (forall L, cell g (Z.to_nat x) (Z.to_nat y) = Some L -> 0 <= L <= 4 ->
                    cell g' (Z.to_nat x) (Z.to_nat y) = Some ((L + 1) mod 5) /\
                    (L + 1) mod 5 <> L) as Hchanged.
  { intros L Hcell HL.
    apply cell_inv in Hcell as (row & Hrow & HLrow).
    assert (is_Some (g !! 0%nat)) as [row0 H0].
    { apply lookup_lt_is_Some. apply lookup_lt_Some in Hrow. lia. }
    unfold g'. rewrite (step_ant_eq g row0 row x y d L) by assumption.
    cbn [fst]. split.
    - apply cell_insert_same; [exact Hrow | eapply lookup_lt_Some; exact HLrow].
    - pose proof (Z.mod_pos_bound (L + 1) 5 ltac:(lia)) as Hb.
      assert (L = 4 \/ L < 4) as [-> | Hlt] by lia; [discriminate |].
      rewrite Z.mod_small by lia. lia. }
  split; [| split; [| split; [| exact Hchanged]]]; clear Hchanged;
    destruct (step_ant_grid g x y d Hx Hy) as [Hsame | (row & v & Hrow & Hlt & Heq)];
    unfold g'; rewrite ?Hsame, ?Heq; try reflexivity.
  - intros i j Hne. apply (cell_insert_other g row); assumption.
  - apply length_insert.
  - intros j. destruct (decide (j = Z.to_nat y)) as [-> | Hj].
    + rewrite list_lookup_insert_eq by (eapply lookup_lt_Some; exact Hrow).
      rewrite Hrow. simpl. rewrite length_insert. reflexivity.
    + rewrite list_lookup_insert_ne by congruence. reflexivity.
Qed.

(** A witness for C10: the ant in the middle of a ragged grid. *)
Lemma step_ant_frame_witness :
  let g' := (step_ant [[0; 3]; [1; 4; 2]; [0]] 1 1 2).1 in
  (forall i j : nat,
      (i, j) <> (Z.to_nat 1, Z.to_nat 1) ->
      cell g' i j = cell [[0; 3]; [1; 4; 2]; [0]] i j) /\
  length g' = length [[0; 3]; [1; 4; 2]; [0]] /\
  (forall j : nat,
      length <$> g' !! j = length <$> [[0; 3]; [1; 4; 2]; [0]] !! j) /\
  (forall L, cell [[0; 3]; [1; 4; 2]; [0]] (Z.to_nat 1) (Z.to_nat 1) = Some L ->
             0 <= L <= 4 ->
             cell g' (Z.to_nat 1) (Z.to_nat 1) = Some ((L + 1) mod 5) /\
             (L + 1) mod 5 <> L).
Proof.
  apply (step_ant_frame [[0; 3]; [1; 4; 2]; [0]] 1 1 2); lia.
Defined.

(** The assignment stays when the wrap raises afterwards: with no cell in
    the first row the width is zero, and a move to the right divides by
    it. *)
Example step_ant_raises_after_assignment :
  step_ant [[]; [0; 0]] 0 1 0 = ([[]; [1; 0]], None).
Proof. reflexivity. Qed.

(** A cell of a rectangular grid can be read. *)
Lemma cell_is_Some (g : grid) (w h x y : Z) :
  rectangular g w h -> 0 <= x < w -> 0 <= y < h ->
  is_Some (cell g (Z.to_nat x) (Z.to_nat y)).
Proof.
  intros [Hh Hw] Hx Hy. unfold cell.
  destruct (lookup_Z_lt g y ltac:(lia)) as [row Hrow]. rewrite Hrow. simpl.
  rewrite Forall_lookup in Hw. specialize (Hw _ _ Hrow).
  apply lookup_Z_lt. lia.
Qed.

(** One step keeps the shape of the grid, the range of its levels, and
    the ant inside. *)
Lemma step_ant_inside (g : grid) (w h x y d : Z) :
  rectangular g w h -> levels_ok g -> 0 <= x < w -> 0 <= y < h ->
  exists g' x' y' d',
    step_ant g x y d = (g', Some (x', y', d')) /\
    rectangular g' w h /\ levels_ok g' /\ 0 <= x' < w /\ 0 <= y' < h.
Proof.
  intros Hrect Hok Hx Hy.
  destruct (cell_is_Some g w h x y Hrect Hx Hy) as [L Hcell].
  pose proof (levels_ok_lookup _ _ _ _ Hok Hcell) as HL.
  pose proof Hrect as [Hh Hw].
  apply cell_inv in Hcell as (row & Hrow & HLrow).
  destruct (lookup_Z_lt g 0 ltac:(lia)) as [row0 H0].
  change (Z.to_nat 0) with 0%nat in H0.
  rewrite Forall_lookup in Hw. pose proof (Hw _ _ H0) as Hw0.
  rewrite (step_ant_eq g row0 row x y d L) by (assumption || lia).
  rewrite Hw0, Hh.
  rewrite advance_heading by (try apply Z.mod_pos_bound; lia).
  eexists _, _, _, _. split; [reflexivity |].
  split.
  { apply rectangular_insert; [exact Hrect | exact Hrow]. }
  split.
  { apply levels_ok_insert; [exact Hok | exact Hrow |].
    pose proof (Z.mod_pos_bound (L + 1) 5). lia. }
  split; apply Z.mod_pos_bound; lia.
Qed.

(** The walk never leaves the grid: any number of steps from a cell of a
    rectangular grid with levels in 0..4 succeeds, and ends on a cell of a
    grid of the same shape with levels in 0..4. *)
Lemma walk_stays_inside (n : nat) (g : grid) (w h x y d : Z) :
  rectangular g w h -> levels_ok g -> 0 <= x < w -> 0 <= y < h ->
  exists g' x' y' d',
    walk n g x y d = (g', Some (x', y', d')) /\
    rectangular g' w h /\ levels_ok g' /\ 0 <= x' < w /\ 0 <= y' < h.
Proof.
  revert g x y d. induction n as [| n IH]; intros g x y d Hrect Hok Hx Hy.
  - exists g, x, y, d. simpl. auto.
  - destruct (step_ant_inside g w h x y d Hrect Hok Hx Hy)
      as (g1 & x1 & y1 & d1 & Hstep & Hrect1 & Hok1 & Hx1 & Hy1).
    destruct (IH g1 x1 y1 d1 Hrect1 Hok1 Hx1 Hy1)
      as (g2 & x2 & y2 & d2 & Hwalk & Hfin).
    exists g2, x2, y2, d2. split; [| exact Hfin].
    simpl. rewrite Hstep. exact Hwalk.
Qed.

(** C9 as the specification states it fails for the ant: on the grid of 7
    rows and 7 columns of zeros, [generate_gif] raises nothing; started in
    the middle it takes its step, which colours the cell and moves the ant
    down. *)
Lemma generate_gif_walks_grid_of_zeros :
  let g := replicate 7 (replicate 7 0) in
  Forall (Forall (fun v => v <= 0)) g /\
  generate_gif g 3 3 1
  = (<[3%nat := <[3%nat := 1]> (replicate 7 0)]> g, Some (3, 4, 2)).
Proof.
  split; [| reflexivity].
  apply (bool_decide_unpack _). vm_compute. reflexivity.
Qed.

End AntSpec.

(** ** Floats

    What the statements about the move interval need of the rounding:
    it is monotone, it leaves a number with a 53-bit significand alone,
    and it moves a number from 1 on by at most [2^-53] of it. *)

Module FloatSpec.
Import Shooter.
Local Open Scope Q_scope.

Lemma pow2_pos (e : Z) : 0 < 2 ^ e.
Proof. apply Qpower_0_lt. reflexivity. Qed.

Lemma pow2_add (a b : Z) : 2 ^ (a + b) == 2 ^ a * 2 ^ b.
Proof. apply Qpower_plus. discriminate. Qed.

Lemma pow2_le (a b : Z) : (a <= b)%Z -> 2 ^ a <= 2 ^ b.
Proof. intros H. apply Qpower_le_compat_l; [exact H | discriminate]. Qed.

Lemma pow2_lt (a b : Z) : (a < b)%Z -> 2 ^ a < 2 ^ b.
Proof. intros H. apply Qpower_lt_compat_l; [exact H | reflexivity]. Qed.

Lemma pow2_lt_inv (a b : Z) : 2 ^ a < 2 ^ b -> (a < b)%Z.
Proof. intros H. apply (Qpower_lt_compat_l_inv 2); [exact H | reflexivity]. Qed.

Lemma pow2_inject (n : Z) : (0 <= n)%Z -> inject_Z (2 ^ n) == 2 ^ n.
Proof. intros H. apply (Zpower_Qpower 2 n H). Qed.

Lemma pow2_succ (a : Z) : 2 ^ (a + 1) == 2 * 2 ^ a.
Proof. rewrite pow2_add. change (2 ^ 1) with 2. ring. Qed.

(** *** Rounding to an integer *)

Lemma round_half_even_bounds (q : Q) :
  inject_Z (round_half_even q) - (1 # 2) <= q
  /\ q <= inject_Z (round_half_even q) + (1 # 2).
Proof.
  unfold round_half_even.
  pose proof (Qfloor_le q) as Hlo. pose proof (Qlt_floor q) as Hhi.
  rewrite inject_Z_plus in Hhi. change (inject_Z 1) with 1 in Hhi.
  destruct (Qcompare_spec (q - inject_Z (Qfloor q)) (1 # 2)) as [He | Hl | Hg].
  - destruct (Z.even (Qfloor q)); rewrite ?inject_Z_plus;
      change (inject_Z 1) with 1; lra.
  - lra.
  - rewrite inject_Z_plus. change (inject_Z 1) with 1. lra.
Qed.

Lemma round_half_even_Z (q : Q) (z : Z) :
  q == inject_Z z -> round_half_even q = z.
Proof.
  intros H. unfold round_half_even.
  rewrite (Qfloor_comp _ _ H), Qfloor_Z.
  destruct (Qcompare_spec (q - inject_Z z) (1 # 2)) as [He | Hl | Hg].
  - lra.
  - reflexivity.
  - lra.
Qed.

Lemma round_half_even_mono (q1 q2 : Q) :
  q1 <= q2 -> (round_half_even q1 <= round_half_even q2)%Z.
Proof.
  intros H. pose proof (Qfloor_resp_le _ _ H) as Hf.
  unfold round_half_even.
  pose proof (Qfloor_le q1) as Hl1. pose proof (Qlt_floor q1) as Hu1.
  pose proof (Qfloor_le q2) as Hl2. pose proof (Qlt_floor q2) as Hu2.
  rewrite inject_Z_plus in Hu1, Hu2. change (inject_Z 1) with 1 in Hu1, Hu2.
  destruct (Z.eq_dec (Qfloor q1) (Qfloor q2)) as [Heq | Hne].
  - rewrite Heq in *.
    destruct (Qcompare_spec (q1 - inject_Z (Qfloor q2)) (1 # 2));
      destruct (Qcompare_spec (q2 - inject_Z (Qfloor q2)) (1 # 2));
      destruct (Z.even (Qfloor q2)); try lia; lra.
  - assert (Qfloor q1 + 1 <= Qfloor q2)%Z by lia.
    destruct (Qcompare_spec (q1 - inject_Z (Qfloor q1)) (1 # 2));
      destruct (Qcompare_spec (q2 - inject_Z (Qfloor q2)) (1 # 2));
      destruct (Z.even (Qfloor q1)); destruct (Z.even (Qfloor q2)); lia.
Qed.

Lemma round_half_even_comp (q1 q2 : Q) :
  q1 == q2 -> round_half_even q1 = round_half_even q2.
Proof.
  intros H. apply Z.le_antisymm; apply round_half_even_mono; lra.
Qed.

(** *** The exponent *)

Lemma ilog2_spec (q : Q) :
  0 < q -> 2 ^ ilog2 q <= q /\ q < 2 ^ (ilog2 q + 1).
Proof.
  intros Hq. destruct q as [n d]. unfold ilog2. cbn [Qnum Qden].
  assert (0 < n)%Z as Hn by (unfold Qlt in Hq; simpl in Hq; lia).
  set (a := Z.log2 n). set (b := Z.log2 (Z.pos d)).
  destruct (Z.log2_spec n Hn) as [Ha1 Ha2]. fold a in Ha1, Ha2.
  destruct (Z.log2_spec (Z.pos d) ltac:(lia)) as [Hb1 Hb2]. fold b in Hb1, Hb2.
  pose proof (Z.log2_nonneg n). pose proof (Z.log2_nonneg (Z.pos d)).
  assert (n # d == inject_Z n / inject_Z (Z.pos d)) as Hnd by apply Qmake_Qdiv.
  assert (0 < inject_Z (Z.pos d)) as Hd by (unfold Qlt; simpl; lia).
  assert (2 ^ a <= inject_Z n) as Qa1.
  { rewrite <- pow2_inject by (unfold a; lia). rewrite <- Zle_Qle. exact Ha1. }
  assert (inject_Z n < 2 ^ (a + 1)) as Qa2.
  { rewrite <- pow2_inject by (unfold a; lia). rewrite <- Zlt_Qlt.
    replace (a + 1)%Z with (Z.succ a) by lia. exact Ha2. }
  assert (2 ^ b <= inject_Z (Z.pos d)) as Qb1.
  { rewrite <- pow2_inject by (unfold b; lia). rewrite <- Zle_Qle. exact Hb1. }
  assert (inject_Z (Z.pos d) < 2 ^ (b + 1)) as Qb2.
  { rewrite <- pow2_inject by (unfold b; lia). rewrite <- Zlt_Qlt.
    replace (b + 1)%Z with (Z.succ b) by lia. exact Hb2. }
  pose proof (pow2_pos (a - b)) as Hp. pose proof (pow2_pos b) as Hpb.
  assert (2 ^ a == 2 ^ (a - b) * 2 ^ b) as Hab.
  { rewrite <- pow2_add. replace (a - b + b)%Z with a by lia. reflexivity. }
  assert (n # d < 2 ^ (a - b + 1)) as Hup.
  { rewrite Hnd. apply Qlt_shift_div_r; [exact Hd |].
    rewrite pow2_succ. rewrite pow2_succ in Qa2. rewrite Hab in Qa2.
    assert (2 ^ (a - b) * 2 ^ b <= 2 ^ (a - b) * inject_Z (Z.pos d)).
    { apply Qmult_le_l; assumption. }
    lra. }
  assert (2 ^ (a - b - 1) < n # d) as Hlow.
  { rewrite Hnd. apply Qlt_shift_div_l; [exact Hd |].
    assert (2 ^ (a - b) == 2 * 2 ^ (a - b - 1)) as Hh.
    { rewrite <- pow2_succ. replace (a - b - 1 + 1)%Z with (a - b)%Z by lia.
      reflexivity. }
    rewrite pow2_succ in Qb2.
    pose proof (pow2_pos (a - b - 1)) as Hp1.
    assert (2 ^ (a - b - 1) * inject_Z (Z.pos d)
            < 2 ^ (a - b - 1) * (2 * 2 ^ b)).
    { apply Qmult_lt_l; assumption. }
    rewrite Hab, Hh in Qa1. lra. }
  destruct (Qle_bool (2 ^ (a - b)) (n # d)) eqn:Hle.
  - apply Qle_bool_iff in Hle. split; assumption.
  - replace (a - b - 1 + 1)%Z with (a - b)%Z by lia.
    split; [lra |].
    apply Qnot_le_lt. intros Hc. apply Qle_bool_iff in Hc. congruence.
Qed.

Lemma ilog2_unique (q : Q) (k : Z) :
  2 ^ k <= q -> q < 2 ^ (k + 1) -> ilog2 q = k.
Proof.
  intros H1 H2.
  assert (0 < q) as Hq by (pose proof (pow2_pos k); lra).
  destruct (ilog2_spec q Hq) as [H3 H4].
  assert (k < ilog2 q + 1)%Z by (apply pow2_lt_inv; lra).
  assert (ilog2 q < k + 1)%Z by (apply pow2_lt_inv; lra).
  lia.
Qed.

Lemma ilog2_mono (q1 q2 : Q) : 0 < q1 -> q1 <= q2 -> (ilog2 q1 <= ilog2 q2)%Z.
Proof.
  intros H1 H2.
  destruct (ilog2_spec q1 H1) as [H3 _].
  destruct (ilog2_spec q2 ltac:(lra)) as [_ H4].
  assert (ilog2 q1 < ilog2 q2 + 1)%Z by (apply pow2_lt_inv; lra).
  lia.
Qed.

Lemma exponent_mono (q1 q2 : Q) :
  0 < q1 -> q1 <= q2 -> (exponent q1 <= exponent q2)%Z.
Proof.
  intros H1 H2. pose proof (ilog2_mono q1 q2 H1 H2). unfold exponent. lia.
Qed.

Lemma exponent_lt (q : Q) (k : Z) :
  0 < q -> q < 2 ^ k -> (-1074 <= k - 53)%Z -> (exponent q <= k - 53)%Z.
Proof.
  intros Hq Hk Hmin. destruct (ilog2_spec q Hq) as [H1 _].
  assert (ilog2 q < k)%Z by (apply pow2_lt_inv; lra).
  unfold exponent. lia.
Qed.

Lemma exponent_comp (q q' : Q) : 0 < q -> q == q' -> exponent q = exponent q'.
Proof.
  intros Hq Heq. unfold exponent. f_equal. f_equal.
  destruct (ilog2_spec q Hq) as [H1 H2].
  symmetry. apply ilog2_unique; lra.
Qed.

(** *** The nearest double *)

Lemma nearest_eq (q : Q) :
  nearest q
  == inject_Z (round_half_even (q / 2 ^ exponent q)) * 2 ^ exponent q.
Proof. unfold nearest. apply Qred_correct. Qed.

Lemma scaled (q : Q) (e : Z) : q == q / 2 ^ e * 2 ^ e.
Proof. pose proof (pow2_pos e). field. lra. Qed.

Lemma nearest_error (q : Q) :
  nearest q - 2 ^ exponent q * (1 # 2) <= q
  /\ q <= nearest q + 2 ^ exponent q * (1 # 2).
Proof.
  rewrite nearest_eq. set (e := exponent q).
  pose proof (pow2_pos e) as Hp.
  destruct (round_half_even_bounds (q / 2 ^ e)) as [H1 H2].
  set (m := inject_Z (round_half_even (q / 2 ^ e))) in *.
  pose proof (scaled q e) as Hs.
  set (x := q / 2 ^ e) in *.
  split.
  - assert ((m - (1 # 2)) * 2 ^ e <= x * 2 ^ e)
      by (apply Qmult_le_compat_r; lra).
    lra.
  - assert (x * 2 ^ e <= (m + (1 # 2)) * 2 ^ e)
      by (apply Qmult_le_compat_r; lra).
    lra.
Qed.

Lemma nearest_zero (q : Q) : q == 0 -> nearest q = 0.
Proof.
  intros H. unfold nearest. change 0 with (Qred 0). apply Qred_complete.
  generalize (exponent q). intros e. pose proof (pow2_pos e).
  rewrite (round_half_even_Z _ 0); [ring |].
  rewrite H. field. lra.
Qed.

Lemma nearest_nonneg (q : Q) : 0 <= q -> 0 <= nearest q.
Proof.
  intros H. rewrite nearest_eq. pose proof (pow2_pos (exponent q)) as Hp.
  apply Qmult_le_0_compat; [| lra].
  change 0 with (inject_Z 0). rewrite <- Zle_Qle.
  rewrite <- (round_half_even_Z 0 0) by reflexivity.
  apply round_half_even_mono.
  apply Qle_shift_div_l; [exact Hp | lra].
Qed.

Lemma nearest_comp (q q' : Q) : 0 <= q -> q == q' -> nearest q = nearest q'.
Proof.
  intros Hq Heq. destruct (Qlt_le_dec 0 q) as [Hpos | Hzero].
  - unfold nearest. rewrite <- (exponent_comp q q' Hpos Heq).
    generalize (exponent q). intros e. apply Qred_complete.
    rewrite (round_half_even_comp (q' / 2 ^ e) (q / 2 ^ e)); [reflexivity |].
    rewrite Heq. reflexivity.
  - rewrite !nearest_zero by lra. reflexivity.
Qed.

(** A number with a significand that fits is a double. *)
Lemma nearest_exact (q : Q) (m j : Z) :
  0 <= q -> q == inject_Z m * 2 ^ j -> (exponent q <= j)%Z ->
  nearest q = Qred q.
Proof.
  intros Hq Hm Hj. unfold nearest. apply Qred_complete.
  set (e := exponent q) in *. pose proof (pow2_pos e) as Hp.
  rewrite (round_half_even_Z _ (m * 2 ^ (j - e))).
  - rewrite inject_Z_mult, pow2_inject by lia.
    rewrite Hm. replace j with ((j - e) + e)%Z at 2 by lia.
    rewrite pow2_add. ring.
  - rewrite inject_Z_mult, pow2_inject by lia.
    rewrite Hm. replace j with ((j - e) + e)%Z at 1 by lia.
    rewrite pow2_add. field. lra.
Qed.

Lemma nearest_Z (z : Z) :
  (0 <= z < 2 ^ 53)%Z -> nearest (inject_Z z) = inject_Z z.
Proof.
  intros Hz.
  destruct (Z.eq_dec z 0%Z) as [-> | Hne]; [apply nearest_zero; reflexivity |].
  rewrite (nearest_exact (inject_Z z) z 0%Z).
  - apply numbers.inject_Z_Qred.
  - change 0 with (inject_Z 0). rewrite <- Zle_Qle. lia.
  - change (2 ^ 0) with 1. ring.
  - replace 0%Z with (53 - 53)%Z by reflexivity. apply exponent_lt.
    + change 0 with (inject_Z 0). rewrite <- Zlt_Qlt. lia.
    + rewrite <- pow2_inject by lia. rewrite <- Zlt_Qlt. lia.
    + lia.
Qed.

Lemma nearest_mono (q1 q2 : Q) : 0 <= q1 -> q1 <= q2 -> nearest q1 <= nearest q2.
Proof.
  intros H1 H2. destruct (Qlt_le_dec 0 q1) as [Hpos | Hzero].
  2:{ rewrite (nearest_zero q1) by lra. apply nearest_nonneg. lra. }
  pose proof (exponent_mono q1 q2 Hpos H2) as He.
  rewrite (nearest_eq q1), (nearest_eq q2).
  set (e1 := exponent q1) in *. set (e2 := exponent q2) in *.
  pose proof (pow2_pos e1) as Hp1. pose proof (pow2_pos e2) as Hp2.
  destruct (Z.eq_dec e1 e2) as [Heq | Hne].
  - rewrite <- Heq. apply Qmult_le_compat_r; [| lra].
    rewrite <- Zle_Qle. apply round_half_even_mono.
    apply Qle_shift_div_l; [exact Hp1 |].
    rewrite <- (scaled q1 e1). exact H2.
  - assert (e1 < e2)%Z as Hlt by lia.
    destruct (ilog2_spec q1 Hpos) as [_ Hu].
    destruct (ilog2_spec q2 ltac:(lra)) as [Hl _].
    assert (e2 = ilog2 q2 - 52)%Z as He2 by (unfold e2, exponent in *; lia).
    assert (ilog2 q1 - 52 <= e1)%Z as He1 by (unfold e1, exponent; lia).
    apply Qle_trans with (2 ^ (e1 + 53)).
    + rewrite (pow2_add e1 53), (Qmult_comm (2 ^ e1) (2 ^ 53)).
      apply Qmult_le_compat_r; [| lra].
      rewrite <- (pow2_inject 53) by lia. rewrite <- Zle_Qle.
      rewrite <- (round_half_even_Z (inject_Z (2 ^ 53)) (2 ^ 53)) by reflexivity.
      apply round_half_even_mono. apply Qle_shift_div_r; [exact Hp1 |].
      rewrite (pow2_inject 53) by lia. rewrite <- pow2_add.
      apply Qle_trans with (2 ^ (ilog2 q1 + 1)); [lra |].
      apply pow2_le. lia.
    + apply Qle_trans with (2 ^ (e2 + 52)); [apply pow2_le; lia |].
      rewrite (pow2_add e2 52), (Qmult_comm (2 ^ e2) (2 ^ 52)).
      apply Qmult_le_compat_r; [| lra].
      rewrite <- (pow2_inject 52) by lia. rewrite <- Zle_Qle.
      rewrite <- (round_half_even_Z (inject_Z (2 ^ 52)) (2 ^ 52)) by reflexivity.
      apply round_half_even_mono. apply Qle_shift_div_l; [exact Hp2 |].
      rewrite (pow2_inject 52) by lia. rewrite <- pow2_add.
      replace (52 + e2)%Z with (ilog2 q2) by lia. exact Hl.
Qed.

(** The relative error of rounding a number from 1 on is at most
    [2^-53]. *)
Lemma nearest_rel (q : Q) :
  1 <= q ->
  q * (1 - 2 ^ (-53)) <= nearest q /\ nearest q <= q * (1 + 2 ^ (-53)).
Proof.
  intros Hq. destruct (nearest_error q) as [H1 H2].
  destruct (ilog2_spec q ltac:(lra)) as [Hl _].
  assert (0 <= ilog2 q)%Z as Hi.
  { assert (0 < ilog2 q + 1)%Z; [| lia].
    apply pow2_lt_inv. destruct (ilog2_spec q ltac:(lra)) as [_ Hu].
    change (2 ^ 0) with 1. lra. }
  assert (exponent q = ilog2 q - 52)%Z as He by (unfold exponent; lia).
  assert (2 ^ exponent q * (1 # 2) <= q * 2 ^ (-53)) as Herr.
  { rewrite He. replace (ilog2 q - 52)%Z with (ilog2 q + -53 + 1)%Z by lia.
    rewrite pow2_succ, pow2_add.
    pose proof (pow2_pos (-53)) as Hp.
    assert (2 ^ ilog2 q * 2 ^ (-53) <= q * 2 ^ (-53))
      by (apply Qmult_le_compat_r; lra).
    lra. }
  split; lra.
Qed.

(** *** The operations *)

Lemma round_double_nonneg (q : Q) :
  0 <= q -> nearest q < 2 ^ 1024 -> round_double q = Some (nearest q).
Proof.
  intros Hq Hlt. unfold round_double.
  assert (Qle_bool 0 q = true) as -> by (apply Qle_bool_iff; exact Hq).
  destruct (Qle_bool (2 ^ 1024) (Qabs (nearest q))) eqn:Hov; [| reflexivity].
  apply Qle_bool_iff in Hov.
  rewrite Qabs_pos in Hov by (apply nearest_nonneg; exact Hq). lra.
Qed.

Lemma round_double_below (q bound : Q) :
  0 <= q -> nearest q <= bound -> bound < 2 ^ 1024 ->
  round_double q = Some (nearest q).
Proof. intros H0 H1 H2. apply round_double_nonneg; lra. Qed.

Lemma nearest_one : nearest 1 = 1.
Proof. apply (nearest_Z 1). lia. Qed.

(** Rounding at most doubles a number from 1 on. *)
Lemma nearest_bound (q bound : Q) :
  0 <= q -> q <= bound -> 1 <= bound -> nearest q <= 2 * bound.
Proof.
  intros H0 Hq Hb. destruct (Qlt_le_dec q 1) as [Hs | Hl].
  - pose proof (nearest_mono q 1 H0 ltac:(lra)) as Hm.
    rewrite nearest_one in Hm. lra.
  - destruct (nearest_rel q Hl) as [_ Hr].
    change (2 ^ (-53)) with (1 # 9007199254740992) in Hr. lra.
Qed.

Lemma round_double_bound (q : Q) (k : Z) :
  0 <= q -> q <= 2 ^ k -> (0 <= k < 1023)%Z ->
  round_double q = Some (nearest q) /\ 0 <= nearest q <= 2 ^ (k + 1).
Proof.
  intros H0 Hq Hk.
  assert (1 <= 2 ^ k) as H1 by (change 1 with (2 ^ 0); apply pow2_le; lia).
  pose proof (nearest_bound q (2 ^ k) H0 Hq H1) as Hb.
  rewrite <- pow2_succ in Hb.
  pose proof (nearest_nonneg q H0).
  split; [| split; assumption].
  apply round_double_nonneg; [exact H0 |].
  pose proof (pow2_lt (k + 1) 1024 ltac:(lia)). lra.
Qed.

Lemma pow2_Z (k : Z) (z : Z) :
  (0 <= k)%Z -> (z <= 2 ^ k)%Z -> inject_Z z <= 2 ^ k.
Proof.
  intros Hk Hz. rewrite <- (pow2_inject k) by exact Hk.
  rewrite <- Zle_Qle. exact Hz.
Qed.

Lemma float_of_int_exact (n : Z) :
  (0 <= n < 2 ^ 53)%Z -> float_of_int n = Some (inject_Z n).
Proof.
  intros Hn. unfold float_of_int.
  assert (0 <= inject_Z n) as H0.
  { change 0 with (inject_Z 0). rewrite <- Zle_Qle. lia. }
  rewrite round_double_nonneg, nearest_Z; try assumption; [reflexivity |].
  rewrite nearest_Z by assumption.
  apply Qle_lt_trans with (2 ^ 53); [apply pow2_Z; lia |].
  apply pow2_lt. lia.
Qed.

Lemma Qfloor_unique (q : Q) (z : Z) :
  inject_Z z <= q -> q < inject_Z z + 1 -> Qfloor q = z.
Proof.
  intros H1 H2. pose proof (Qfloor_le q) as H3. pose proof (Qlt_floor q) as H4.
  rewrite inject_Z_plus in H4. change (inject_Z 1) with 1 in H4.
  assert (inject_Z z < inject_Z (Qfloor q) + 1) as H5 by lra.
  assert (inject_Z (Qfloor q) < inject_Z z + 1) as H6 by lra.
  change 1 with (inject_Z 1) in H5, H6.
  rewrite <- inject_Z_plus, <- Zlt_Qlt in H5, H6. lia.
Qed.

Lemma float_1_3_value : float_1_3 = 5854679515581645 # 4503599627370496.
Proof. vm_compute. reflexivity. Qed.

(** *** The estimate *)

Lemma inject_Z_nonneg (z : Z) : (0 <= z)%Z -> 0 <= inject_Z z.
Proof. intros H. change 0 with (inject_Z 0). rewrite <- Zle_Qle. exact H. Qed.

(** Below [2^40] the three roundings of the estimate do not reach its
    integer part: it is the integer part of the exact
    [total_hp * 13 / 10 + width * 6]. *)
Lemma estimated_ticks_to_clear_exact (total_hp width : Z) :
  (0 <= total_hp <= 2 ^ 40)%Z -> (0 <= width <= 2 ^ 40)%Z ->
  estimated_ticks_to_clear total_hp width
  = Some ((13 * total_hp + 60 * width) / 10)%Z.
Proof.
  intros Hhp Hw. unfold estimated_ticks_to_clear.
  rewrite (float_of_int_exact total_hp), (float_of_int_exact (width * 6)) by lia.
  cbn [mbind option_bind].
  set (N := ((13 * total_hp + 60 * width) / 10)%Z).
  set (M := (13 * total_hp / 10)%Z).
  assert (N = M + width * 6)%Z as HN.
  { unfold N, M. replace (13 * total_hp + 60 * width)%Z
      with (13 * total_hp + (6 * width) * 10)%Z by lia.
    rewrite Z.div_add by lia. lia. }
  assert (10 * M <= 13 * total_hp <= 10 * M + 9)%Z as HM.
  { unfold M. pose proof (Z.div_mod (13 * total_hp) 10 ltac:(lia)).
    pose proof (Z.mod_pos_bound (13 * total_hp) 10 ltac:(lia)). lia. }
  pose proof (inject_Z_nonneg total_hp ltac:(lia)) as Qhp0.
  pose proof (pow2_Z 40 total_hp ltac:(lia) ltac:(lia)) as Qhp1.
  change (2 ^ 40) with 1099511627776 in Qhp1.
  pose proof (inject_Z_nonneg width ltac:(lia)) as Qw0.
  pose proof (pow2_Z 40 width ltac:(lia) ltac:(lia)) as Qw1.
  change (2 ^ 40) with 1099511627776 in Qw1.
  assert (10 * inject_Z M <= 13 * inject_Z total_hp) as QM1.
  { change 10 with (inject_Z 10). change 13 with (inject_Z 13).
    rewrite <- !inject_Z_mult, <- Zle_Qle. lia. }
  assert (13 * inject_Z total_hp <= 10 * inject_Z M + 9) as QM2.
  { change 10 with (inject_Z 10). change 13 with (inject_Z 13).
    change 9 with (inject_Z 9).
    rewrite <- !inject_Z_mult, <- inject_Z_plus, <- Zle_Qle. lia. }
  assert (inject_Z (width * 6) == 6 * inject_Z width) as Qw6.
  { rewrite inject_Z_mult. change (inject_Z 6) with 6. ring. }
  (* the product *)
  set (P := inject_Z total_hp * float_1_3).
  assert (P == inject_Z total_hp * (5854679515581645 # 4503599627370496)) as HP.
  { unfold P. rewrite float_1_3_value. reflexivity. }
  assert (0 <= P) as HP0 by lra.
  destruct (round_double_bound P 41 HP0) as [Hmul [Hp0 _]]; [| lia |].
  { change (2 ^ 41) with 2199023255552. lra. }
  unfold float_mul. fold P. rewrite Hmul. cbn [mbind option_bind].
  set (p := nearest P) in *.
  assert (inject_Z M <= p) as Hp1.
  { rewrite <- (nearest_Z M) by lia. apply nearest_mono.
    - apply inject_Z_nonneg. lia.
    - lra. }
  assert (p <= P + (1 # 4096)) as Hp2.
  { destruct (Qlt_le_dec P 1) as [Hs | Hl].
    - pose proof (nearest_mono P 1 HP0 ltac:(lra)) as Hm.
      rewrite nearest_one in Hm. fold p in Hm.
      destruct (Z.eq_dec total_hp 0%Z) as [Hz | Hnz].
      + unfold p. rewrite (nearest_zero P); [lra |].
        unfold P. rewrite Hz. ring.
      + assert (1 <= inject_Z total_hp).
        { change 1 with (inject_Z 1). rewrite <- Zle_Qle. lia. }
        lra.
    - destruct (nearest_rel P Hl) as [_ Hr]. fold p in Hr.
      change (2 ^ (-53)) with (1 # 9007199254740992) in Hr. lra. }
  (* the sum *)
  set (S := p + inject_Z (width * 6)).
  assert (0 <= S) as HS0 by (unfold S; lra).
  destruct (round_double_bound S 43 HS0) as [Hadd [Hs0 _]]; [| lia |].
  { change (2 ^ 43) with 8796093022208. unfold S. lra. }
  unfold float_add. fold S. rewrite Hadd. cbn [mbind option_bind].
  set (s := nearest S) in *.
  assert (inject_Z N <= s) as Hs1.
  { rewrite <- (nearest_Z N) by lia. apply nearest_mono.
    - apply inject_Z_nonneg. lia.
    - unfold S. rewrite HN, inject_Z_plus. lra. }
  assert (s <= S + (1 # 1024)) as Hs2.
  { destruct (Qlt_le_dec S 1) as [Hs | Hl].
    - pose proof (nearest_mono S 1 HS0 ltac:(lra)) as Hm.
      rewrite nearest_one in Hm. fold s in Hm.
      assert (N <= 0)%Z as HN0.
      { apply Z.lt_succ_r. rewrite Zlt_Qlt.
        apply Qle_lt_trans with S; [| exact Hs].
        unfold S. rewrite HN, inject_Z_plus. lra. }
      assert (total_hp = 0 /\ width = 0)%Z as [Hz Hwz] by lia.
      assert (S == 0) as HSz.
      { unfold S, p. rewrite (nearest_zero P).
        - rewrite Hwz. reflexivity.
        - unfold P. rewrite Hz. ring. }
      unfold s. rewrite (nearest_zero S HSz). lra.
    - destruct (nearest_rel S Hl) as [_ Hr]. fold s in Hr.
      change (2 ^ (-53)) with (1 # 9007199254740992) in Hr.
      unfold S in *. lra. }
  f_equal. unfold py_int.
  assert (Qle_bool 0 s = true) as -> by (apply Qle_bool_iff; exact Hs0).
  apply Qfloor_unique; [exact Hs1 |].
  unfold S in Hs2. rewrite HN, inject_Z_plus. lra.
Qed.

(** Rounding a number that is 0 or at least 1: the result is 0 or at
    least 1 again, and above the number by at most [2^-53] of it. *)
Lemma nearest_upper (q : Q) :
  q == 0 \/ 1 <= q ->
  (nearest q == 0 \/ 1 <= nearest q) /\ 0 <= nearest q
  /\ nearest q <= q * (1 + (1 # 9007199254740992)).
Proof.
  intros [Hz | Hq].
  - rewrite (nearest_zero q Hz). split; [left; reflexivity | lra].
  - destruct (nearest_rel q Hq) as [_ Hr].
    change (2 ^ (-53)) with (1 # 9007199254740992) in Hr.
    pose proof (nearest_mono 1 q ltac:(lra) Hq) as Hm.
    rewrite nearest_one in Hm. split; [right; exact Hm | lra].
Qed.

Lemma inject_Z_zero_or_one (z : Z) :
  (0 <= z)%Z -> inject_Z z == 0 \/ 1 <= inject_Z z.
Proof.
  intros Hz. destruct (Z.eq_dec z 0%Z) as [-> | Hne]; [left; reflexivity |].
  right. change 1 with (inject_Z 1). rewrite <- Zle_Qle. lia.
Qed.

Lemma pow2_200_margin : 128 * 2 ^ 200 < 2 ^ 1024.
Proof.
  change 128 with (2 ^ 7). rewrite <- pow2_add. apply pow2_lt. lia.
Qed.

(** The three roundings of the estimate, for operands that are 0 or at
    least 1 and stay below [2^200]: none overflows, and together they
    lift the exact value by less than [2^-50] of it. *)
Lemma estimate_roundings (h v : Q) :
  h == 0 \/ 1 <= h -> v == 0 \/ 1 <= v -> h <= 2 ^ 200 -> v <= 6 * 2 ^ 200 ->
  exists a p b s : Q,
    round_double h = Some a /\ round_double (a * float_1_3) = Some p /\
    round_double v = Some b /\ round_double (p + b) = Some s /\
    0 <= s /\ s <= (h * (13 # 10) + v) * (1 + (1 # 1125899906842624)).
Proof.
  intros Hh Hv Hht Hvt.
  generalize pow2_200_margin. revert Hht Hvt.
  assert (1 <= 2 ^ 200) as Ht1 by (change 1 with (2 ^ 0); apply pow2_le; lia).
  revert Ht1. generalize (2 ^ 200). intros t Ht1 Hht Hvt Ht2.
  destruct (nearest_upper h Hh) as (Ha1 & Ha0 & Ha2).
  assert (0 <= h) as Hh0 by (destruct Hh; lra).
  assert (0 <= v) as Hv0 by (destruct Hv; lra).
  pose proof (round_double_below h (128 * t) Hh0 ltac:(lra) Ht2) as Ra.
  set (a := nearest h) in *.
  assert (a * float_1_3 == a * (5854679515581645 # 4503599627370496)) as HP
    by (rewrite float_1_3_value; reflexivity).
  set (P := a * float_1_3) in *.
  destruct (nearest_upper P) as (Hp1 & Hp0 & Hp2).
  { destruct Ha1 as [Hz | Hl]; [left | right]; lra. }
  pose proof (round_double_below P (128 * t) ltac:(lra) ltac:(lra) Ht2) as Rp.
  set (p := nearest P) in *.
  destruct (nearest_upper v Hv) as (Hb1 & Hb0 & Hb2).
  pose proof (round_double_below v (128 * t) Hv0 ltac:(lra) Ht2) as Rb.
  set (b := nearest v) in *.
  destruct (nearest_upper (p + b)) as (Hs1 & Hs0 & Hs2).
  { destruct Hp1 as [Hpz | Hpl]; destruct Hb1 as [Hbz | Hbl];
      [left | right | right | right]; lra. }
  pose proof (round_double_below (p + b) (128 * t) ltac:(lra) ltac:(lra) Ht2)
    as Rs.
  exists a, p, b, (nearest (p + b)).
  repeat (split; [assumption |]). lra.
Qed.

(** Up to [2^200] the estimate is computed without overflow, and
    rounding lifts it by less than [2^-50] of the exact value. *)
Lemma estimated_ticks_to_clear_upper (total_hp width : Z) :
  (0 <= total_hp <= 2 ^ 200)%Z -> (0 <= width <= 2 ^ 200)%Z ->
  exists est : Z,
    estimated_ticks_to_clear total_hp width = Some est /\ (0 <= est)%Z /\
    inject_Z est
    <= (inject_Z total_hp * (13 # 10) + 6 * inject_Z width)
       * (1 + (1 # 1125899906842624)).
Proof.
  intros Hhp Hw.
  assert (inject_Z (width * 6) == 6 * inject_Z width) as Qw6.
  { rewrite inject_Z_mult. change (inject_Z 6) with 6. ring. }
  destruct (estimate_roundings (inject_Z total_hp) (inject_Z (width * 6)))
    as (a & p & b & s & Ra & Rp & Rb & Rs & Hs0 & Hs).
  - apply inject_Z_zero_or_one. lia.
  - apply inject_Z_zero_or_one. lia.
  - apply pow2_Z; lia.
  - rewrite Qw6. apply Qmult_le_l; [reflexivity |]. apply pow2_Z; lia.
  - unfold estimated_ticks_to_clear, float_of_int, float_mul, float_add.
    rewrite Ra. cbn [mbind option_bind]. rewrite Rp. cbn [mbind option_bind].
    rewrite Rb. cbn [mbind option_bind]. rewrite Rs. cbn [mbind option_bind].
    unfold py_int.
    assert (Qle_bool 0 s = true) as -> by (apply Qle_bool_iff; exact Hs0).
    exists (Qfloor s). split; [reflexivity |]. split.
    + change 0%Z with (Qfloor 0). apply Qfloor_resp_le. exact Hs0.
    + rewrite <- Qw6. apply Qle_trans with s; [apply Qfloor_le | exact Hs].
Qed.

(** *** The quotient *)

Lemma Qceiling_le (q : Q) (z : Z) : q <= inject_Z z -> (Qceiling q <= z)%Z.
Proof.
  intros H. rewrite <- (Qceiling_Z z). apply Qceiling_resp_le. exact H.
Qed.

Lemma Qceiling_gt (q : Q) (z : Z) : inject_Z z < q -> (z < Qceiling q)%Z.
Proof.
  intros H. pose proof (Qle_ceiling q). rewrite Zlt_Qlt. lra.
Qed.

Lemma quotient_bounds (a b : Z) :
  (0 <= a)%Z -> (1 <= b)%Z ->
  0 <= inject_Z a / inject_Z b /\ inject_Z a / inject_Z b <= inject_Z a.
Proof.
  intros Ha Hb.
  pose proof (inject_Z_nonneg a Ha) as Qa.
  assert (1 <= inject_Z b) as Qb
    by (change 1 with (inject_Z 1); rewrite <- Zle_Qle; exact Hb).
  split.
  - apply Qle_shift_div_l; lra.
  - apply Qle_shift_div_r; [lra |].
    assert (1 * inject_Z a <= inject_Z b * inject_Z a)
      by (apply Qmult_le_compat_r; lra).
    lra.
Qed.

Lemma int_truediv_nonneg (a b : Z) :
  (0 <= a)%Z -> (1 <= b)%Z -> inject_Z a <= 2 ^ 1000 ->
  int_truediv a b = Some (nearest (inject_Z a / inject_Z b)).
Proof.
  intros Ha Hb Hbound. unfold int_truediv.
  destruct (Z.eqb_spec b 0) as [-> | _]; [lia |].
  destruct (quotient_bounds a b Ha Hb) as [H0 H1].
  apply (round_double_bound _ 1000); [exact H0 | lra | lia].
Qed.

(** A quotient of at most 28 is rounded to at most 28. *)
Lemma quotient_small (a b : Z) :
  (0 <= a)%Z -> (1 <= b)%Z -> (a <= 28 * b)%Z ->
  (Qceiling (nearest (inject_Z a / inject_Z b)) <= 28)%Z.
Proof.
  intros Ha Hb Hab. destruct (quotient_bounds a b Ha Hb) as [H0 _].
  apply Qceiling_le. rewrite <- (nearest_Z 28) by lia.
  apply nearest_mono; [exact H0 |].
  apply Qle_shift_div_r.
  - change 0 with (inject_Z 0). rewrite <- Zlt_Qlt. lia.
  - rewrite <- inject_Z_mult, <- Zle_Qle. exact Hab.
Qed.

(** The quotient of a dividend below [2^53] is rounded without passing
    an integer, as far as the clamp can tell. *)
Lemma quotient_exact (a b : Z) :
  (0 <= a < 2 ^ 53)%Z -> (1 <= b)%Z ->
  Z.max 28 (Z.min 180 (Qceiling (nearest (inject_Z a / inject_Z b))))
  = Z.max 28 (Z.min 180 (Qceiling (inject_Z a / inject_Z b))).
Proof.
  intros Ha Hb.
  destruct (quotient_bounds a b ltac:(lia) Hb) as [H0 H1].
  set (q := inject_Z a / inject_Z b) in *.
  assert (0 < inject_Z b) as HB
    by (change 0 with (inject_Z 0); rewrite <- Zlt_Qlt; lia).
  assert (q * inject_Z b == inject_Z a) as Hqb by (unfold q; field; lra).
  destruct (Z_le_gt_dec (Qceiling q) 28) as [Hsmall | Hbig].
  - assert (Qceiling (nearest q) <= 28)%Z; [| lia].
    apply Qceiling_le. rewrite <- (nearest_Z 28) by lia.
    apply nearest_mono; [exact H0 |].
    apply Qle_trans with (inject_Z (Qceiling q)); [apply Qle_ceiling |].
    rewrite <- Zle_Qle. exact Hsmall.
  - assert (Qceiling (nearest q) = Qceiling q) as ->; [| reflexivity].
    pose proof (Qceiling_lt q) as Hlow. pose proof (Qle_ceiling q) as Hup.
    set (raw := Qceiling q) in *.
    assert (raw <= a)%Z as Hra.
    { unfold raw. apply Qceiling_le. exact H1. }
    apply Z.le_antisymm.
    + apply Qceiling_le. rewrite <- (nearest_Z raw) by lia.
      apply nearest_mono; assumption.
    + assert (raw - 1 < Qceiling (nearest q))%Z; [| lia].
      apply Qceiling_gt.
      assert (1 <= q) as Hq1.
      { apply Qle_trans with (inject_Z (raw - 1)); [| lra].
        change 1 with (inject_Z 1). rewrite <- Zle_Qle. lia. }
      destruct (nearest_rel q Hq1) as [Hrel _].
      change (2 ^ (-53)) with (1 # 9007199254740992) in Hrel.
      apply Qlt_le_trans with (q * (1 - (1 # 9007199254740992)));
        [| exact Hrel].
      assert ((raw - 1) * b + 1 <= a)%Z as Hint.
      { assert ((raw - 1) * b < a)%Z; [| lia].
        rewrite Zlt_Qlt, inject_Z_mult, <- Hqb.
        apply Qmult_lt_r; assumption. }
      rewrite Zle_Qle, inject_Z_plus, inject_Z_mult in Hint.
      change (inject_Z 1) with 1 in Hint.
      assert (inject_Z a < 9007199254740992) as Ha53.
      { change 9007199254740992 with (inject_Z (2 ^ 53)).
        rewrite <- Zlt_Qlt. lia. }
      apply (Qmult_lt_r _ _ (inject_Z b) HB).
      set (n := inject_Z (raw - 1)) in *.
      assert (q * (1 - (1 # 9007199254740992)) * inject_Z b
              == inject_Z a * (1 - (1 # 9007199254740992))) as ->
        by (rewrite <- Hqb; ring).
      lra.
Qed.

(** *** The interval *)

(** Whatever the operands, a computed interval is between 28 and 180. *)
Lemma compute_enemy_move_interval_range (total_hp width max_descents i : Z) :
  compute_enemy_move_interval total_hp width max_descents = Some i ->
  (28 <= i <= 180)%Z.
Proof.
  unfold compute_enemy_move_interval. intros H.
  destruct (estimated_ticks_to_clear total_hp width) as [est |];
    cbn [mbind option_bind] in H; [| discriminate].
  destruct (int_truediv est _) as [quotient |];
    cbn [mbind option_bind] in H; [| discriminate].
  injection H as <-. lia.
Qed.

Lemma estimate_bound (total_hp width est : Z) :
  (0 <= total_hp <= 2 ^ 200)%Z -> (0 <= width <= 2 ^ 200)%Z ->
  inject_Z est
  <= (inject_Z total_hp * (13 # 10) + 6 * inject_Z width)
     * (1 + (1 # 1125899906842624)) ->
  inject_Z est <= 2 ^ 1000.
Proof.
  intros Hhp Hw Hest.
  pose proof (pow2_Z 200 total_hp ltac:(lia) ltac:(lia)) as Qhp.
  pose proof (pow2_Z 200 width ltac:(lia) ltac:(lia)) as Qw.
  pose proof (inject_Z_nonneg total_hp ltac:(lia)).
  pose proof (inject_Z_nonneg width ltac:(lia)).
  apply Qle_trans with (16 * 2 ^ 200).
  - set (t := 2 ^ 200) in *. clearbody t.
    set (e := inject_Z est) in *. clearbody e.
    set (h := inject_Z total_hp) in *. clearbody h.
    set (w := inject_Z width) in *. clearbody w. lra.
  - change 16 with (2 ^ 4). rewrite <- pow2_add. apply pow2_le. lia.
Qed.

(** Up to [2^200] nothing overflows: the interval is computed. *)
Lemma compute_enemy_move_interval_total (total_hp width max_descents : Z) :
  (0 <= total_hp <= 2 ^ 200)%Z -> (0 <= width <= 2 ^ 200)%Z ->
  exists i : Z,
    compute_enemy_move_interval total_hp width max_descents = Some i
    /\ (28 <= i <= 180)%Z.
Proof.
  intros Hhp Hw.
  destruct (estimated_ticks_to_clear_upper total_hp width Hhp Hw)
    as (est & Hest & Hest0 & Hup).
  unfold compute_enemy_move_interval. rewrite Hest. cbn [mbind option_bind].
  rewrite int_truediv_nonneg;
    [| exact Hest0 | lia | exact (estimate_bound _ _ _ Hhp Hw Hup)].
  cbn [mbind option_bind]. eexists. split; [reflexivity | lia].
Qed.

(** Below [2^40] the interval is the one of exact arithmetic on the
    truncated estimate. *)
Lemma compute_enemy_move_interval_exact (total_hp width max_descents : Z) :
  (0 <= total_hp <= 2 ^ 40)%Z -> (0 <= width <= 2 ^ 40)%Z ->
  compute_enemy_move_interval total_hp width max_descents
  = Some (Z.max 28 (Z.min 180
            (Qceiling (inject_Z ((13 * total_hp + 60 * width) / 10)
                       / inject_Z (Z.max 1 (width * max_descents)))))).
Proof.
  intros Hhp Hw. unfold compute_enemy_move_interval.
  rewrite estimated_ticks_to_clear_exact by assumption.
  cbn [mbind option_bind].
  set (est := ((13 * total_hp + 60 * width) / 10)%Z).
  assert (0 <= est < 2 ^ 53)%Z as Hest.
  { unfold est. split; [apply Z.div_pos; lia |].
    apply Z.div_lt_upper_bound; lia. }
  rewrite int_truediv_nonneg; [| lia | lia |].
  - cbn [mbind option_bind]. f_equal. apply quotient_exact; lia.
  - apply Qle_trans with (2 ^ 53); [apply pow2_Z; lia | apply pow2_le; lia].
Qed.

(** An estimate that stays under 28 times the divisor, with room for
    the roundings, gives the lower clamp. *)
Lemma compute_enemy_move_interval_small (total_hp width max_descents : Z) :
  (0 <= total_hp <= 2 ^ 200)%Z -> (0 <= width <= 2 ^ 200)%Z ->
  (inject_Z total_hp * (13 # 10) + 6 * inject_Z width)
  * (1 + (1 # 1125899906842624))
  <= 28 * inject_Z (Z.max 1 (width * max_descents)) ->
  compute_enemy_move_interval total_hp width max_descents = Some 28%Z.
Proof.
  intros Hhp Hw Hsmall.
  destruct (estimated_ticks_to_clear_upper total_hp width Hhp Hw)
    as (est & Hest & Hest0 & Hup).
  unfold compute_enemy_move_interval. rewrite Hest. cbn [mbind option_bind].
  rewrite int_truediv_nonneg;
    [| exact Hest0 | lia | exact (estimate_bound _ _ _ Hhp Hw Hup)].
  cbn [mbind option_bind]. f_equal.
  assert (Qceiling (nearest (inject_Z est
                             / inject_Z (Z.max 1 (width * max_descents))))
          <= 28)%Z; [| lia].
  apply quotient_small; [exact Hest0 | lia |].
  rewrite Zle_Qle, inject_Z_mult. change (inject_Z 28) with 28. lra.
Qed.

(** *** Overflow *)

Lemma nearest_pow2 (k : Z) : (-1074 <= k)%Z -> nearest (2 ^ k) == 2 ^ k.
Proof.
  intros Hk. pose proof (pow2_pos k) as Hp.
  rewrite (nearest_exact (2 ^ k) 1 k).
  - apply Qred_correct.
  - lra.
  - change (inject_Z 1) with 1. ring.
  - assert (ilog2 (2 ^ k) = k) as Hi.
    { apply ilog2_unique; [lra | apply pow2_lt; lia]. }
    unfold exponent. rewrite Hi. lia.
Qed.

(** From [2^1024] on there is no double. *)
Lemma round_double_overflow (q : Q) : 2 ^ 1024 <= q -> round_double q = None.
Proof.
  intros Hq. pose proof (pow2_pos 1024) as Hp. unfold round_double.
  assert (Qle_bool 0 q = true) as -> by (apply Qle_bool_iff; lra).
  pose proof (nearest_mono (2 ^ 1024) q ltac:(lra) Hq) as Hm.
  rewrite (nearest_pow2 1024) in Hm by lia.
  assert (Qle_bool (2 ^ 1024) (Qabs (nearest q)) = true) as ->; [| reflexivity].
  apply Qle_bool_iff. rewrite Qabs_pos; [exact Hm | lra].
Qed.

(** An [int] operand from [2^1024] on makes the call raise
    [OverflowError]. *)
Lemma compute_enemy_move_interval_raises (total_hp width max_descents : Z) :
  (2 ^ 1024 <= total_hp)%Z \/ (2 ^ 1024 <= width * 6)%Z ->
  compute_enemy_move_interval total_hp width max_descents = None.
Proof.
  intros Hbig. unfold compute_enemy_move_interval, estimated_ticks_to_clear.
  destruct Hbig as [Hhp | Hw].
  - unfold float_of_int.
    rewrite (round_double_overflow (inject_Z total_hp)); [reflexivity |].
    rewrite <- (pow2_inject 1024) by lia. rewrite <- Zle_Qle. exact Hhp.
  - destruct (float_of_int total_hp) as [hp |]; [| reflexivity].
    cbn [mbind option_bind].
    destruct (float_mul hp float_1_3) as [product |]; [| reflexivity].
    cbn [mbind option_bind].
    unfold float_of_int.
    rewrite (round_double_overflow (inject_Z (width * 6))); [reflexivity |].
    rewrite <- (pow2_inject 1024) by lia. rewrite <- Zle_Qle. exact Hw.
Qed.

End FloatSpec.

(** ** The shooter *)

Module ShooterSpec.
Import Shooter.

(** *** Ship motion *)

(** C8: a ship inside the field moves by at most one column in a tick,
    ends between its old column and the target column (towards the
    target, never past it), and is still inside the field, so the bounds
    hold again at the next tick; a target inside the field that is not
    reached yet gets exactly one column nearer. *)
Theorem move_ship_towards_one_column (ship_x target_x width : Z) :
  on_field width ship_x ->
  let ship_x' := move_ship_towards ship_x target_x width in
  Z.abs (ship_x' - ship_x) <= 1 /\
  (ship_x <= ship_x' <= target_x \/ target_x <= ship_x' <= ship_x) /\
  on_field width ship_x' /\
  (on_field width target_x -> target_x <> ship_x ->
   Z.abs (target_x - ship_x') = Z.abs (target_x - ship_x) - 1).
Proof.
  unfold on_field, move_ship_towards. intros Hs.
  destruct (Z.gtb_spec target_x ship_x); [simpl; lia |].
  destruct (Z.ltb_spec target_x ship_x); simpl; lia.
Qed.

(** A witness for C8: the ship in the rightmost column, the target to its
    left. *)
Lemma move_ship_towards_one_column_witness :
  let ship_x' := move_ship_towards 4 1 5 in
  Z.abs (ship_x' - 4) <= 1 /\
  (4 <= ship_x' <= 1 \/ 1 <= ship_x' <= 4) /\
  on_field 5 ship_x' /\
  (on_field 5 1 -> 1 <> 4 -> Z.abs (1 - ship_x') = Z.abs (1 - 4) - 1).
Proof.
  apply (move_ship_towards_one_column 4 1 5). unfold on_field. lia.
Defined.

(** The same over a run: a pass of the loop moves the ship with
    [move_ship_towards], so it stays inside the field. *)
Lemma loop_body_ship (p : params) (rnd : Z -> draw) (s s' : state) :
  loop_body p rnd s = Some s' ->
  st_ship_x s' =
    move_ship_towards (st_ship_x s) (st_current_target_x s') (width p).
Proof.
  unfold loop_body. intros H.
  destruct (retarget _ _ _ _ _ _ _) as [t |]; simpl in H; [| discriminate].
  destruct (if st_cooldown s <=? 0 then _ else _) as [bullets cooldown].
  destruct (move_bullets_and_apply_hits _ _ _ _ _) as [bullets' enemies'].
  destruct (py_mod _ _) as [phase |]; simpl in H; [| discriminate].
  destruct (if (phase =? 0) && _ then _ else _) as [[[fx fy] dir] |];
    simpl in H; [| discriminate].
  injection H as <-. reflexivity.
Qed.

Lemma run_ship_on_field (n : nat) (p : params) (rnd : Z -> draw) (s s' : state) :
  run n p rnd s = Some s' ->
  on_field (width p) (st_ship_x s) -> on_field (width p) (st_ship_x s').
Proof.
  revert s. induction n as [| n IH]; intros s Hrun Hs; simpl in Hrun.
  - injection Hrun as <-. exact Hs.
  - destruct (st_enemies s) eqn:He; [injection Hrun as <-; exact Hs |].
    destruct (loop_body p rnd s) as [s1|] eqn:Hbody; simpl in Hrun; [| discriminate].
    apply (IH s1 Hrun). rewrite (loop_body_ship _ _ _ _ Hbody).
    revert Hs. unfold on_field, move_ship_towards.
    destruct (Z.gtb_spec (st_current_target_x s1) (st_ship_x s)); [lia |].
    destruct (Z.ltb_spec (st_current_target_x s1) (st_ship_x s)); lia.
Qed.

(** *** Minima, maxima and the first maximal element *)

Lemma foldl_min_spec (xs : list Z) (x : Z) :
  foldl Z.min x xs ∈ x :: xs /\ (forall y, y ∈ x :: xs -> foldl Z.min x xs <= y).
Proof.
  revert x. induction xs as [| a xs IH]; intros x; simpl.
  - split; [left |]. intros y Hy. apply list_elem_of_singleton in Hy. lia.
  - destruct (IH (Z.min x a)) as [Hin Hle]. split.
    + apply elem_of_cons in Hin as [Heq | Hin].
      * rewrite Heq. destruct (Z.min_spec x a) as [[_ ->] | [_ ->]];
          [left | right; left].
      * right. right. exact Hin.
    + intros y Hy.
      pose proof (Hle (Z.min x a) ltac:(left)) as Hm.
      apply elem_of_cons in Hy as [-> | Hy]; [lia |].
      apply elem_of_cons in Hy as [-> | Hy]; [lia |].
      apply Hle. right. exact Hy.
Qed.

Lemma foldl_max_spec (xs : list Z) (x : Z) :
  foldl Z.max x xs ∈ x :: xs /\ (forall y, y ∈ x :: xs -> y <= foldl Z.max x xs).
Proof.
  revert x. induction xs as [| a xs IH]; intros x; simpl.
  - split; [left |]. intros y Hy. apply list_elem_of_singleton in Hy. lia.
  - destruct (IH (Z.max x a)) as [Hin Hle]. split.
    + apply elem_of_cons in Hin as [Heq | Hin].
      * rewrite Heq. destruct (Z.max_spec x a) as [[_ ->] | [_ ->]];
          [right; left | left].
      * right. right. exact Hin.
    + intros y Hy.
      pose proof (Hle (Z.max x a) ltac:(left)) as Hm.
      apply elem_of_cons in Hy as [-> | Hy]; [lia |].
      apply elem_of_cons in Hy as [-> | Hy]; [lia |].
      apply Hle. right. exact Hy.
Qed.

Lemma py_min_spec (xs : list Z) :
  xs <> [] ->
  exists m, py_min xs = Some m /\ m ∈ xs /\ (forall y, y ∈ xs -> m <= y).
Proof.
  destruct xs as [| x xs]; [congruence | intros _].
  exists (foldl Z.min x xs). split; [reflexivity | apply foldl_min_spec].
Qed.

Lemma py_max_spec (xs : list Z) :
  xs <> [] ->
  exists m, py_max xs = Some m /\ m ∈ xs /\ (forall y, y ∈ xs -> y <= m).
Proof.
  destruct xs as [| x xs]; [congruence | intros _].
  exists (foldl Z.max x xs). split; [reflexivity | apply foldl_max_spec].
Qed.

(** Python's tuple comparison, as a proposition. *)
Lemma tuple3_ltb_true (a1 a2 a3 b1 b2 b3 : Z) :
  tuple3_ltb (a1, a2, a3) (b1, b2, b3) = true <->
  a1 < b1 \/ (a1 = b1 /\ (a2 < b2 \/ (a2 = b2 /\ a3 < b3))).
Proof.
  unfold tuple3_ltb.
  rewrite !orb_true_iff, !andb_true_iff, !orb_true_iff, !andb_true_iff.
  rewrite !Z.ltb_lt, !Z.eqb_eq. reflexivity.
Qed.

Lemma tuple3_ltb_false (a1 a2 a3 b1 b2 b3 : Z) :
  tuple3_ltb (a1, a2, a3) (b1, b2, b3) = false <->
  b1 < a1 \/ (a1 = b1 /\ (b2 < a2 \/ (a2 = b2 /\ b3 <= a3))).
Proof.
  rewrite <- not_true_iff_false, tuple3_ltb_true. lia.
Qed.

Section MaxBy.
Context {A : Type} (key : A -> Z * Z * Z).

Let pick (best y : A) : A := if tuple3_ltb (key best) (key y) then y else best.

Lemma foldl_max_by_spec (l : list A) (best : A) :
  foldl pick best l ∈ best :: l /\
  (forall y, y ∈ best :: l -> tuple3_ltb (key (foldl pick best l)) (key y) = false).
Proof.
  revert best. induction l as [| a l IH]; intros best; simpl.
  - split; [left |]. intros y Hy. apply list_elem_of_singleton in Hy as ->.
    destruct (key best) as [[k1 k2] k3]. apply tuple3_ltb_false. lia.
  - destruct (IH (pick best a)) as [Hin Hmax]. split.
    + apply elem_of_cons in Hin as [Heq | Hin]; [| right; right; exact Hin].
      rewrite Heq. unfold pick.
      destruct (tuple3_ltb (key best) (key a)); [right; left | left].
    + intros y Hy.
      pose proof (Hmax (pick best a) ltac:(left)) as Hself.
      assert (tuple3_ltb (key (foldl pick (pick best a) l)) (key best) = false
              /\ tuple3_ltb (key (foldl pick (pick best a) l)) (key a) = false)
        as [Hb Ha].
      { set (r := foldl pick (pick best a) l) in *. clearbody r.
        unfold pick in Hself.
        destruct (tuple3_ltb (key best) (key a)) eqn:Hcmp;
          destruct (key r) as [[r1 r2] r3];
          destruct (key best) as [[b1 b2] b3];
          destruct (key a) as [[a1 a2] a3];
          rewrite ?tuple3_ltb_true, ?tuple3_ltb_false in Hcmp;
          rewrite tuple3_ltb_false in Hself;
          rewrite !tuple3_ltb_false; lia. }
      apply elem_of_cons in Hy as [-> | Hy]; [exact Hb |].
      apply elem_of_cons in Hy as [-> | Hy]; [exact Ha |].
      apply Hmax. right. exact Hy.
Qed.

Lemma py_max_by_spec (l : list A) :
  l <> [] ->
  exists r, py_max_by key l = Some r /\ r ∈ l /\
            (forall y, y ∈ l -> tuple3_ltb (key r) (key y) = false).
Proof.
  destruct l as [| x l]; [congruence | intros _].
  eexists. split; [reflexivity |]. apply foldl_max_by_spec.
Qed.

End MaxBy.

(** *** Formation bounds and the bounce *)

Lemma live_fmap_nonempty {B : Type} (f : Z * Z * Z -> B) (enemies : dict) (e : Z * Z * Z) :
  e ∈ enemies -> live e -> f <$> filter live enemies <> [].
Proof.
  intros Hin Hlive Hnil. apply fmap_nil_inv in Hnil.
  assert (e ∈ filter live enemies) as Hf by (apply list_elem_of_filter; auto).
  rewrite Hnil in Hf. inversion Hf.
Qed.

(** With a live enemy in the formation, [enemy_bounds] returns, and its
    first two components are the leftmost and the rightmost column. *)
Lemma enemy_bounds_spec (enemies : dict) (e : Z * Z * Z) :
  e ∈ enemies -> live e ->
  exists min_x max_x min_y max_y,
    enemy_bounds enemies = Some (min_x, max_x, min_y, max_y) /\
    leftmost enemies min_x /\ rightmost enemies max_x.
Proof.
  intros Hin Hlive. unfold enemy_bounds.
  set (fx := fun e : Z * Z * Z => e.1.1). set (fy := fun e : Z * Z * Z => e.1.2).
  destruct (py_min_spec _ (live_fmap_nonempty fx enemies e Hin Hlive))
    as (min_x & -> & Hmin_in & Hmin_le).
  destruct (py_max_spec _ (live_fmap_nonempty fx enemies e Hin Hlive))
    as (max_x & -> & Hmax_in & Hmax_le).
  destruct (py_min_spec _ (live_fmap_nonempty fy enemies e Hin Hlive))
    as (min_y & -> & _).
  destruct (py_max_spec _ (live_fmap_nonempty fy enemies e Hin Hlive))
    as (max_y & -> & _).
  exists min_x, max_x, min_y, max_y. split; [reflexivity |].
  split; split.
  - apply list_elem_of_fmap in Hmin_in as (e1 & -> & He1).
    apply list_elem_of_filter in He1 as [Hl1 He1]. exists e1. auto.
  - intros e1 He1 Hl1. apply Hmin_le.
    apply (list_elem_of_fmap_2 fx). apply list_elem_of_filter. auto.
  - apply list_elem_of_fmap in Hmax_in as (e1 & -> & He1).
    apply list_elem_of_filter in He1 as [Hl1 He1]. exists e1. auto.
  - intros e1 He1 Hl1. apply Hmax_le.
    apply (list_elem_of_fmap_2 fx). apply list_elem_of_filter. auto.
Qed.

(** Every entry of a formation that satisfies its invariant is live. *)
Lemma formation_ok_live (enemies : dict) (e : Z * Z * Z) :
  formation_ok enemies -> e ∈ enemies -> live e.
Proof.
  intros [_ Hhp] Hin. rewrite Forall_forall in Hhp.
  specialize (Hhp e Hin). unfold live. lia.
Qed.

Lemma nonempty_elem {B : Type} (l : list B) : l <> [] -> exists x, x ∈ l.
Proof. destruct l as [| x l]; [congruence |]. intros _. exists x. left. Qed.

(** C4: for a non-empty formation and a direction of one column to the
    left or to the right, a formation step reverses the direction exactly
    when one more column in the current direction would take the leftmost
    or the rightmost live enemy (equivalently, some live enemy) off the
    field; a reversal comes with a descent of one row and no horizontal
    move, and a step without reversal moves the anchor one column in the
    current direction without descent. *)
Theorem step_enemy_formation_bounce_and_drop
    (enemies : dict) (width formation_x formation_y direction : Z) :
  enemies <> [] -> formation_ok enemies ->
  direction = 1 \/ direction = -1 ->
  exists min_x max_x formation_x' formation_y' direction',
    leftmost enemies min_x /\ rightmost enemies max_x /\
    step_enemy_formation enemies width formation_x formation_y direction
      = Some (formation_x', formation_y', direction') /\
    (direction' = - direction <->
       ~ on_field width (formation_x + min_x + direction) \/
       ~ on_field width (formation_x + max_x + direction)) /\
    (direction' = - direction <->
       exists e, e ∈ enemies /\ live e /\
                 ~ on_field width (formation_x + e.1.1 + direction)) /\
    (direction' = - direction ->
       formation_x' = formation_x /\ formation_y' = formation_y + 1) /\
    (direction' <> - direction ->
       direction' = direction /\ formation_x' = formation_x + direction /\
       formation_y' = formation_y).
Proof.
  intros Hne Hok Hdir.
  destruct (nonempty_elem _ Hne) as [e0 He0].
  pose proof (formation_ok_live _ _ Hok He0) as Hl0.
  destruct (enemy_bounds_spec enemies e0 He0 Hl0)
    as (min_x & max_x & min_y & max_y & Hb & Hleft & Hright).
  pose proof Hleft as [(el & Hel & Hll & Hlx) Hmin].
  pose proof Hright as [(er & Her & Hlr & Hrx) Hmax].
  assert (min_x <= max_x) as Hmm by (rewrite <- Hlx; apply Hmax; assumption).
  set (bounce := (formation_x + max_x + direction >=? width)
                 || (formation_x + min_x + direction <? 0)).
  assert (bounce = true <->
          ~ on_field width (formation_x + min_x + direction) \/
          ~ on_field width (formation_x + max_x + direction)) as Hbounce.
  { unfold bounce, on_field. rewrite orb_true_iff, Z.geb_le, Z.ltb_lt. lia. }
  assert ((~ on_field width (formation_x + min_x + direction) \/
           ~ on_field width (formation_x + max_x + direction)) <->
          exists e, e ∈ enemies /\ live e /\
                    ~ on_field width (formation_x + e.1.1 + direction)) as Hany.
  { split.
    - intros [H | H]; [exists el | exists er]; repeat split; try assumption;
        [rewrite Hlx | rewrite Hrx]; exact H.
    - intros (e & He & Hl & Hoff).
      pose proof (Hmin e He Hl). pose proof (Hmax e He Hl).
      unfold on_field in *. lia. }
  assert (step_enemy_formation enemies width formation_x formation_y direction
          = if bounce then Some (formation_x, formation_y + 1, direction * -1)
            else Some (formation_x + direction, formation_y, direction)) as Hstep.
  { unfold step_enemy_formation. destruct enemies; [congruence |].
    rewrite Hb. reflexivity. }
  destruct bounce eqn:Hbe.
  - exists min_x, max_x, formation_x, (formation_y + 1), (direction * -1).
    assert (~ on_field width (formation_x + min_x + direction) \/
            ~ on_field width (formation_x + max_x + direction)) as Hyes
      by (apply Hbounce; reflexivity).
    split; [exact Hleft |]. split; [exact Hright |]. split; [exact Hstep |].
    split; [split; [intros _; exact Hyes | intros _; lia] |].
    split; [split; [intros _; apply Hany, Hyes | intros _; lia] |].
    split; [intros _; split; reflexivity | intros Hd; lia].
  - exists min_x, max_x, (formation_x + direction), formation_y, direction.
    assert (~ (~ on_field width (formation_x + min_x + direction) \/
               ~ on_field width (formation_x + max_x + direction))) as Hno.
    { rewrite <- Hbounce. discriminate. }
    split; [exact Hleft |]. split; [exact Hright |]. split; [exact Hstep |].
    split; [split; [intros Hd; lia | intros H; contradiction] |].
    split; [split; [intros Hd; lia | intros H; apply Hany in H; contradiction] |].
    split; [intros Hd; lia | intros _; repeat split].
Qed.

(** A witness for C4: two enemies on a field of four columns, the right
    one already in the last column. *)
Lemma step_enemy_formation_bounce_and_drop_witness :
  exists min_x max_x formation_x' formation_y' direction',
    leftmost [((0, 0), 2); ((2, 1), 1)] min_x /\
    rightmost [((0, 0), 2); ((2, 1), 1)] max_x /\
    step_enemy_formation [((0, 0), 2); ((2, 1), 1)] 4 1 2 1
      = Some (formation_x', formation_y', direction') /\
    (direction' = - 1 <->
       ~ on_field 4 (1 + min_x + 1) \/ ~ on_field 4 (1 + max_x + 1)) /\
    (direction' = - 1 <->
       exists e, e ∈ [((0, 0), 2); ((2, 1), 1)] /\ live e /\
                 ~ on_field 4 (1 + e.1.1 + 1)) /\
    (direction' = - 1 -> formation_x' = 1 /\ formation_y' = 2 + 1) /\
    (direction' <> - 1 ->
       direction' = 1 /\ formation_x' = 1 + 1 /\ formation_y' = 2).
Proof.
  apply (step_enemy_formation_bounce_and_drop [((0, 0), 2); ((2, 1), 1)] 4 1 2 1).
  - discriminate.
  - apply (bool_decide_unpack _). vm_compute. reflexivity.
  - left. reflexivity.
Defined.

(** *** Targeting *)

(** With a live enemy in the formation, [pick_target_column] returns the
    column of a live enemy that is at least as urgent as every live one. *)
Lemma pick_target_column_live (enemies : dict)
    (formation_x formation_y ship_x : Z) (e0 : Z * Z * Z) :
  e0 ∈ enemies -> live e0 ->
  exists e, e ∈ enemies /\ live e /\
    pick_target_column enemies formation_x formation_y ship_x
      = Some (formation_x + e.1.1) /\
    forall e', e' ∈ enemies -> live e' ->
               at_least_as_urgent formation_x formation_y ship_x e e'.
Proof.
  intros Hin0 Hl0. unfold pick_target_column, candidates.
  set (abs_pos := fun e : Z * Z * Z =>
                    (formation_x + e.1.1, formation_y + e.1.2, e.2)).
  destruct (py_max_by_spec (target_key ship_x) (abs_pos <$> filter live enemies)
              (live_fmap_nonempty abs_pos enemies e0 Hin0 Hl0))
    as (r & -> & Hr & Hmax).
  apply list_elem_of_fmap in Hr as (e & -> & He).
  apply list_elem_of_filter in He as [Hl He].
  exists e. split; [exact He |]. split; [exact Hl |]. split; [reflexivity |].
  intros e' He' Hl'.
  specialize (Hmax (abs_pos e')).
  assert (abs_pos e' ∈ abs_pos <$> filter live enemies) as Hc.
  { apply list_elem_of_fmap_2. apply list_elem_of_filter. auto. }
  specialize (Hmax Hc). unfold abs_pos, target_key in Hmax.
  apply tuple3_ltb_false in Hmax.
  unfold at_least_as_urgent. lia.
Qed.

(** C1: for a non-empty formation, any anchor and any ship column, the
    target column is the absolute column of an enemy that is maximal for
    the key (absolute row, minus the horizontal distance to the ship, hit
    points) compared lexicographically: no enemy is lower, none in its row
    is nearer to the ship, and none in its row and at its distance has
    more hit points. *)
Theorem pick_target_column_most_urgent (enemies : dict)
    (formation_x formation_y ship_x : Z) :
  enemies <> [] -> formation_ok enemies ->
  exists e, e ∈ enemies /\
    pick_target_column enemies formation_x formation_y ship_x
      = Some (formation_x + e.1.1) /\
    forall e', e' ∈ enemies ->
               at_least_as_urgent formation_x formation_y ship_x e e'.
Proof.
  intros Hne Hok.
  destruct (nonempty_elem _ Hne) as [e0 He0].
  destruct (pick_target_column_live enemies formation_x formation_y ship_x e0
              He0 (formation_ok_live _ _ Hok He0))
    as (e & He & _ & Hpick & Hmax).
  exists e. split; [exact He |]. split; [exact Hpick |].
  intros e' He'. apply Hmax; [exact He' |].
  exact (formation_ok_live _ _ Hok He').
Qed.

(** A witness for C1: three enemies in the lowest row, two of them at
    distance one from the ship, the one with more hit points wins. *)
Lemma pick_target_column_most_urgent_witness :
  exists e, e ∈ [((0, 0), 4); ((1, 1), 1); ((3, 1), 2); ((5, 1), 4)] /\
    pick_target_column [((0, 0), 4); ((1, 1), 1); ((3, 1), 2); ((5, 1), 4)] 1 2 3
      = Some (1 + e.1.1) /\
    forall e', e' ∈ [((0, 0), 4); ((1, 1), 1); ((3, 1), 2); ((5, 1), 4)] ->
               at_least_as_urgent 1 2 3 e e'.
Proof.
  apply (pick_target_column_most_urgent
           [((0, 0), 4); ((1, 1), 1); ((3, 1), 2); ((5, 1), 4)] 1 2 3).
  - discriminate.
  - apply (bool_decide_unpack _). vm_compute. reflexivity.
Defined.

Example pick_target_column_tie_on_hit_points :
  pick_target_column [((0, 0), 4); ((1, 1), 1); ((3, 1), 2); ((5, 1), 4)] 1 2 3
  = Some 4.
Proof. reflexivity. Qed.

(** *** Dictionaries *)

Lemma coord_eqb_eq (a b : Z * Z) : coord_eqb a b = true <-> a = b.
Proof.
  destruct a as [a1 a2], b as [b1 b2]. unfold coord_eqb. simpl.
  rewrite andb_true_iff, !Z.eqb_eq. split; [intros [-> ->] | intros [= -> ->]]; auto.
Qed.

Lemma coord_eqb_neq (a b : Z * Z) : coord_eqb a b = false <-> a <> b.
Proof. rewrite <- not_true_iff_false, coord_eqb_eq. reflexivity. Qed.

Ltac case_key k k' :=
  let E := fresh "Ekey" in
  destruct (coord_eqb k k') eqn:E;
  [apply coord_eqb_eq in E | apply coord_eqb_neq in E].

Lemma dict_get_None (k : Z * Z) (d : dict) :
  dict_get k d = None <-> k ∉ fst <$> d.
Proof.
  induction d as [| [k' v] d IH]; simpl.
  - split; [intros _ H; inversion H | reflexivity].
  - rewrite not_elem_of_cons. case_key k k'.
    + split; [discriminate | intros [H _]; contradiction].
    + rewrite IH. tauto.
Qed.

Lemma dict_get_Some_elem (k : Z * Z) (v : Z) (d : dict) :
  dict_get k d = Some v -> (k, v) ∈ d.
Proof.
  induction d as [| [k' v'] d IH]; simpl; [discriminate |].
  case_key k k'.
  - intros [= ->]. subst k'. left.
  - intros H. right. auto.
Qed.

Lemma dict_get_set_eq (k : Z * Z) (v : Z) (d : dict) :
  dict_get k (dict_set k v d) = Some v.
Proof.
  induction d as [| [k' v'] d IH]; simpl.
  - case_key k k; [reflexivity | congruence].
  - case_key k k'; simpl.
    + subst k'. case_key k k; [reflexivity | congruence].
    + case_key k k'; [congruence | exact IH].
Qed.

Lemma dict_get_set_ne (k c : Z * Z) (v : Z) (d : dict) :
  c <> k -> dict_get c (dict_set k v d) = dict_get c d.
Proof.
  intros Hne. induction d as [| [k' v'] d IH]; simpl.
  - case_key c k; [congruence | reflexivity].
  - case_key k k'; simpl.
    + subst k'. case_key c k; [congruence | reflexivity].
    + case_key c k'; [reflexivity | exact IH].
Qed.

Lemma dict_set_keys (k : Z * Z) (v hp : Z) (d : dict) :
  dict_get k d = Some hp -> fst <$> dict_set k v d = fst <$> d.
Proof.
  induction d as [| [k' v'] d IH]; simpl; [discriminate |].
  case_key k k'; rewrite !fmap_cons; [reflexivity |].
  intros H. rewrite (IH H). reflexivity.
Qed.

Lemma dict_del_set (k : Z * Z) (v : Z) (d : dict) :
  is_Some (dict_get k d) -> dict_del k (dict_set k v d) = dict_del k d.
Proof.
  induction d as [| [k' v'] d IH]; simpl; [intros [? [=]] |].
  case_key k k'; simpl.
  - subst k'. case_key k k; [reflexivity | congruence].
  - intros H. case_key k k'; [congruence |]. rewrite (IH H). reflexivity.
Qed.

Lemma dict_del_keys_subset (k c : Z * Z) (d : dict) :
  c ∈ fst <$> dict_del k d -> c ∈ fst <$> d.
Proof.
  induction d as [| [k' v'] d IH]; simpl; [auto |].
  case_key k k'; simpl.
  - intros H. right. exact H.
  - rewrite !elem_of_cons. intros [-> | H]; [left; reflexivity | right; auto].
Qed.

Lemma dict_del_NoDup (k : Z * Z) (d : dict) :
  NoDup (fst <$> d) -> NoDup (fst <$> dict_del k d).
Proof.
  induction d as [| [k' v'] d IH]; simpl; [auto |].
  rewrite NoDup_cons. intros [Hnin Hnd].
  case_key k k'; simpl; [exact Hnd |].
  apply NoDup_cons. split; [| auto].
  intros H. apply Hnin. eapply dict_del_keys_subset. exact H.
Qed.

Lemma dict_get_del_eq (k : Z * Z) (d : dict) :
  NoDup (fst <$> d) -> dict_get k (dict_del k d) = None.
Proof.
  induction d as [| [k' v'] d IH]; simpl; [reflexivity |].
  rewrite NoDup_cons. intros [Hnin Hnd].
  case_key k k'; simpl.
  - subst k'. apply dict_get_None. exact Hnin.
  - case_key k k'; [congruence | auto].
Qed.

Lemma dict_get_del_ne (k c : Z * Z) (d : dict) :
  c <> k -> dict_get c (dict_del k d) = dict_get c d.
Proof.
  intros Hne. induction d as [| [k' v'] d IH]; simpl; [reflexivity |].
  case_key k k'; simpl.
  - subst k'. case_key c k; [congruence | reflexivity].
  - case_key c k'; [reflexivity | exact IH].
Qed.

Lemma dict_del_Forall (P : Z * Z * Z -> Prop) (k : Z * Z) (d : dict) :
  Forall P d -> Forall P (dict_del k d).
Proof.
  induction d as [| [k' v'] d IH]; simpl; [auto |].
  rewrite Forall_cons. intros [Hp Hd].
  case_key k k'; [exact Hd |]. apply Forall_cons. auto.
Qed.

Lemma dict_set_Forall (Q : Z -> Prop) (k : Z * Z) (v : Z) (d : dict) :
  Forall (fun e : Z * Z * Z => Q e.2) d -> Q v ->
  Forall (fun e : Z * Z * Z => Q e.2) (dict_set k v d).
Proof.
  intros Hd Hv. induction d as [| [k' v'] d IH]; simpl.
  - repeat constructor. exact Hv.
  - apply Forall_cons in Hd as [Hp Hd].
    case_key k k'; apply Forall_cons; auto.
Qed.

Lemma after_hit_ok (rel : Z * Z) (hp : Z) (enemies : dict) :
  formation_ok enemies -> dict_get rel enemies = Some hp ->
  formation_ok (after_hit rel hp enemies).
Proof.
  intros [Hnd Hhp] Hget. unfold after_hit.
  assert (1 <= hp <= 4) as Hr.
  { apply dict_get_Some_elem in Hget. rewrite Forall_forall in Hhp.
    exact (Hhp _ Hget). }
  destruct (Z.leb_spec (hp - 1) 0).
  - rewrite dict_del_set by (rewrite Hget; eauto). split.
    + apply dict_del_NoDup. exact Hnd.
    + apply dict_del_Forall. exact Hhp.
  - split.
    + rewrite (dict_set_keys rel (hp - 1) hp) by exact Hget. exact Hnd.
    + apply (dict_set_Forall (fun v => 1 <= v <= 4)); [exact Hhp | lia].
Qed.

Lemma after_hit_get_eq (rel : Z * Z) (hp : Z) (enemies : dict) :
  NoDup (fst <$> enemies) -> dict_get rel enemies = Some hp -> 0 < hp ->
  dict_get rel (after_hit rel hp enemies) = (if hp =? 1 then None else Some (hp - 1)).
Proof.
  intros Hnd Hget Hpos. unfold after_hit.
  destruct (Z.leb_spec (hp - 1) 0); destruct (Z.eqb_spec hp 1); try lia.
  - rewrite dict_del_set by (rewrite Hget; eauto). apply dict_get_del_eq. exact Hnd.
  - apply dict_get_set_eq.
Qed.

Lemma after_hit_get_ne (rel c : Z * Z) (hp : Z) (enemies : dict) :
  c <> rel -> dict_get c (after_hit rel hp enemies) = dict_get c enemies.
Proof.
  intros Hne. unfold after_hit. destruct (hp - 1 <=? 0).
  - rewrite dict_get_del_ne by exact Hne. apply dict_get_set_ne. exact Hne.
  - apply dict_get_set_ne. exact Hne.
Qed.

(** *** Bullets *)

Lemma not_occupied_get (enemies : dict) (k : Z * Z) :
  ~ occupied enemies k <->
  dict_get k enemies = None \/ exists hp, dict_get k enemies = Some hp /\ hp <= 0.
Proof.
  unfold occupied. destruct (dict_get k enemies) as [hp |].
  - split.
    + intros H. right. exists hp. split; [reflexivity |].
      destruct (Z_lt_le_dec 0 hp); [exfalso; eauto | assumption].
    + intros [[=] | (hp' & [= <-] & Hle)] (hp'' & [= <-] & Hlt). lia.
  - split; [auto | intros _ (hp & [=] & _)].
Qed.

(** An outcome for the bullet one row up, within [speed] rows, is an
    outcome for the bullet within [speed + 1] rows when the row in between
    is on the field and free. *)
Lemma bullet_outcome_shift (speed fx fy : Z) (b : Bullet) (enemies enemies' : dict)
    (o : option Bullet) :
  0 <= speed -> 0 <= bullet_y b - 1 ->
  ~ occupied enemies (cell_under fx fy b (bullet_y b - 1)) ->
  bullet_outcome speed fx fy (mkBullet (bullet_x b) (bullet_y b - 1)) enemies o enemies' ->
  bullet_outcome (speed + 1) fx fy b enemies o enemies'.
Proof.
  intros Hs Hy Hfree H.
  assert (forall j, cell_under fx fy (mkBullet (bullet_x b) (bullet_y b - 1))
                      (bullet_y b - 1 - j)
                    = cell_under fx fy b (bullet_y b - (j + 1))) as Hcell.
  { intros j. unfold cell_under. simpl. f_equal. lia. }
  assert (forall k : Z,
             (forall j, 1 <= j < k ->
                ~ occupied enemies
                    (cell_under fx fy (mkBullet (bullet_x b) (bullet_y b - 1))
                       (bullet_y b - 1 - j))) ->
             forall j, 1 <= j < k + 1 ->
                ~ occupied enemies (cell_under fx fy b (bullet_y b - j))) as Hfrees.
  { intros k Hk j Hj. destruct (Z.eq_dec j 1) as [-> | Hne]; [exact Hfree |].
    replace j with (j - 1 + 1) by lia. rewrite <- Hcell. apply Hk. lia. }
  inversion H as [Hin Hnone | k Hk Hout Hnone | k hp e' Hk Hin Hnone target Hget Hpos Hget' Hother];
    subst; simpl in *.
  - replace (bullet_y b - 1 - speed) with (bullet_y b - (speed + 1)) by lia.
    apply flies_on; [lia |].
    intros j Hj. apply (Hfrees (speed + 1)); [| lia].
    intros i Hi. apply Hnone. lia.
  - apply (leaves_top _ _ _ _ _ (k + 1)); [lia | lia |].
    intros j Hj. split.
    + destruct (Z.eq_dec j 1) as [-> | Hne]; [exact Hy |].
      destruct (Hnone (j - 1) ltac:(lia)) as [Hge _]. lia.
    + apply (Hfrees k); [| lia].
      intros i Hi. apply Hnone. exact Hi.
  - unfold target in *. rewrite Hcell in *.
    apply (hits _ _ _ _ _ (k + 1) hp); try assumption; try lia.
    apply (Hfrees k). exact Hnone.
Qed.

(** The inner loop does to a bullet what the specification says, for any
    number of rows. *)
Lemma advance_bullet_spec (n : nat) (b : Bullet) (enemies : dict) (fx fy : Z) :
  NoDup (fst <$> enemies) -> 0 <= bullet_y b \/ n <> 0%nat ->
  bullet_outcome (Z.of_nat n) fx fy b enemies
    (if (advance_bullet n b enemies fx fy).1.1 then None
     else Some (advance_bullet n b enemies fx fy).1.2)
    (advance_bullet n b enemies fx fy).2.
Proof.
  intros Hnd. revert b. induction n as [| n IH]; intros b Hb.
  - destruct Hb as [Hb | Hb]; [| congruence]. simpl.
    destruct b as [x y]. simpl in *.
    replace y with (y - 0) at 2 by lia.
    apply (flies_on 0 fx fy (mkBullet x y)); simpl; lia.
  - rewrite Nat2Z.inj_succ. unfold Z.succ.
    cbn [advance_bullet bullet_x bullet_y].
    destruct (Z.ltb_spec (bullet_y b - 1) 0) as [Hout | Hin].
    { simpl. apply (leaves_top _ _ _ _ _ 1); lia. }
    fold (cell_under fx fy b (bullet_y b - 1)).
    destruct (dict_get (cell_under fx fy b (bullet_y b - 1)) enemies)
      as [hp |] eqn:Hget.
    + destruct (Z.ltb_spec 0 hp) as [Hpos | Hnonpos].
      * cbn [fst snd]. fold (after_hit (cell_under fx fy b (bullet_y b - 1)) hp enemies).
        apply (hits _ _ _ _ _ 1 hp);
          [lia | lia | lia | exact Hget | exact Hpos | |].
        -- apply after_hit_get_eq; assumption.
        -- intros c Hc. apply after_hit_get_ne. exact Hc.
      * apply bullet_outcome_shift; [lia | lia | | apply IH; left; simpl; lia].
        apply not_occupied_get. right. exists hp. split; [exact Hget | lia].
    + apply bullet_outcome_shift; [lia | lia | | apply IH; left; simpl; lia].
      apply not_occupied_get. left. exact Hget.
Qed.

Lemma advance_bullet_ok (n : nat) (b : Bullet) (enemies : dict) (fx fy : Z) :
  formation_ok enemies -> formation_ok (advance_bullet n b enemies fx fy).2.
Proof.
  intros Hok. revert b. induction n as [| n IH]; intros b; [exact Hok |].
  cbn [advance_bullet bullet_x bullet_y].
  destruct (bullet_y b - 1 <? 0); [exact Hok |].
  destruct (dict_get _ enemies) as [hp |] eqn:Hget; [| apply IH].
  destruct (0 <? hp); [| apply IH].
  cbn [snd]. fold (after_hit (bullet_x b - fx, bullet_y b - 1 - fy) hp enemies).
  apply after_hit_ok; assumption.
Qed.

(** The outer loop appends the bullets that fly on to the ones kept so
    far, and resolves the bullets in order. *)
Lemma move_bullets_loop_spec (bullets : list Bullet) (enemies : dict)
    (fx fy speed : Z) (kept : list Bullet) :
  1 <= speed -> formation_ok enemies ->
  exists next enemies',
    move_bullets_loop bullets enemies fx fy speed kept = (kept ++ next, enemies') /\
    tick_outcome speed fx fy bullets enemies next enemies' /\
    formation_ok enemies'.
Proof.
  intros Hs. revert enemies kept.
  induction bullets as [| b bullets IH]; intros enemies kept Hok.
  - exists [], enemies. simpl. rewrite app_nil_r.
    split; [reflexivity |]. split; [constructor | exact Hok].
  - pose proof (advance_bullet_spec (Z.to_nat speed) b enemies fx fy
                  (proj1 Hok) ltac:(right; lia)) as Hout.
    pose proof (advance_bullet_ok (Z.to_nat speed) b enemies fx fy Hok) as Hok1.
    rewrite Z2Nat.id in Hout by lia.
    cbn [move_bullets_loop].
    destruct (advance_bullet (Z.to_nat speed) b enemies fx fy)
      as [[destroyed b'] e1]. cbn [fst snd] in Hout, Hok1.
    destruct destroyed.
    + destruct (IH e1 kept Hok1) as (next & e2 & Heq & Htick & Hok2).
      exists next, e2. split; [exact Heq |]. split; [| exact Hok2].
      eapply tick_gone; eassumption.
    + destruct (IH e1 (kept ++ [b']) Hok1) as (next & e2 & Heq & Htick & Hok2).
      exists (b' :: next), e2. split.
      * rewrite Heq. rewrite <- app_assoc. reflexivity.
      * split; [| exact Hok2]. eapply tick_kept; eassumption.
Qed.

(** C2: with a bullet speed of at least one and a formation that satisfies
    its invariant, a tick resolves the bullets one after the other, each
    rising at most [bullet_speed] rows, one row at a time: a bullet that
    comes above row 0 is destroyed; a bullet that comes onto the cell of a
    live enemy takes one hit point from that enemy and no other, is
    destroyed whether or not the enemy dies, and the enemy's entry is
    removed at zero; no bullet hits twice.  The formation after the tick
    satisfies the invariant again: every value is in 1..4. *)
Theorem move_bullets_and_apply_hits_resolves (bullets : list Bullet)
    (enemies : dict) (formation_x formation_y bullet_speed : Z) :
  1 <= bullet_speed -> formation_ok enemies ->
  exists next_bullets enemies',
    move_bullets_and_apply_hits bullets enemies formation_x formation_y bullet_speed
      = (next_bullets, enemies') /\
    tick_outcome bullet_speed formation_x formation_y
      bullets enemies next_bullets enemies' /\
    formation_ok enemies'.
Proof.
  intros Hs Hok. unfold move_bullets_and_apply_hits.
  destruct (move_bullets_loop_spec bullets enemies formation_x formation_y
              bullet_speed [] Hs Hok) as (next & e' & Heq & Htick & Hok').
  exists next, e'. auto.
Qed.

(** A witness for C2: three bullets under a formation of two enemies, at
    speed two; the first kills an enemy with one hit point, the second
    flies on, the third leaves the field. *)
Lemma move_bullets_and_apply_hits_resolves_witness :
  exists next_bullets enemies',
    move_bullets_and_apply_hits
      [mkBullet 1 4; mkBullet 1 5; mkBullet 3 1] [((0, 0), 1); ((2, 0), 3)] 1 2 2
      = (next_bullets, enemies') /\
    tick_outcome 2 1 2
      [mkBullet 1 4; mkBullet 1 5; mkBullet 3 1] [((0, 0), 1); ((2, 0), 3)]
      next_bullets enemies' /\
    formation_ok enemies'.
Proof.
  apply (move_bullets_and_apply_hits_resolves
           [mkBullet 1 4; mkBullet 1 5; mkBullet 3 1] [((0, 0), 1); ((2, 0), 3)] 1 2 2).
  - lia.
  - apply (bool_decide_unpack _). vm_compute. reflexivity.
Defined.

Example move_bullets_and_apply_hits_run :
  move_bullets_and_apply_hits
    [mkBullet 1 4; mkBullet 1 5; mkBullet 3 1] [((0, 0), 1); ((2, 0), 3)] 1 2 2
  = ([mkBullet 1 3], [((2, 0), 3)]).
Proof. reflexivity. Qed.

(** *** The invariant of the formation over a run *)

Lemma build_row_keys (y x : Z) (row : list Z) (k : Z * Z) :
  k ∈ fst <$> build_row y x row -> x <= k.1 /\ k.2 = y.
Proof.
  revert x. induction row as [| level row IH]; intros x; simpl.
  - intros H. inversion H.
  - rewrite fmap_app, elem_of_app. intros [H | H].
    + destruct (0 <? level); simpl in H; [| inversion H].
      apply list_elem_of_singleton in H as ->. simpl. lia.
    + apply IH in H. lia.
Qed.

Lemma build_rows_keys (y : Z) (g : list (list Z)) (k : Z * Z) :
  k ∈ fst <$> build_rows y g -> y <= k.2.
Proof.
  revert y. induction g as [| row g IH]; intros y; simpl.
  - intros H. inversion H.
  - rewrite fmap_app, elem_of_app. intros [H | H].
    + apply build_row_keys in H. lia.
    + apply IH in H. lia.
Qed.

Lemma build_row_ok (y x : Z) (row : list Z) :
  Forall (fun v => 0 <= v <= 4) row -> formation_ok (build_row y x row).
Proof.
  revert x. induction row as [| level row IH]; intros x Hrow; simpl.
  - split; constructor.
  - apply Forall_cons in Hrow as [Hlevel Hrow].
    destruct (IH (x + 1) Hrow) as [Hnd Hhp].
    destruct (Z.ltb_spec 0 level); simpl; [| split; assumption].
    split.
    + apply NoDup_cons. split; [| exact Hnd].
      intros Hin. apply build_row_keys in Hin. simpl in Hin. lia.
    + apply Forall_cons. split; [simpl; lia | exact Hhp].
Qed.

Lemma build_rows_ok (y : Z) (g : list (list Z)) :
  Forall (Forall (fun v => 0 <= v <= 4)) g -> formation_ok (build_rows y g).
Proof.
  revert y. induction g as [| row g IH]; intros y Hg; simpl.
  - split; constructor.
  - apply Forall_cons in Hg as [Hrow Hg].
    destruct (build_row_ok y 0 row Hrow) as [Hnd1 Hhp1].
    destruct (IH (y + 1) Hg) as [Hnd2 Hhp2].
    split.
    + rewrite fmap_app. apply NoDup_app. split; [exact Hnd1 |].
      split; [| exact Hnd2].
      intros k Hk1 Hk2. apply build_row_keys in Hk1.
      apply build_rows_keys in Hk2. lia.
    + apply Forall_app. split; assumption.
Qed.

(** The enemies of a grid with levels in 0..4 satisfy the invariant. *)
Lemma build_enemies_ok (contribution_grid : list (list Z)) :
  Forall (Forall (fun v => 0 <= v <= 4)) contribution_grid ->
  formation_ok (build_enemies contribution_grid).
Proof. apply build_rows_ok. Qed.

(** A pass of the loop changes the formation through the bullets only,
    so the invariant holds after every tick of a run. *)
Lemma loop_body_formation_ok (p : params) (rnd : Z -> draw) (s s' : state) :
  1 <= bullet_speed p -> formation_ok (st_enemies s) ->
  loop_body p rnd s = Some s' -> formation_ok (st_enemies s').
Proof.
  intros Hspeed Hok. unfold loop_body. intros H.
  destruct (retarget _ _ _ _ _ _ _) as [t |]; simpl in H; [| discriminate].
  destruct (if st_cooldown s <=? 0 then _ else _) as [bullets cooldown].
  destruct (move_bullets_loop_spec bullets (st_enemies s) (st_formation_x s)
              (st_formation_y s) (bullet_speed p) [] Hspeed Hok)
    as (next & enemies' & Heq & _ & Hok').
  unfold move_bullets_and_apply_hits in H. rewrite Heq in H.
  destruct (py_mod _ _) as [phase |]; simpl in H; [| discriminate].
  destruct (if (phase =? 0) && _ then _ else _) as [[[fx fy] dir] |];
    simpl in H; [| discriminate].
  injection H as <-. exact Hok'.
Qed.

Lemma run_formation_ok (n : nat) (p : params) (rnd : Z -> draw) (s s' : state) :
  1 <= bullet_speed p -> formation_ok (st_enemies s) ->
  run n p rnd s = Some s' -> formation_ok (st_enemies s').
Proof.
  intros Hspeed. revert s. induction n as [| n IH]; intros s Hok Hrun; simpl in Hrun.
  - injection Hrun as <-. exact Hok.
  - destruct (st_enemies s) eqn:He; [injection Hrun as <-; rewrite He; exact Hok |].
    rewrite <- He in Hok.
    destruct (loop_body p rnd s) as [s1 |] eqn:Hbody; simpl in Hrun; [| discriminate].
    apply (IH s1); [| exact Hrun].
    eapply loop_body_formation_ok; eassumption.
Qed.

(** In every state [generate_gif] stops in, on a grid with levels in
    0..4, the hit points are in 1..4. *)
Lemma generate_gif_formation_ok (contribution_grid : list (list Z))
    (max_ticks : Z) (rnd : Z -> draw) (s : state) :
  Forall (Forall (fun v => 0 <= v <= 4)) contribution_grid ->
  generate_gif contribution_grid max_ticks rnd = Stopped s ->
  formation_ok (st_enemies s).
Proof.
  intros Hgrid. unfold generate_gif.
  pose proof (build_enemies_ok _ Hgrid) as Hok.
  destruct (build_enemies contribution_grid) as [| e es] eqn:Hb; [discriminate |].
  destruct (py_index contribution_grid 0) as [row0 |]; [| discriminate].
  destruct (compute_enemy_move_interval _ _ _) as [interval |];
    [| discriminate].
  match goal with
  | |- context [run ?n ?p ?r ?s0] =>
      destruct (run n p r s0) as [s1 |] eqn:Hrun; [| discriminate];
      intros [= <-];
      apply (run_formation_ok n p r s0 s1); [simpl; lia | exact Hok | exact Hrun]
  end.
Qed.

(** *** The flight of one bullet *)

(** A bullet that the inner loop does not destroy has risen by the whole
    speed, in its column, and is on the field. *)
Lemma advance_bullet_live (n : nat) (b : Bullet) (enemies : dict) (fx fy : Z) :
  (advance_bullet n b enemies fx fy).1.1 = false ->
  (advance_bullet n b enemies fx fy).1.2
    = mkBullet (bullet_x b) (bullet_y b - Z.of_nat n) /\
  (n <> 0%nat -> 0 <= bullet_y b - Z.of_nat n).
Proof.
  revert b. induction n as [| n IH]; intros b.
  - intros _. simpl. destruct b as [x y]. simpl.
    split; [f_equal; lia | congruence].
  - rewrite Nat2Z.inj_succ. unfold Z.succ.
    cbn [advance_bullet bullet_x bullet_y].
    destruct (Z.ltb_spec (bullet_y b - 1) 0) as [Hout | Hin]; [discriminate |].
    assert ((advance_bullet n (mkBullet (bullet_x b) (bullet_y b - 1)) enemies fx fy).1.1
            = false ->
            (advance_bullet n (mkBullet (bullet_x b) (bullet_y b - 1)) enemies fx fy).1.2
            = mkBullet (bullet_x b) (bullet_y b - (Z.of_nat n + 1)) /\
            (S n <> 0%nat -> 0 <= bullet_y b - (Z.of_nat n + 1))) as Hrec.
    { intros Hlive. destruct (IH _ Hlive) as [Heq Hpos]. simpl in Heq, Hpos.
      split; [rewrite Heq; f_equal; lia |].
      intros _. destruct n; [simpl; lia |].
      specialize (Hpos ltac:(congruence)). lia. }
    destruct (dict_get _ enemies) as [hp |]; [| exact Hrec].
    destruct (0 <? hp); [discriminate | exact Hrec].
Qed.

(** While a bullet is on the live list it keeps its column, has risen by
    the speed in every tick, and is on the field after its first tick. *)
Lemma flight_live (speed : Z) (scenes : list scene) (b b' : Bullet) :
  1 <= speed -> flight speed scenes b = Some b' ->
  bullet_x b' = bullet_x b /\
  bullet_y b' = bullet_y b - speed * Z.of_nat (length scenes) /\
  (scenes <> [] -> 0 <= bullet_y b').
Proof.
  intros Hs. revert b. induction scenes as [| sc scenes IH]; intros b Hf.
  - simpl in Hf. injection Hf as <-. simpl. split; [reflexivity |].
    split; [lia | congruence].
  - cbn [flight] in Hf.
    pose proof (advance_bullet_live (Z.to_nat speed) b (sc_enemies sc)
                  (sc_formation_x sc) (sc_formation_y sc)) as Hadv.
    destruct (advance_bullet (Z.to_nat speed) b (sc_enemies sc)
                (sc_formation_x sc) (sc_formation_y sc)) as [[destroyed b1] e1].
    cbn [fst snd] in Hadv. destruct destroyed; [discriminate |].
    destruct (Hadv eq_refl) as [-> Hpos]. rewrite Z2Nat.id in Hpos by lia.
    specialize (Hpos ltac:(lia)).
    destruct (IH _ Hf) as (Hx & Hy & Hfield). simpl in Hx, Hy.
    rewrite Z2Nat.id in Hy by lia.
    split; [exact Hx |]. split.
    + rewrite Hy. rewrite length_cons, Nat2Z.inj_succ. lia.
    + intros _. destruct scenes as [| sc' scenes'].
      * simpl in Hy. lia.
      * apply Hfield. discriminate.
Qed.

(** The bullets a call returns are the bullets it was given that fly on,
    each through a scene of that call. *)
Lemma move_bullets_loop_flight (bullets : list Bullet) (enemies : dict)
    (fx fy speed : Z) (kept : list Bullet) (b' : Bullet) :
  b' ∈ (move_bullets_loop bullets enemies fx fy speed kept).1 ->
  b' ∈ kept \/
  exists b e, b ∈ bullets /\ flight speed [mkScene e fx fy] b = Some b'.
Proof.
  revert enemies kept. induction bullets as [| b bullets IH]; intros enemies kept.
  - simpl. auto.
  - cbn [move_bullets_loop].
    destruct (advance_bullet (Z.to_nat speed) b enemies fx fy)
      as [[destroyed b1] e1] eqn:Hadv.
    intros Hin. apply IH in Hin as [Hin | (b0 & e & Hb0 & Hf)].
    + destruct destroyed; [left; exact Hin |].
      apply elem_of_app in Hin as [Hin | Hin]; [left; exact Hin |].
      apply list_elem_of_singleton in Hin as ->.
      right. exists b, enemies. split; [left |].
      cbn [flight sc_enemies sc_formation_x sc_formation_y].
      rewrite Hadv. reflexivity.
    + right. exists b0, e. split; [right; exact Hb0 | exact Hf].
Qed.

(** C7, as amended: with a bullet speed of at least one, a bullet created
    at a row [startY >= 0] is lower by the speed after every tick it stays
    live, so its row strictly decreases, and it is off the live list
    within [floor(startY / bullet_speed) + 1] ticks of its creation. *)
Theorem bullet_flight_decreases_and_ends (bullet_speed : Z)
    (scenes : list scene) (b : Bullet) :
  1 <= bullet_speed -> 0 <= bullet_y b ->
  (forall sc b', flight bullet_speed [sc] b = Some b' ->
                 bullet_y b' < bullet_y b /\ 0 <= bullet_y b') /\
  (forall b', flight bullet_speed scenes b = Some b' ->
              bullet_y b' = bullet_y b - bullet_speed * Z.of_nat (length scenes)) /\
  (bullet_y b / bullet_speed + 1 <= Z.of_nat (length scenes) ->
   flight bullet_speed scenes b = None).
Proof.
  intros Hs Hy. split; [| split].
  - intros sc b' Hf.
    destruct (flight_live _ _ _ _ Hs Hf) as (_ & Hy' & Hfield).
    simpl in Hy'. split; [lia | apply Hfield; discriminate].
  - intros b' Hf. apply (flight_live _ _ _ _ Hs Hf).
  - intros Hlen. destruct (flight bullet_speed scenes b) as [b' |] eqn:Hf;
      [| reflexivity].
    destruct (flight_live _ _ _ _ Hs Hf) as (_ & Hy' & Hfield).
    assert (scenes <> []) as Hne.
    { intros ->. simpl in Hlen. pose proof (Z.div_pos (bullet_y b) bullet_speed). lia. }
    specialize (Hfield Hne).
    pose proof (Z.mul_succ_div_gt (bullet_y b) bullet_speed ltac:(lia)) as Hdiv.
    nia.
Qed.

(** A witness for the amended C7: a bullet created in row 4, at speed 2,
    over three ticks. *)
Lemma bullet_flight_decreases_and_ends_witness :
  (forall sc b', flight 2 [sc] (mkBullet 0 4) = Some b' ->
                 bullet_y b' < bullet_y (mkBullet 0 4) /\ 0 <= bullet_y b') /\
  (forall b', flight 2 [mkScene [] 0 0; mkScene [] 0 0; mkScene [] 0 0]
                (mkBullet 0 4) = Some b' ->
              bullet_y b' = bullet_y (mkBullet 0 4)
                            - 2 * Z.of_nat (length [mkScene [] 0 0; mkScene [] 0 0; mkScene [] 0 0])) /\
  (bullet_y (mkBullet 0 4) / 2 + 1
     <= Z.of_nat (length [mkScene [] 0 0; mkScene [] 0 0; mkScene [] 0 0]) ->
   flight 2 [mkScene [] 0 0; mkScene [] 0 0; mkScene [] 0 0] (mkBullet 0 4) = None).
Proof.
  apply (bullet_flight_decreases_and_ends 2
           [mkScene [] 0 0; mkScene [] 0 0; mkScene [] 0 0] (mkBullet 0 4)).
  - lia.
  - simpl. lia.
Defined.

(** C7 as the specification states it fails: the bullets of the program
    start in row 34 (a grid of 7 rows puts the ship in row 35) and rise 2
    rows a tick; one that meets no enemy is in row 0, and live, after
    [ceil(34 / 2) = 17] ticks. *)
Lemma bullet_outlives_ceil_bound :
  let scenes := replicate 17 (mkScene [((2, 0), 1)] 1 2) in
  Z.of_nat (length scenes) = ceil_div 34 2 /\
  flight 2 scenes (mkBullet 2 34) = Some (mkBullet 2 0).
Proof. split; reflexivity. Qed.

(** The same bullet in a run of the program: on a grid of 7 rows and 3
    columns with one cell of level 1 in the last row and one in the first,
    the bullet fired in tick 2 is in row 0 after tick 18. *)
Example bullet_in_row_0_after_17_ticks :
  let grid := [[0; 0; 1]; [0; 0; 0]; [0; 0; 0]; [0; 0; 0];
               [0; 0; 0]; [0; 0; 0]; [0; 1; 0]] in
  let rnd := fun _ : Z => mkDraw 0 0 in
  (exists s, generate_gif grid 1 rnd = Stopped s /\ st_bullets s = [mkBullet 2 32]) /\
  (exists s, generate_gif grid 2 rnd = Stopped s /\
             st_bullets s = [mkBullet 2 30; mkBullet 2 32]) /\
  (exists s, generate_gif grid 18 rnd = Stopped s /\
             head (st_bullets s) = Some (mkBullet 2 0)).
Proof.
  repeat split; eexists; (split; [vm_compute; reflexivity | reflexivity]).
Qed.

(** *** The move interval *)

(** The interval on integers: the estimate truncated and the quotient
    rounded up. *)
Lemma ceiling_quotient (est d : Z) :
  0 < d -> Qceiling (inject_Z est / inject_Z d) = - (- est / d).
Proof.
  intros Hd. destruct d as [| d | d]; try lia.
  unfold Qceiling, Qfloor. simpl.
  rewrite Z.mul_1_r, Pos.mul_1_l. reflexivity.
Qed.

(** C5, as amended: for [0 <= total_hp <= 2^40], [1 <= width <= 2^40]
    and [max_descents >= 1] the move interval is
    [clamp(ceil(est / (width * max_descents)), 28, 180)] where [est] is
    [total_hp * 1.3 + width * 6] rounded down to an integer: the estimate
    is truncated before it is divided.  Below [2^40] the roundings of the
    float operations do not show in the result. *)
Theorem compute_enemy_move_interval_truncates (total_hp width max_descents : Z) :
  0 <= total_hp <= 2 ^ 40 -> 1 <= width <= 2 ^ 40 -> 1 <= max_descents ->
  exists est raw,
    10 * est <= 13 * total_hp + 60 * width < 10 * est + 10 /\
    (raw - 1) * (width * max_descents) < est <= raw * (width * max_descents) /\
    compute_enemy_move_interval total_hp width max_descents
      = Some (Z.max 28 (Z.min 180 raw)).
Proof.
  intros Hhp Hw Hm.
  rewrite FloatSpec.compute_enemy_move_interval_exact by lia.
  set (est := (13 * total_hp + 60 * width) / 10).
  assert (0 < width * max_descents) as Hd by nia.
  rewrite (Z.max_r 1 (width * max_descents)) by lia.
  rewrite ceiling_quotient by exact Hd.
  exists est. eexists. split.
  { unfold est.
    pose proof (Z.div_mod (13 * total_hp + 60 * width) 10 ltac:(lia)).
    pose proof (Z.mod_pos_bound (13 * total_hp + 60 * width) 10 ltac:(lia)). lia. }
  split; [| reflexivity].
  pose proof (Z.div_mod (- est) (width * max_descents) ltac:(lia)).
  pose proof (Z.mod_pos_bound (- est) (width * max_descents) ltac:(lia)). nia.
Qed.

(** A witness for the amended C5: 17 hit points on a field one column
    wide with one descent. *)
Lemma compute_enemy_move_interval_truncates_witness :
  exists est raw,
    10 * est <= 13 * 17 + 60 * 1 < 10 * est + 10 /\
    (raw - 1) * (1 * 1) < est <= raw * (1 * 1) /\
    compute_enemy_move_interval 17 1 1 = Some (Z.max 28 (Z.min 180 raw)).
Proof.
  apply (compute_enemy_move_interval_truncates 17 1 1); lia.
Defined.

(** C5 as the specification states it fails: for 17 hit points, width 1
    and one descent the exact quotient is 28.1, whose ceiling is 29, while
    the code truncates 28.1 to 28 first and returns 28. *)
Lemma compute_enemy_move_interval_not_exact_ceiling :
  compute_enemy_move_interval 17 1 1 = Some 28 /\
  spec_move_interval 17 1 1 = 29.
Proof. split; vm_compute; reflexivity. Qed.

(** Above the lower clamp as well: 187 hit points, width 3, 3 descents
    give an estimate of 261.1, truncated to 261 = 9 * 29. *)
Example compute_enemy_move_interval_187_3_3 :
  compute_enemy_move_interval 187 3 3 = Some 29 /\
  spec_move_interval 187 3 3 = 30.
Proof. split; vm_compute; reflexivity. Qed.

(** Far above [2^40] the roundings do show.  For these operands the
    exact estimate is 575348428949018.9, truncated to 29 times the
    width, but the product is rounded to a multiple of 1/16 and the sum
    to a multiple of 1/8, which lifts it to 575348428949019: the code
    returns 30.  In the second case the estimate comes out too low and
    the code returns 136, not 137. *)
Example compute_enemy_move_interval_rounds :
  compute_enemy_move_interval 351008325353513 19839600998242 1 = Some 30 /\
  (13 * 351008325353513 + 60 * 19839600998242) / 10 = 29 * 19839600998242 /\
  compute_enemy_move_interval 100000000000000007 1000000000000000 1 = Some 136 /\
  - (- ((13 * 100000000000000007 + 60 * 1000000000000000) / 10)
     / 1000000000000000) = 137.
Proof. repeat split; vm_compute; reflexivity. Qed.

(** An [int] too large for a double makes the call raise
    [OverflowError]; the largest doubles are still divided and clamped. *)
Example compute_enemy_move_interval_overflow :
  compute_enemy_move_interval (2 ^ 1024) 1 1 = None /\
  compute_enemy_move_interval 1 (2 ^ 1024) 1 = None /\
  compute_enemy_move_interval (2 ^ 1023) 1 1 = Some 180.
Proof. repeat split; vm_compute; reflexivity. Qed.

(** The truncation costs at most one tick: below [2^40] the code's
    interval is the specification's or one less. *)
Lemma compute_enemy_move_interval_close (total_hp width max_descents : Z) :
  0 <= total_hp <= 2 ^ 40 -> 1 <= width <= 2 ^ 40 -> 1 <= max_descents ->
  exists i,
    compute_enemy_move_interval total_hp width max_descents = Some i /\
    spec_move_interval total_hp width max_descents - 1 <= i
      <= spec_move_interval total_hp width max_descents.
Proof.
  intros Hhp Hw Hm.
  assert (0 < width * max_descents) as Hd by nia.
  rewrite FloatSpec.compute_enemy_move_interval_exact by lia.
  eexists. split; [reflexivity |].
  unfold spec_move_interval.
  rewrite (Z.max_r 1 (width * max_descents)) by lia.
  set (est := (13 * total_hp + 60 * width) / 10).
  assert (10 * est <= 13 * total_hp + 60 * width < 10 * est + 10) as Hest.
  { unfold est.
    pose proof (Z.div_mod (13 * total_hp + 60 * width) 10 ltac:(lia)).
    pose proof (Z.mod_pos_bound (13 * total_hp + 60 * width) 10 ltac:(lia)). lia. }
  clearbody est.
  destruct (width * max_descents) as [| p | p] eqn:Hwm; try lia.
  unfold Qceiling, Qfloor. simpl.
  replace (Z.pos (1 * 10 * 1 * p)) with (10 * Z.pos p) by lia.
  replace (Z.pos (1 * p)) with (Z.pos p) by lia.
  change (Z.pos (1 * 10)) with 10.
  match goal with
  | |- context [(- ?a) / (10 * Z.pos p)] =>
      replace a with (13 * total_hp + 60 * width) by lia
  end.
  rewrite Z.mul_1_r.
  set (n := 13 * total_hp + 60 * width) in *. clearbody n.
  pose proof (Z.div_mod (- est) (Z.pos p) ltac:(lia)) as H1.
  pose proof (Z.mod_pos_bound (- est) (Z.pos p) ltac:(lia)) as H2.
  pose proof (Z.div_mod (- n) (10 * Z.pos p) ltac:(lia)) as H3.
  pose proof (Z.mod_pos_bound (- n) (10 * Z.pos p) ltac:(lia)) as H4.
  set (q1 := (- est) / Z.pos p) in *. set (q2 := (- n) / (10 * Z.pos p)) in *.
  set (r1 := (- est) mod Z.pos p) in *. set (r2 := (- n) mod (10 * Z.pos p)) in *.
  clearbody q1 q2 r1 r2.
  assert (q2 <= q1) by nia.
  assert (q1 - 1 <= q2) by nia.
  lia.
Qed.

(** *** Sorting and the pool of nearest columns *)

Section SortedBy.
Context (key : Z -> Z).

Let key_le (a b : Z) : Prop := key a <= key b.

Lemma insert_by_Permutation (x : Z) (l : list Z) : insert_by key x l ≡ₚ x :: l.
Proof.
  induction l as [| y l IH]; simpl; [reflexivity |].
  destruct (key x <=? key y); [reflexivity |].
  rewrite IH. apply Permutation_swap.
Qed.

Lemma py_sorted_by_Permutation (l : list Z) : py_sorted_by key l ≡ₚ l.
Proof.
  induction l as [| x l IH]; simpl; [reflexivity |].
  rewrite insert_by_Permutation, IH. reflexivity.
Qed.

Lemma insert_by_sorted (x : Z) (l : list Z) :
  StronglySorted key_le l -> StronglySorted key_le (insert_by key x l).
Proof.
  induction l as [| y l IH]; simpl; intros Hs.
  - repeat constructor.
  - apply StronglySorted_cons in Hs as [Hy Hl].
    destruct (Z.leb_spec (key x) (key y)) as [Hle | Hgt].
    + apply StronglySorted_cons. split.
      * constructor; [exact Hle |].
        eapply Forall_impl; [exact Hy |]. unfold key_le. intros z Hz. lia.
      * apply StronglySorted_cons. auto.
    + apply StronglySorted_cons. split; [| auto].
      rewrite insert_by_Permutation. constructor; [| exact Hy].
      unfold key_le. lia.
Qed.

Lemma py_sorted_by_sorted (l : list Z) : StronglySorted key_le (py_sorted_by key l).
Proof.
  induction l as [| x l IH]; simpl; [constructor |].
  apply insert_by_sorted. exact IH.
Qed.

(** The first [n] of a list sorted by key are the [n] with the smallest
    keys: whatever is left has a key at least as large. *)
Lemma take_sorted_by_smallest (n : nat) (l : list Z) (c c' : Z) :
  NoDup l ->
  c ∈ take n (py_sorted_by key l) -> c' ∈ l ->
  c' ∉ take n (py_sorted_by key l) ->
  key c <= key c'.
Proof.
  intros Hnd Hc Hc' Hout.
  pose proof (py_sorted_by_sorted l) as Hs.
  rewrite <- (take_drop n (py_sorted_by key l)) in Hs.
  apply (StronglySorted_app_1_elem_of key_le _ _ c c' Hs Hc).
  rewrite <- (py_sorted_by_Permutation l) in Hc'.
  rewrite <- (take_drop n (py_sorted_by key l)) in Hc'.
  apply elem_of_app in Hc' as [Hin | Hin]; [contradiction | exact Hin].
Qed.

End SortedBy.

(** The columns of the live enemies, each once. *)
Lemma elem_of_enemy_columns (enemies : dict) (fx c : Z) :
  c ∈ enemy_columns enemies fx <->
  exists e, e ∈ enemies /\ live e /\ c = fx + e.1.1.
Proof.
  unfold enemy_columns. rewrite py_sorted_by_Permutation.
  rewrite elem_of_remove_dups, list_elem_of_fmap. split.
  - intros (e & -> & He). apply list_elem_of_filter in He as [Hl He]. eauto.
  - intros (e & He & Hl & ->). exists e. split; [reflexivity |].
    apply list_elem_of_filter. auto.
Qed.

Lemma enemy_columns_NoDup (enemies : dict) (fx : Z) :
  NoDup (enemy_columns enemies fx).
Proof.
  unfold enemy_columns. rewrite py_sorted_by_Permutation.
  apply NoDup_remove_dups.
Qed.

Lemma nearest_columns_NoDup (enemies : dict) (fx sx : Z) :
  NoDup (nearest_columns enemies fx sx).
Proof.
  unfold nearest_columns.
  eapply sublist_NoDup; [| apply sublist_take].
  rewrite py_sorted_by_Permutation. apply enemy_columns_NoDup.
Qed.

Lemma nearest_columns_subset (enemies : dict) (fx sx c : Z) :
  c ∈ nearest_columns enemies fx sx -> c ∈ enemy_columns enemies fx.
Proof.
  unfold nearest_columns. intros Hc. apply subseteq_take in Hc.
  rewrite py_sorted_by_Permutation in Hc. exact Hc.
Qed.

Lemma nearest_columns_length (enemies : dict) (fx sx : Z) :
  length (nearest_columns enemies fx sx)
  = Nat.min 12 (length (enemy_columns enemies fx)).
Proof.
  unfold nearest_columns. rewrite length_take.
  rewrite (Permutation_length (py_sorted_by_Permutation _ (enemy_columns enemies fx))).
  reflexivity.
Qed.

(** Enemies in seven rows stand in at least a seventh as many columns. *)
Lemma seven_rows_columns (enemies : dict) (fx : Z) :
  NoDup (fst <$> enemies) ->
  (forall e, e ∈ enemies -> live e /\ 0 <= e.1.2 < 7) ->
  (length enemies <= 7 * length (enemy_columns enemies fx))%nat.
Proof.
  intros Hnd Hrows.
  set (place := fun k : Z * Z => (fx + k.1, k.2)).
  assert (NoDup (place <$> (fst <$> enemies))) as Hnd'.
  { apply NoDup_fmap_2_strong; [| exact Hnd].
    intros [x1 y1] [x2 y2] _ _. unfold place. simpl.
    intros [= Hx Hy]. f_equal; lia. }
  assert (place <$> (fst <$> enemies)
          ⊆+ list_prod (enemy_columns enemies fx) (seqZ 0 7)) as Hsub.
  { apply NoDup_submseteq; [exact Hnd' |].
    intros [c r] Hin.
    apply list_elem_of_fmap in Hin as (k & Hk & Hin).
    apply list_elem_of_fmap in Hin as (e & -> & He).
    unfold place in Hk. injection Hk as -> ->.
    destruct (Hrows e He) as [Hl Hr].
    apply list_elem_of_In, in_prod_iff. split; apply list_elem_of_In.
    - apply elem_of_enemy_columns. eauto.
    - apply elem_of_seqZ. lia. }
  apply submseteq_length in Hsub.
  rewrite !length_fmap, length_prod, length_seqZ in Hsub.
  change (Z.to_nat 7) with 7%nat in Hsub. lia.
Qed.

Lemma below_045_lt (u : Q) : below_045 u = true <-> (u < 45 # 100)%Q.
Proof.
  unfold below_045. rewrite negb_true_iff, <- not_true_iff_false, Qle_bool_iff.
  split; [apply Qnot_le_lt | apply Qlt_not_le].
Qed.

(** *** Chaos mode *)

(** C6: with more than 220 enemies the target is taken over unchanged on
    a tick whose number is not a multiple of 8 unless the ship stands on
    the previous target.  When it is recomputed, the value [u] of
    [random.random()] decides: for [u < 0.45], an event of probability
    0.45 for a uniform [u], the target is the member of the pool that
    [random.choice] indexes, every member having one index; otherwise it
    is the target of the three-key priority.  The pool holds the enemy
    columns nearest the ship, each once, 12 of them when there are 12,
    which a formation cut from seven rows guarantees. *)
Theorem retarget_in_chaos_mode (enemies : dict)
    (formation_x formation_y ship_x current_target_x tick : Z) (rnd : draw) :
  220 < Z.of_nat (length enemies) -> formation_ok enemies ->
  let target :=
    retarget enemies formation_x formation_y ship_x current_target_x tick rnd in
  let pool := nearest_columns enemies formation_x ship_x in
  (tick mod 8 <> 0 -> ship_x <> current_target_x ->
   target = Some current_target_x) /\
  (tick mod 8 = 0 \/ ship_x = current_target_x ->
   ((rnd_random rnd < 45 # 100)%Q ->
    exists c, target = Some c /\
              pool !! (rnd_choice rnd mod length pool)%nat = Some c) /\
   (~ (rnd_random rnd < 45 # 100)%Q ->
    target = pick_target_column enemies formation_x formation_y ship_x)) /\
  NoDup pool /\
  (forall c, c ∈ pool -> exists e, e ∈ enemies /\ c = formation_x + e.1.1) /\
  (forall c e, c ∈ pool -> e ∈ enemies -> formation_x + e.1.1 ∉ pool ->
               Z.abs (c - ship_x) <= Z.abs (formation_x + e.1.1 - ship_x)) /\
  length pool = Nat.min 12 (length (enemy_columns enemies formation_x)) /\
  ((forall e, e ∈ enemies -> 0 <= e.1.2 < 7) -> length pool = 12%nat).
Proof.
  intros Hcount Hok target pool.
  assert ((Z.of_nat (length enemies) >? 220) = true) as Hchaos
    by (apply Z.gtb_lt; lia).
  assert (enemies <> []) as Hne by (intros ->; simpl in Hcount; lia).
  destruct (nonempty_elem _ Hne) as [e0 He0].
  pose proof (formation_ok_live _ _ Hok He0) as Hl0.
  assert (enemy_columns enemies formation_x <> []) as Hcols.
  { intros Hnil.
    assert (formation_x + e0.1.1 ∈ enemy_columns enemies formation_x) as Hin
      by (apply elem_of_enemy_columns; eauto).
    rewrite Hnil in Hin. inversion Hin. }
  pose proof (nearest_columns_length enemies formation_x ship_x) as Hlen.
  fold pool in Hlen.
  assert (pool <> []) as Hpool.
  { intros Hnil. rewrite Hnil in Hlen. simpl in Hlen.
    destruct (enemy_columns enemies formation_x); [congruence | simpl in Hlen; lia]. }
  split; [| split; [| split; [| split; [| split; [| split]]]]].
  - intros Htick Hship. unfold target, retarget. rewrite Hchaos.
    destruct (Z.eqb_spec (tick mod 8) 0); [contradiction |].
    destruct (Z.eqb_spec ship_x current_target_x); [contradiction |].
    reflexivity.
  - intros Hwhen.
    assert ((tick mod 8 =? 0) || (ship_x =? current_target_x) = true) as Hgate.
    { apply orb_true_iff. rewrite !Z.eqb_eq. exact Hwhen. }
    assert (target =
            if below_045 (rnd_random rnd)
            then py_choice pool (rnd_choice rnd)
            else pick_target_column enemies formation_x formation_y ship_x) as Ht.
    { unfold target, retarget. rewrite Hchaos, Hgate.
      destruct (enemy_columns enemies formation_x); [congruence | reflexivity]. }
    split.
    + intros Hu. apply below_045_lt in Hu. rewrite Hu in Ht.
      assert (is_Some (pool !! (rnd_choice rnd mod length pool)%nat)) as [c Hc].
      { apply lookup_lt_is_Some. apply Nat.mod_upper_bound.
        destruct pool; [congruence | simpl; lia]. }
      exists c. split; [| exact Hc].
      rewrite Ht. unfold py_choice. destruct pool; [congruence | exact Hc].
    + intros Hu. rewrite <- below_045_lt in Hu.
      apply not_true_is_false in Hu. rewrite Hu in Ht. exact Ht.
  - apply nearest_columns_NoDup.
  - intros c Hc. apply nearest_columns_subset, elem_of_enemy_columns in Hc
      as (e & He & _ & ->). eauto.
  - intros c e Hc He Hout.
    apply (take_sorted_by_smallest (fun col => Z.abs (col - ship_x)) 12
             (enemy_columns enemies formation_x)).
    + apply enemy_columns_NoDup.
    + exact Hc.
    + apply elem_of_enemy_columns. exists e.
      split; [exact He |]. split; [exact (formation_ok_live _ _ Hok He) | reflexivity].
    + exact Hout.
  - exact Hlen.
  - intros Hrows. rewrite Hlen.
    pose proof (seven_rows_columns enemies formation_x (proj1 Hok)) as Hsev.
    assert (forall e, e ∈ enemies -> live e /\ 0 <= e.1.2 < 7) as Hall.
    { intros e He. split; [exact (formation_ok_live _ _ Hok He) | auto]. }
    specialize (Hsev Hall). lia.
Qed.

(** A witness for C6: the 224 enemies of a grid of 7 rows and 32 columns
    of level 1, on tick 16, with a draw below 0.45. *)
Lemma retarget_in_chaos_mode_witness :
  let enemies := build_enemies (replicate 7 (replicate 32 1)) in
  let target := retarget enemies 1 2 17 17 16 (mkDraw (1 # 4) 5) in
  let pool := nearest_columns enemies 1 17 in
  (16 mod 8 <> 0 -> 17 <> 17 -> target = Some 17) /\
  (16 mod 8 = 0 \/ 17 = 17 ->
   ((rnd_random (mkDraw (1 # 4) 5) < 45 # 100)%Q ->
    exists c, target = Some c /\
              pool !! (rnd_choice (mkDraw (1 # 4) 5) mod length pool)%nat = Some c) /\
   (~ (rnd_random (mkDraw (1 # 4) 5) < 45 # 100)%Q ->
    target = pick_target_column enemies 1 2 17)) /\
  NoDup pool /\
  (forall c, c ∈ pool -> exists e, e ∈ enemies /\ c = 1 + e.1.1) /\
  (forall c e, c ∈ pool -> e ∈ enemies -> 1 + e.1.1 ∉ pool ->
               Z.abs (c - 17) <= Z.abs (1 + e.1.1 - 17)) /\
  length pool = Nat.min 12 (length (enemy_columns enemies 1)) /\
  ((forall e, e ∈ enemies -> 0 <= e.1.2 < 7) -> length pool = 12%nat).
Proof.
  apply (retarget_in_chaos_mode (build_enemies (replicate 7 (replicate 32 1)))
           1 2 17 17 16 (mkDraw (1 # 4) 5)).
  - vm_compute. reflexivity.
  - apply (bool_decide_unpack _). vm_compute. reflexivity.
Defined.

Example chaos_mode_retarget_run :
  let enemies := build_enemies (replicate 7 (replicate 32 1)) in
  nearest_columns enemies 1 17 = [17; 16; 18; 15; 19; 14; 20; 13; 21; 12; 22; 11] /\
  retarget enemies 1 2 17 17 16 (mkDraw (1 # 4) 5) = Some 14 /\
  retarget enemies 1 2 17 17 16 (mkDraw (1 # 2) 5) = Some 17 /\
  retarget enemies 1 2 17 12 17 (mkDraw (1 # 4) 5) = Some 12.
Proof. vm_compute. repeat split. Qed.

(** *** A grid without active cells *)

Lemma build_row_nil (y x : Z) (row : list Z) :
  build_row y x row = [] <-> Forall (fun v => v <= 0) row.
Proof.
  revert x. induction row as [| level row IH]; intros x; simpl.
  - split; [constructor | reflexivity].
  - rewrite Forall_cons, <- (IH (x + 1)).
    destruct (Z.ltb_spec 0 level); simpl.
    + split; [discriminate | lia].
    + split; [intros H'; split; [lia | exact H'] | intros [_ H']; exact H'].
Qed.

Lemma build_rows_nil (y : Z) (g : list (list Z)) :
  build_rows y g = [] <-> Forall (Forall (fun v => v <= 0)) g.
Proof.
  revert y. induction g as [| row g IH]; intros y; simpl.
  - split; [constructor | reflexivity].
  - rewrite Forall_cons, <- (IH (y + 1)), <- (build_row_nil y 0).
    split.
    + intros H. apply app_eq_nil in H. exact H.
    + intros [-> ->]. reflexivity.
Qed.

(** C9, as amended: on a grid in which no cell has a positive level the
    shooter's [generate_gif] raises its "No enemies found" error before
    the first pass of its loop, whatever the tick budget and the random
    source.  The ant's [generate_gif] has no such check: on such a grid,
    rectangular and with levels in 0..4, it takes every step it is asked
    for from any start cell. *)
Theorem no_active_cells_stops_the_shooter_only
    (contribution_grid : list (list Z)) (w h : Z) :
  Ant.rectangular contribution_grid w h -> Ant.levels_ok contribution_grid ->
  Forall (Forall (fun v => v <= 0)) contribution_grid ->
  (forall max_ticks rnd,
      generate_gif contribution_grid max_ticks rnd = NoEnemiesFound) /\
  (forall iterations start_x start_y,
      0 <= start_x < w -> 0 <= start_y < h ->
      is_Some (Ant.generate_gif contribution_grid start_x start_y iterations).2).
Proof.
  intros Hrect Hlev Hzero. split.
  - intros max_ticks rnd. unfold generate_gif, build_enemies.
    apply (build_rows_nil 0) in Hzero. rewrite Hzero. reflexivity.
  - intros iterations x y Hx Hy. unfold Ant.generate_gif.
    destruct (AntSpec.walk_stays_inside iterations contribution_grid w h x y 1
                Hrect Hlev Hx Hy) as (g' & x' & y' & d' & Hwalk & _).
    rewrite Hwalk. eauto.
Qed.

(** A witness for the amended C9: the grid of 7 rows and 7 columns of
    zeros. *)
Lemma no_active_cells_stops_the_shooter_only_witness :
  (forall max_ticks rnd,
      generate_gif (replicate 7 (replicate 7 0)) max_ticks rnd = NoEnemiesFound) /\
  (forall iterations start_x start_y,
      0 <= start_x < 7 -> 0 <= start_y < 7 ->
      is_Some (Ant.generate_gif (replicate 7 (replicate 7 0))
                 start_x start_y iterations).2).
Proof.
  apply (no_active_cells_stops_the_shooter_only (replicate 7 (replicate 7 0)) 7 7).
  - split; [reflexivity |]. apply (bool_decide_unpack _). vm_compute. reflexivity.
  - apply (bool_decide_unpack _). vm_compute. reflexivity.
  - apply (bool_decide_unpack _). vm_compute. reflexivity.
Defined.

(** The shooter's error is raised for these grids only. *)
Lemma generate_gif_no_enemies_iff (contribution_grid : list (list Z))
    (max_ticks : Z) (rnd : Z -> draw) :
  generate_gif contribution_grid max_ticks rnd = NoEnemiesFound <->
  Forall (Forall (fun v => v <= 0)) contribution_grid.
Proof.
  rewrite <- (build_rows_nil 0). unfold generate_gif, build_enemies.
  destruct (build_rows 0 contribution_grid) as [| e es]; [tauto |].
  split; [| discriminate].
  destruct (py_index contribution_grid 0); [| discriminate].
  destruct (compute_enemy_move_interval _ _ _); [| discriminate].
  destruct (run _ _ _ _); discriminate.
Qed.

End ShooterSpec.

(** ** The grid source *)

Module GridSourceSpec.
Import Ant AntSpec.

Lemma zeros_rectangular (w h : Z) :
  rectangular (zeros w h) (Z.max 0 w) (Z.max 0 h).
Proof.
  unfold rectangular, zeros. split.
  - rewrite length_replicate. lia.
  - apply Forall_replicate. rewrite length_replicate. lia.
Qed.

Lemma zeros_levels_ok (w h : Z) : levels_ok (zeros w h).
Proof.
  unfold levels_ok, zeros. apply Forall_replicate, Forall_replicate. lia.
Qed.

Lemma zeros_cell (w h : Z) (x y : nat) :
  Z.of_nat x < w -> Z.of_nat y < h -> cell (zeros w h) x y = Some 0.
Proof.
  intros Hx Hy. unfold cell, zeros.
  rewrite lookup_replicate_2 by lia. simpl.
  apply lookup_replicate_2. lia.
Qed.

(** An assignment inside a rectangular grid. *)
Lemma assign_cell_inside (g : grid) (w h x y v : Z) :
  rectangular g w h -> 0 <= x < w -> 0 <= y < h ->
  exists row,
    g !! Z.to_nat y = Some row /\
    assign_cell g x y v = Some (<[Z.to_nat y := <[Z.to_nat x := v]> row]> g).
Proof.
  intros [Hh Hw] Hx Hy.
  destruct (lookup_Z_lt g y ltac:(lia)) as [row Hrow].
  exists row. split; [exact Hrow |].
  rewrite Forall_lookup in Hw. specialize (Hw _ _ Hrow).
  unfold assign_cell. rewrite py_index_nonneg by lia. rewrite Hrow. simpl.
  rewrite py_setitem_nonneg by lia. simpl.
  apply py_setitem_nonneg. lia.
Qed.

(** An assignment below the last row raises. *)
Lemma assign_cell_below (g : grid) (x y v : Z) :
  Z.of_nat (length g) <= y -> assign_cell g x y v = None.
Proof.
  intros Hy. unfold assign_cell. rewrite py_index_nonneg by lia.
  rewrite lookup_ge_None_2 by lia. reflexivity.
Qed.

Lemma cell_outside (g : grid) (w h : Z) (x y : nat) :
  rectangular g w h -> ~ (Z.of_nat x < w /\ Z.of_nat y < h) -> cell g x y = None.
Proof.
  intros [Hh Hw] Hout. unfold cell.
  destruct (g !! y) as [row |] eqn:Hrow; [simpl | reflexivity].
  rewrite Forall_lookup in Hw. specialize (Hw _ _ Hrow).
  apply lookup_lt_Some in Hrow. apply lookup_ge_None_2. lia.
Qed.

(** The guarded loop never raises on a rectangular grid, keeps its shape,
    and leaves in every cell the level of the last cell of the list with
    these coordinates, or what was there. *)
Lemma ant_fill_spec (w : Z) (cells : list Cell) (g : grid) :
  rectangular g (Z.max 0 w) 7 ->
  exists g',
    AntDriver.fill w 7 g cells = Some g' /\
    rectangular g' (Z.max 0 w) 7 /\
    (forall x y : nat,
        Z.of_nat x < w -> Z.of_nat y < 7 ->
        cell g' x y =
          match last_level cells (Z.of_nat x) (Z.of_nat y) with
          | Some v => Some v
          | None => cell g x y
          end) /\
    (levels_ok g -> Forall (fun c => 0 <= cell_level c <= 4) cells -> levels_ok g').
Proof.
  revert g. induction cells as [| c cells IH]; intros g Hrect.
  - exists g. simpl. auto.
  - cbn [AntDriver.fill].
    destruct ((0 <=? cell_y c) && (cell_y c <? 7)
              && (0 <=? cell_x c) && (cell_x c <? w)) eqn:Hguard.
    + apply andb_prop in Hguard as [Hguard Hx2].
      apply andb_prop in Hguard as [Hguard Hx1].
      apply andb_prop in Hguard as [Hy1 Hy2].
      apply Z.leb_le in Hy1, Hx1. apply Z.ltb_lt in Hy2, Hx2.
      destruct (assign_cell_inside g (Z.max 0 w) 7 (cell_x c) (cell_y c)
                  (cell_level c) Hrect ltac:(lia) ltac:(lia)) as (row & Hrow & ->).
      simpl.
      destruct (IH _ (rectangular_insert g row (Z.to_nat (cell_x c))
                        (Z.to_nat (cell_y c)) (cell_level c) _ _ Hrect Hrow))
        as (g' & Hfill & Hrect' & Hcells & Hlev).
      exists g'. split; [exact Hfill |]. split; [exact Hrect' |]. split.
      * intros x y Hx Hy. rewrite (Hcells x y Hx Hy). simpl.
        destruct (last_level cells (Z.of_nat x) (Z.of_nat y)); [reflexivity |].
        destruct (Z.eqb_spec (cell_x c) (Z.of_nat x)) as [Ex | Nx];
          destruct (Z.eqb_spec (cell_y c) (Z.of_nat y)) as [Ey | Ny]; simpl.
        -- rewrite Ex, Ey, !Nat2Z.id.
           apply cell_insert_same.
           ++ rewrite <- (Nat2Z.id y), <- Ey. exact Hrow.
           ++ destruct Hrect as [_ Hw]. rewrite Forall_lookup in Hw.
              specialize (Hw _ _ Hrow). lia.
        -- apply (cell_insert_other g row); [exact Hrow |]. intros [= _ E]. lia.
        -- apply (cell_insert_other g row); [exact Hrow |]. intros [= E _]. lia.
        -- apply (cell_insert_other g row); [exact Hrow |]. intros [= E _]. lia.
      * intros Hok Hall. apply Forall_cons in Hall as [Hc Hall].
        apply Hlev; [| exact Hall].
        apply levels_ok_insert; assumption.
    + simpl. destruct (IH g Hrect) as (g' & Hfill & Hrect' & Hcells & Hlev).
      exists g'. split; [exact Hfill |]. split; [exact Hrect' |]. split.
      * intros x y Hx Hy. rewrite (Hcells x y Hx Hy). simpl.
        destruct (last_level cells (Z.of_nat x) (Z.of_nat y)); [reflexivity |].
        destruct (Z.eqb_spec (cell_x c) (Z.of_nat x)) as [Ex | Nx];
          destruct (Z.eqb_spec (cell_y c) (Z.of_nat y)) as [Ey | Ny];
          simpl; try reflexivity.
        exfalso. rewrite Ex, Ey in Hguard.
        apply andb_false_iff in Hguard as [Hguard | Hguard];
          [apply andb_false_iff in Hguard as [Hguard | Hguard];
           [apply andb_false_iff in Hguard as [Hguard | Hguard] |] |];
          rewrite ?Z.leb_gt, ?Z.ltb_ge in Hguard; lia.
      * intros Hok Hall. apply Forall_cons in Hall as [_ Hall]. auto.
Qed.

Lemma max_x_spec (cells : list Cell) :
  cells <> [] ->
  exists max_x,
    Shooter.py_max (cell_x <$> cells) = Some max_x /\
    (exists c, c ∈ cells /\ cell_x c = max_x) /\
    (forall c, c ∈ cells -> cell_x c <= max_x).
Proof.
  intros Hne.
  destruct (ShooterSpec.py_max_spec (cell_x <$> cells)) as (m & Hm & Hin & Hle).
  { intros Hnil. apply fmap_nil_inv in Hnil. contradiction. }
  exists m. split; [exact Hm |]. split.
  - apply list_elem_of_fmap in Hin as (c & -> & Hc). eauto.
  - intros c Hc. apply Hle. apply list_elem_of_fmap_2. exact Hc.
Qed.

(** X1: the grid source of the ant script never raises on a page with
    cells: it returns a grid of 7 rows, as wide as the largest column
    number plus one, in which a cell holds the level of the last parsed
    cell with its coordinates, and 0 when there is none; cells outside
    the grid are skipped.  Levels in 0..4 give a grid with levels in
    0..4. *)
Theorem ant_fetch_contribution_grid_spec (cells : list Cell) :
  cells <> [] ->
  exists max_x g,
    (exists c, c ∈ cells /\ cell_x c = max_x) /\
    (forall c, c ∈ cells -> cell_x c <= max_x) /\
    AntDriver.fetch_contribution_grid cells = Some (Some g) /\
    rectangular g (Z.max 0 (max_x + 1)) 7 /\
    (forall x y : nat,
        Z.of_nat x < max_x + 1 -> Z.of_nat y < 7 ->
        cell g x y
        = Some (default 0 (last_level cells (Z.of_nat x) (Z.of_nat y)))) /\
    (Forall (fun c => 0 <= cell_level c <= 4) cells -> levels_ok g).
Proof.
  intros Hne.
  destruct (max_x_spec cells Hne) as (max_x & Hmax & Hin & Hle).
  destruct (ant_fill_spec (max_x + 1) cells (zeros (max_x + 1) 7)
              (zeros_rectangular _ _)) as (g & Hfill & Hrect & Hcells & Hlev).
  exists max_x, g. split; [exact Hin |]. split; [exact Hle |]. split.
  { unfold AntDriver.fetch_contribution_grid. rewrite Hmax, Hfill. reflexivity. }
  split; [exact Hrect |]. split.
  - intros x y Hx Hy. rewrite (Hcells x y Hx Hy).
    destruct (last_level cells (Z.of_nat x) (Z.of_nat y)); [reflexivity |].
    simpl. apply zeros_cell; assumption.
  - apply Hlev. apply zeros_levels_ok.
Qed.

(** A witness for X1: three cells, two of them for the same place and one
    below the grid. *)
Lemma ant_fetch_contribution_grid_spec_witness :
  exists max_x g,
    (exists c, c ∈ [make_cell 0 1 2; make_cell 8 0 3; make_cell 0 1 9]
               /\ cell_x c = max_x) /\
    (forall c, c ∈ [make_cell 0 1 2; make_cell 8 0 3; make_cell 0 1 9] ->
               cell_x c <= max_x) /\
    AntDriver.fetch_contribution_grid
      [make_cell 0 1 2; make_cell 8 0 3; make_cell 0 1 9] = Some (Some g) /\
    rectangular g (Z.max 0 (max_x + 1)) 7 /\
    (forall x y : nat,
        Z.of_nat x < max_x + 1 -> Z.of_nat y < 7 ->
        cell g x y
        = Some (default 0 (last_level
                             [make_cell 0 1 2; make_cell 8 0 3; make_cell 0 1 9]
                             (Z.of_nat x) (Z.of_nat y)))) /\
    (Forall (fun c => 0 <= cell_level c <= 4)
       [make_cell 0 1 2; make_cell 8 0 3; make_cell 0 1 9] -> levels_ok g).
Proof.
  apply (ant_fetch_contribution_grid_spec
           [make_cell 0 1 2; make_cell 8 0 3; make_cell 0 1 9]).
  discriminate.
Defined.

Example ant_fetch_contribution_grid_run :
  AntDriver.fetch_contribution_grid
    [make_cell 0 1 2; make_cell 8 0 3; make_cell 0 1 9]
  = Some (Some [[0; 4]; [0; 0]; [0; 0]; [0; 0]; [0; 0]; [0; 0]; [0; 0]]).
Proof. reflexivity. Qed.

(** The unguarded loop does what the guarded one does as long as every
    cell is inside the grid. *)
Lemma shooter_fill_inside (w : Z) (cells : list Cell) (g : grid) :
  Forall (fun c => 0 <= cell_x c < w /\ 0 <= cell_y c < 7) cells ->
  ShooterDriver.fill g cells = AntDriver.fill w 7 g cells.
Proof.
  revert g. induction cells as [| c cells IH]; intros g Hall; [reflexivity |].
  apply Forall_cons in Hall as [[Hx Hy] Hall]. simpl.
  destruct (Z.leb_spec 0 (cell_y c)); [| lia].
  destruct (Z.ltb_spec (cell_y c) 7); [| lia].
  destruct (Z.leb_spec 0 (cell_x c)); [| lia].
  destruct (Z.ltb_spec (cell_x c) w); [| lia]. simpl.
  destruct (assign_cell g (cell_x c) (cell_y c) (cell_level c)); simpl; auto.
Qed.

(** It raises at the first cell below the grid. *)
Lemma shooter_fill_below (w : Z) (cells : list Cell) (g : grid) :
  rectangular g w 7 ->
  Forall (fun c => 0 <= cell_x c < w /\ 0 <= cell_y c) cells ->
  Exists (fun c => 7 <= cell_y c) cells ->
  ShooterDriver.fill g cells = None.
Proof.
  revert g. induction cells as [| c cells IH]; intros g Hrect Hall Hex.
  - inversion Hex.
  - apply Forall_cons in Hall as [[Hx Hy] Hall]. simpl.
    destruct (Z_lt_le_dec (cell_y c) 7) as [Hin | Hout].
    + destruct (assign_cell_inside g w 7 (cell_x c) (cell_y c) (cell_level c)
                  Hrect Hx ltac:(lia)) as (row & Hrow & ->).
      simpl. apply IH.
      * apply rectangular_insert; assumption.
      * exact Hall.
      * apply Exists_cons in Hex as [Hbad | Hex]; [lia | exact Hex].
    + rewrite assign_cell_below; [reflexivity |].
      destruct Hrect as [Hh _]. lia.
Qed.

(** X2: on cells with column and row numbers without sign, as the parser
    reads them, the grid source of the shooter script returns the grid
    that the ant script's returns when every row number is at most 6, and
    raises [IndexError] as soon as one is 7 or more, where the ant
    script's skips the cell. *)
Theorem shooter_fetch_contribution_grid_spec (cells : list Cell) :
  cells <> [] ->
  Forall (fun c => 0 <= cell_x c /\ 0 <= cell_y c) cells ->
  (Forall (fun c => cell_y c <= 6) cells ->
   exists g,
     ShooterDriver.fetch_contribution_grid cells = ShooterDriver.Fetched g /\
     AntDriver.fetch_contribution_grid cells = Some (Some g)) /\
  (Exists (fun c => 7 <= cell_y c) cells ->
   ShooterDriver.fetch_contribution_grid cells = ShooterDriver.IndexErrorRaised /\
   exists g, AntDriver.fetch_contribution_grid cells = Some (Some g)).
Proof.
  intros Hne Hpos.
  destruct (max_x_spec cells Hne) as (max_x & Hmax & [c0 [Hc0 Hx0]] & Hle).
  assert (0 <= max_x) as Hmx.
  { rewrite Forall_forall in Hpos. destruct (Hpos _ Hc0). lia. }
  destruct (ant_fill_spec (max_x + 1) cells (zeros (max_x + 1) 7)
              (zeros_rectangular _ _)) as (g & Hfill & _).
  assert (AntDriver.fetch_contribution_grid cells = Some (Some g)) as Hant.
  { unfold AntDriver.fetch_contribution_grid. rewrite Hmax, Hfill. reflexivity. }
  unfold ShooterDriver.fetch_contribution_grid. rewrite Hmax. split.
  - intros Hrows. exists g. split; [| exact Hant].
    rewrite (shooter_fill_inside (max_x + 1)), Hfill; [reflexivity |].
    rewrite Forall_forall in *. intros c Hc.
    specialize (Hpos c Hc). specialize (Hrows c Hc). specialize (Hle c Hc).
    simpl in *. lia.
  - intros Hbad. split; [| eauto].
    rewrite (shooter_fill_below (max_x + 1)); [reflexivity | | | exact Hbad].
    + pose proof (zeros_rectangular (max_x + 1) 7) as Hz.
      rewrite Z.max_r in Hz by lia. exact Hz.
    + rewrite Forall_forall in *. intros c Hc.
      specialize (Hpos c Hc). specialize (Hle c Hc). lia.
Qed.

(** A witness for X2: a page whose second cell is in row 8. *)
Lemma shooter_fetch_contribution_grid_spec_witness :
  (Forall (fun c => cell_y c <= 6) [make_cell 0 1 2; make_cell 8 0 3] ->
   exists g,
     ShooterDriver.fetch_contribution_grid [make_cell 0 1 2; make_cell 8 0 3]
       = ShooterDriver.Fetched g /\
     AntDriver.fetch_contribution_grid [make_cell 0 1 2; make_cell 8 0 3]
       = Some (Some g)) /\
  (Exists (fun c => 7 <= cell_y c) [make_cell 0 1 2; make_cell 8 0 3] ->
   ShooterDriver.fetch_contribution_grid [make_cell 0 1 2; make_cell 8 0 3]
     = ShooterDriver.IndexErrorRaised /\
   exists g, AntDriver.fetch_contribution_grid [make_cell 0 1 2; make_cell 8 0 3]
             = Some (Some g)).
Proof.
  apply (shooter_fetch_contribution_grid_spec [make_cell 0 1 2; make_cell 8 0 3]).
  - discriminate.
  - apply (bool_decide_unpack _). vm_compute. reflexivity.
Defined.

Example shooter_fetch_contribution_grid_row_8 :
  ShooterDriver.fetch_contribution_grid [make_cell 0 1 2; make_cell 8 0 3]
  = ShooterDriver.IndexErrorRaised.
Proof. reflexivity. Qed.

End GridSourceSpec.

(** ** More on the shooter *)

Module ShooterMore.
Import Shooter ShooterSpec.

(** *** From the grid to the enemies *)

Lemma dict_get_app (k : Z * Z) (d1 d2 : dict) :
  dict_get k (d1 ++ d2)
  = match dict_get k d1 with Some v => Some v | None => dict_get k d2 end.
Proof.
  induction d1 as [| [k' v'] d1 IH]; simpl; [reflexivity |].
  destruct (coord_eqb k k'); [reflexivity | exact IH].
Qed.

Lemma build_row_get (y x0 : Z) (row : list Z) (x : Z) :
  dict_get (x, y) (build_row y x0 row)
  = if x0 <=? x
    then v ← row !! Z.to_nat (x - x0); if 0 <? v then Some v else None
    else None.
Proof.
  revert x0. induction row as [| level row IH]; intros x0; simpl.
  - destruct (x0 <=? x); reflexivity.
  - rewrite dict_get_app, IH.
    destruct (Z.leb_spec x0 x) as [Hle | Hgt].
    + destruct (Z.eq_dec x x0) as [-> | Hne].
      * rewrite Z.sub_diag. simpl.
        destruct (Z.leb_spec (x0 + 1) x0); [lia |].
        destruct (0 <? level); simpl; [| reflexivity].
        unfold coord_eqb. simpl. rewrite !Z.eqb_refl. reflexivity.
      * destruct (Z.leb_spec (x0 + 1) x); [| lia].
        replace (Z.to_nat (x - x0)) with (S (Z.to_nat (x - (x0 + 1)))) by lia.
        simpl.
        destruct (0 <? level); simpl; [| reflexivity].
        unfold coord_eqb. simpl.
        destruct (Z.eqb_spec x x0); [lia | reflexivity].
    + destruct (Z.leb_spec (x0 + 1) x); [lia |].
      destruct (0 <? level); simpl; [| reflexivity].
      unfold coord_eqb. simpl.
      destruct (Z.eqb_spec x x0); [lia | reflexivity].
Qed.

Lemma build_row_get_other (y y' x0 : Z) (row : list Z) (x : Z) :
  y' <> y -> dict_get (x, y') (build_row y x0 row) = None.
Proof.
  intros Hne. apply dict_get_None. intros Hin.
  apply build_row_keys in Hin. simpl in Hin. lia.
Qed.

Lemma build_rows_get (y0 : Z) (g : list (list Z)) (x y : Z) :
  dict_get (x, y) (build_rows y0 g)
  = if (0 <=? x) && (y0 <=? y)
    then row ← g !! Z.to_nat (y - y0);
         v ← row !! Z.to_nat x;
         if 0 <? v then Some v else None
    else None.
Proof.
  revert y0. induction g as [| row g IH]; intros y0; simpl.
  - destruct ((0 <=? x) && (y0 <=? y)); reflexivity.
  - rewrite dict_get_app, IH.
    destruct (Z.eq_dec y y0) as [-> | Hne].
    + rewrite build_row_get, Z.sub_diag, Z.sub_0_r, Z.leb_refl. simpl.
      destruct (Z.leb_spec (y0 + 1) y0); [lia |].
      rewrite andb_false_r, andb_true_r.
      destruct (0 <=? x); [| reflexivity].
      destruct (row !! Z.to_nat x) as [v |]; simpl; [| reflexivity].
      destruct (0 <? v); reflexivity.
    + rewrite build_row_get_other by exact Hne.
      destruct (Z.leb_spec y0 y) as [Hle | Hgt].
      * destruct (Z.leb_spec (y0 + 1) y); [| lia].
        replace (Z.to_nat (y - y0)) with (S (Z.to_nat (y - (y0 + 1)))) by lia.
        reflexivity.
      * destruct (Z.leb_spec (y0 + 1) y); [lia |].
        rewrite !andb_false_r. reflexivity.
Qed.

Lemma build_row_NoDup (y x : Z) (row : list Z) : NoDup (fst <$> build_row y x row).
Proof.
  revert x. induction row as [| level row IH]; intros x; simpl; [constructor |].
  destruct (0 <? level); simpl; [| apply IH].
  apply NoDup_cons. split; [| apply IH].
  intros Hin. apply build_row_keys in Hin. simpl in Hin. lia.
Qed.

Lemma build_rows_NoDup (y : Z) (g : list (list Z)) : NoDup (fst <$> build_rows y g).
Proof.
  revert y. induction g as [| row g IH]; intros y; simpl; [constructor |].
  rewrite fmap_app. apply NoDup_app. split; [apply build_row_NoDup |].
  split; [| apply IH].
  intros k Hk1 Hk2. apply build_row_keys in Hk1. apply build_rows_keys in Hk2. lia.
Qed.

(** X3: [build_enemies] turns the grid into a dictionary without changing
    what it says: the key (x, y) is present exactly when the cell in
    column x of row y exists and has a positive level, its value is that
    level, and no key occurs twice. *)
Theorem build_enemies_lookup (contribution_grid : list (list Z)) :
  NoDup (fst <$> build_enemies contribution_grid) /\
  forall x y : Z,
    dict_get (x, y) (build_enemies contribution_grid)
    = if (0 <=? x) && (0 <=? y)
      then v ← Ant.cell contribution_grid (Z.to_nat x) (Z.to_nat y);
           if 0 <? v then Some v else None
      else None.
Proof.
  split; [apply build_rows_NoDup |].
  intros x y. unfold build_enemies, Ant.cell.
  rewrite build_rows_get, Z.sub_0_r.
  destruct ((0 <=? x) && (0 <=? y)); [| reflexivity].
  destruct (contribution_grid !! Z.to_nat y); reflexivity.
Qed.

(** *** The bounding box *)

(** X4: [enemy_bounds] raises exactly when no entry has a positive hit
    point count (in particular on an empty dictionary); otherwise it
    returns the bounding box of the live enemies: every live enemy is
    inside, and each of the four bounds is the coordinate of one. *)
Theorem enemy_bounds_box (enemies : dict) :
  (enemy_bounds enemies = None <-> forall e, e ∈ enemies -> ~ live e) /\
  forall min_x max_x min_y max_y,
    enemy_bounds enemies = Some (min_x, max_x, min_y, max_y) ->
    (forall e, e ∈ enemies -> live e ->
               min_x <= e.1.1 <= max_x /\ min_y <= e.1.2 <= max_y) /\
    (exists e, e ∈ enemies /\ live e /\ e.1.1 = min_x) /\
    (exists e, e ∈ enemies /\ live e /\ e.1.1 = max_x) /\
    (exists e, e ∈ enemies /\ live e /\ e.1.2 = min_y) /\
    (exists e, e ∈ enemies /\ live e /\ e.1.2 = max_y).
Proof.
  unfold enemy_bounds.
  set (px := fun e : Z * Z * Z => e.1.1). set (py := fun e : Z * Z * Z => e.1.2).
  destruct (filter live enemies) as [| e0 es] eqn:Hf.
  - split.
    + split; [| reflexivity]. intros _ e He Hl.
      assert (e ∈ filter live enemies) as Hin by (apply list_elem_of_filter; auto).
      rewrite Hf in Hin. inversion Hin.
    + intros ? ? ? ? [=].
  - assert (e0 ∈ enemies /\ live e0) as [He0 Hl0].
    { assert (e0 ∈ filter live enemies) as Hin by (rewrite Hf; left).
      apply list_elem_of_filter in Hin. tauto. }
    rewrite <- Hf.
    assert (forall (f : Z * Z * Z -> Z) v,
               v ∈ f <$> filter live enemies ->
               exists e, e ∈ enemies /\ live e /\ f e = v) as Hattained.
    { intros f v Hin. apply list_elem_of_fmap in Hin as (e & -> & He).
      apply list_elem_of_filter in He as [Hl He]. eauto. }
    assert (forall (f : Z * Z * Z -> Z) e,
               e ∈ enemies -> live e -> f e ∈ f <$> filter live enemies) as Hmem.
    { intros f e He Hl. apply list_elem_of_fmap_2, list_elem_of_filter. auto. }
    destruct (py_min_spec _ (live_fmap_nonempty px enemies e0 He0 Hl0))
      as (a & -> & Ha_in & Ha_le).
    destruct (py_max_spec _ (live_fmap_nonempty px enemies e0 He0 Hl0))
      as (b & -> & Hb_in & Hb_le).
    destruct (py_min_spec _ (live_fmap_nonempty py enemies e0 He0 Hl0))
      as (c & -> & Hc_in & Hc_le).
    destruct (py_max_spec _ (live_fmap_nonempty py enemies e0 He0 Hl0))
      as (d & -> & Hd_in & Hd_le).
    split.
    + split; [discriminate |]. intros Hnone. exfalso. exact (Hnone e0 He0 Hl0).
    + intros ? ? ? ? [= <- <- <- <-]. split.
      * intros e He Hl.
        pose proof (Ha_le _ (Hmem px e He Hl)). pose proof (Hb_le _ (Hmem px e He Hl)).
        pose proof (Hc_le _ (Hmem py e He Hl)). pose proof (Hd_le _ (Hmem py e He Hl)).
        unfold px, py in *. lia.
      * repeat split; [apply (Hattained px) | apply (Hattained px)
                       | apply (Hattained py) | apply (Hattained py)]; assumption.
Qed.

(** *** The target does not depend on where the scene stands *)

Section MaxByMap.
Context {A B : Type} (f : A -> B) (keyA : A -> Z * Z * Z) (keyB : B -> Z * Z * Z).
Hypothesis key_compat :
  forall a b, tuple3_ltb (keyB (f a)) (keyB (f b)) = tuple3_ltb (keyA a) (keyA b).

Lemma py_max_by_fmap (l : list A) :
  py_max_by keyB (f <$> l) = f <$> py_max_by keyA l.
Proof.
  destruct l as [| x l]; [reflexivity |]. simpl. f_equal.
  revert x. induction l as [| y l IH]; intros x; [reflexivity |]. simpl.
  rewrite key_compat.
  destruct (tuple3_ltb (keyA x) (keyA y)); apply IH.
Qed.

End MaxByMap.

(** X5: [pick_target_column] raises exactly when no entry is live, its
    result does not depend on the anchor's row, and moving the anchor and
    the ship by the same number of columns moves the target by that
    number. *)
Theorem pick_target_column_translate (enemies : dict)
    (formation_x formation_y formation_y' ship_x shift : Z) :
  (pick_target_column enemies formation_x formation_y ship_x = None <->
   forall e, e ∈ enemies -> ~ live e) /\
  pick_target_column enemies (formation_x + shift) formation_y' (ship_x + shift)
  = (fun target_x => target_x + shift)
      <$> pick_target_column enemies formation_x formation_y ship_x.
Proof.
  split.
  - unfold pick_target_column, candidates.
    destruct (filter live enemies) as [| e0 es] eqn:Hf; simpl.
    + split; [| reflexivity]. intros _ e He Hl.
      assert (e ∈ filter live enemies) as Hin by (apply list_elem_of_filter; auto).
      rewrite Hf in Hin. inversion Hin.
    + split.
      * destruct (foldl _ _ _) as [[? ?] ?]. discriminate.
      * intros Hnone. exfalso.
        assert (e0 ∈ filter live enemies) as Hin by (rewrite Hf; left).
        apply list_elem_of_filter in Hin as [Hl He]. exact (Hnone e0 He Hl).
  - unfold pick_target_column.
    set (move := fun c : Z * Z * Z =>
                   (c.1.1 + shift, c.1.2 + (formation_y' - formation_y), c.2)).
    assert (candidates enemies (formation_x + shift) formation_y'
            = move <$> candidates enemies formation_x formation_y) as ->.
    { unfold candidates. rewrite <- list_fmap_compose.
      apply list_fmap_ext. intros i [[ex ey] hp] _. unfold move. simpl.
      f_equal. f_equal; lia. }
    rewrite (py_max_by_fmap move (target_key ship_x) (target_key (ship_x + shift))).
    + destruct (py_max_by (target_key ship_x)
                  (candidates enemies formation_x formation_y)) as [[[c r] hp] |];
        reflexivity.
    + intros [[c1 r1] h1] [[c2 r2] h2]. unfold move, target_key. simpl.
      replace (c1 + shift - (ship_x + shift)) with (c1 - ship_x) by lia.
      replace (c2 + shift - (ship_x + shift)) with (c2 - ship_x) by lia.
      set (dy := formation_y' - formation_y).
      assert ((r1 + dy <? r2 + dy) = (r1 <? r2)) as ->
        by (destruct (Z.ltb_spec (r1 + dy) (r2 + dy)), (Z.ltb_spec r1 r2); lia).
      assert ((r1 + dy =? r2 + dy) = (r1 =? r2)) as ->
        by (destruct (Z.eqb_spec (r1 + dy) (r2 + dy)), (Z.eqb_spec r1 r2); lia).
      reflexivity.
Qed.

(** *** The ship on its way *)

(** X6: with the ship and a fixed target on the field, each tick brings
    the ship one column nearer until it stands on the target, where it
    stays: after [n] ticks the distance is [max(0, |target - ship| - n)]. *)
Theorem move_ship_towards_reaches_target (ship_x target_x width : Z) (n : nat) :
  on_field width ship_x -> on_field width target_x ->
  let ship_x' :=
    Nat.iter n (fun x => move_ship_towards x target_x width) ship_x in
  on_field width ship_x' /\
  Z.abs (target_x - ship_x') = Z.max 0 (Z.abs (target_x - ship_x) - Z.of_nat n).
Proof.
  intros Hs Ht. cbv zeta. induction n as [| n IH].
  - simpl. split; [exact Hs | lia].
  - rewrite Nat2Z.inj_succ, Nat.iter_succ.
    destruct IH as [Hx Hd]. revert Hx Hd.
    generalize (Nat.iter n (fun x => move_ship_towards x target_x width) ship_x).
    intros x Hx Hd. unfold on_field, move_ship_towards in *.
    destruct (Z.gtb_spec target_x x); [lia |].
    destruct (Z.ltb_spec target_x x); lia.
Qed.

(** A witness for X6: from column 1 to column 5 on a field of 8 columns,
    in 6 ticks. *)
Lemma move_ship_towards_reaches_target_witness :
  let ship_x' := Nat.iter 6 (fun x => move_ship_towards x 5 8) 1 in
  on_field 8 ship_x' /\
  Z.abs (5 - ship_x') = Z.max 0 (Z.abs (5 - 1) - Z.of_nat 6).
Proof.
  apply (move_ship_towards_reaches_target 1 5 8 6); unfold on_field; lia.
Defined.

(** *** What the bullets take *)

Import ShooterDriver.

Lemma total_hp_set (k : Z * Z) (v old : Z) (d : dict) :
  dict_get k d = Some old -> total_hp (dict_set k v d) = total_hp d - old + v.
Proof.
  unfold total_hp. induction d as [| [k' v'] d IH]; simpl; [discriminate |].
  destruct (coord_eqb k k'); simpl.
  - intros [= ->]. unfold fmap. lia.
  - intros H. specialize (IH H). unfold fmap in IH. lia.
Qed.

Lemma total_hp_del (k : Z * Z) (old : Z) (d : dict) :
  dict_get k d = Some old -> total_hp (dict_del k d) = total_hp d - old.
Proof.
  unfold total_hp. induction d as [| [k' v'] d IH]; simpl; [discriminate |].
  destruct (coord_eqb k k'); simpl.
  - intros [= ->]. unfold fmap. lia.
  - intros H. specialize (IH H). unfold fmap in IH. lia.
Qed.

Lemma total_hp_after_hit (rel : Z * Z) (hp : Z) (enemies : dict) :
  dict_get rel enemies = Some hp -> 0 < hp ->
  total_hp (after_hit rel hp enemies) = total_hp enemies - 1.
Proof.
  intros Hget Hpos. unfold after_hit.
  pose proof (total_hp_set rel (hp - 1) hp enemies Hget) as Hset.
  destruct (Z.leb_spec (hp - 1) 0); [| lia].
  rewrite (total_hp_del rel (hp - 1)); [lia |]. apply dict_get_set_eq.
Qed.

Lemma elem_of_dict_del (k : Z * Z) (d : dict) (e : Z * Z * Z) :
  e ∈ dict_del k d -> e ∈ d.
Proof.
  induction d as [| [k' v'] d IH]; simpl; [auto |].
  destruct (coord_eqb k k').
  - intros H. right. exact H.
  - rewrite !elem_of_cons. intros [-> | H]; auto.
Qed.

Lemma elem_of_dict_set (k : Z * Z) (v old : Z) (d : dict) (e : Z * Z * Z) :
  dict_get k d = Some old -> e ∈ dict_set k v d ->
  e ∈ d \/ (e.2 = v /\ (e.1, old) ∈ d).
Proof.
  induction d as [| [k' v'] d IH]; simpl; [discriminate |].
  destruct (coord_eqb k k'); simpl.
  - intros [= ->]. rewrite !elem_of_cons. intros [-> | H].
    + right. simpl. split; [reflexivity | left; reflexivity].
    + left. right. exact H.
  - intros Hget. rewrite !elem_of_cons. intros [-> | H].
    + left. left. reflexivity.
    + destruct (IH Hget H) as [Hin | [Hv Hin]]; [left; right; exact Hin |].
      right. split; [exact Hv | right; exact Hin].
Qed.

Lemma elem_of_after_hit (rel : Z * Z) (hp : Z) (enemies : dict) (e : Z * Z * Z) :
  dict_get rel enemies = Some hp -> e ∈ after_hit rel hp enemies ->
  exists v, (e.1, v) ∈ enemies /\ e.2 <= v.
Proof.
  intros Hget Hin. unfold after_hit in Hin.
  assert (e ∈ dict_set rel (hp - 1) enemies) as Hset.
  { destruct (hp - 1 <=? 0); [apply elem_of_dict_del in Hin |]; exact Hin. }
  destruct (elem_of_dict_set _ _ _ _ _ Hget Hset) as [He | [Hv He]].
  - exists e.2. split; [destruct e as [k v]; exact He | lia].
  - exists hp. split; [exact He | lia].
Qed.

(** What the inner loop does to the dictionary: nothing unless the bullet
    is destroyed, and never more than one hit point. *)
Lemma advance_bullet_account (n : nat) (b : Bullet) (enemies : dict) (fx fy : Z) :
  ((advance_bullet n b enemies fx fy).1.1 = false ->
   (advance_bullet n b enemies fx fy).2 = enemies) /\
  total_hp enemies - 1 <= total_hp (advance_bullet n b enemies fx fy).2
    <= total_hp enemies /\
  (forall e, e ∈ (advance_bullet n b enemies fx fy).2 ->
             exists v, (e.1, v) ∈ enemies /\ e.2 <= v).
Proof.
  assert (forall d : dict,
             (forall e, e ∈ d -> exists v, (e.1, v) ∈ d /\ e.2 <= v)) as Hsame.
  { intros d [k v] He. exists v. split; [exact He | simpl; lia]. }
  revert b. induction n as [| n IH]; intros b.
  - simpl. split; [reflexivity |]. split; [lia | apply Hsame].
  - cbn [advance_bullet bullet_x bullet_y].
    destruct (bullet_y b - 1 <? 0).
    { simpl. split; [discriminate |]. split; [lia | apply Hsame]. }
    destruct (dict_get _ enemies) as [hp |] eqn:Hget; [| apply IH].
    destruct (Z.ltb_spec 0 hp) as [Hpos | Hnon]; [| apply IH].
    cbn [fst snd].
    fold (after_hit (bullet_x b - fx, bullet_y b - 1 - fy) hp enemies).
    split; [discriminate |]. split.
    + rewrite (total_hp_after_hit _ _ _ Hget Hpos). lia.
    + intros e. apply elem_of_after_hit. exact Hget.
Qed.

(** Without a pass of the inner loop every bullet is kept as it is. *)
Lemma move_bullets_loop_still (bullets : list Bullet) (enemies : dict)
    (fx fy speed : Z) (next : list Bullet) :
  speed <= 0 ->
  move_bullets_loop bullets enemies fx fy speed next = (next ++ bullets, enemies).
Proof.
  intros Hs. revert next. induction bullets as [| b bullets IH]; intros next.
  - simpl. rewrite app_nil_r. reflexivity.
  - cbn [move_bullets_loop].
    replace (Z.to_nat speed) with 0%nat by lia. simpl.
    rewrite IH, <- app_assoc. reflexivity.
Qed.

Lemma move_bullets_loop_account (bullets : list Bullet) (enemies : dict)
    (fx fy speed : Z) (next : list Bullet) :
  let result := move_bullets_loop bullets enemies fx fy speed next in
  (exists kept, kept `sublist_of` bullets /\
                result.1 = next ++ (rise (Z.max 0 speed) <$> kept)) /\
  0 <= total_hp enemies - total_hp result.2
    <= Z.of_nat (length bullets) + Z.of_nat (length next)
       - Z.of_nat (length result.1) /\
  (forall e, e ∈ result.2 -> exists v, (e.1, v) ∈ enemies /\ e.2 <= v).
Proof.
  revert enemies next. induction bullets as [| b bullets IH]; intros enemies next.
  - simpl. split; [exists []; simpl; rewrite app_nil_r; auto using sublist_nil |].
    split; [lia |].
    intros [k v] He. exists v. split; [exact He | simpl; lia].
  - cbn [move_bullets_loop].
    destruct (advance_bullet_account (Z.to_nat speed) b enemies fx fy)
      as (Hkeep & Hhp & Hentries).
    pose proof (advance_bullet_live (Z.to_nat speed) b enemies fx fy) as Hlive.
    destruct (advance_bullet (Z.to_nat speed) b enemies fx fy)
      as [[destroyed b'] e1].
    cbn [fst snd] in *.
    destruct (IH e1 (if destroyed then next else next ++ [b']))
      as ((kept & Hsub & Hres) & Hhp' & Hentries').
    cbv zeta. split; [| split].
    + destruct destroyed.
      * exists kept. split; [apply sublist_cons; exact Hsub | exact Hres].
      * exists (b :: kept). split; [apply sublist_skip; exact Hsub |].
        rewrite Hres, <- app_assoc. simpl.
        destruct (Hlive eq_refl) as [-> _].
        unfold rise. repeat f_equal. lia.
    + destruct destroyed; [| specialize (Hkeep eq_refl); subst e1];
        rewrite ?length_app in Hhp'; simpl in *; lia.
    + intros e He. destruct (Hentries' e He) as (v1 & Hin1 & Hle1).
      destruct (Hentries _ Hin1) as (v & Hin & Hle). simpl in *.
      exists v. split; [exact Hin | lia].
Qed.

(** X7: a call of [move_bullets_and_apply_hits] returns, in their order,
    some of the bullets it was given, each [max(0, bullet_speed)] rows
    further up; the hit points it takes are at most as many as the bullets
    it drops; it adds no enemy and raises no hit point count; with a speed
    of zero or less it changes nothing. *)
Theorem move_bullets_and_apply_hits_account (bullets : list Bullet)
    (enemies : dict) (formation_x formation_y bullet_speed : Z) :
  let result :=
    move_bullets_and_apply_hits bullets enemies formation_x formation_y
      bullet_speed in
  (exists kept, kept `sublist_of` bullets /\
                result.1 = rise (Z.max 0 bullet_speed) <$> kept) /\
  0 <= total_hp enemies - total_hp result.2
    <= Z.of_nat (length bullets) - Z.of_nat (length result.1) /\
  (forall e, e ∈ result.2 -> exists v, (e.1, v) ∈ enemies /\ e.2 <= v) /\
  (bullet_speed <= 0 -> result = (bullets, enemies)).
Proof.
  unfold move_bullets_and_apply_hits. cbv zeta.
  destruct (move_bullets_loop_account bullets enemies formation_x formation_y
              bullet_speed []) as ((kept & Hsub & Hres) & Hhp & Hentries).
  simpl in Hres, Hhp.
  split; [eauto |]. split; [lia |]. split; [exact Hentries |].
  intros Hs. apply (move_bullets_loop_still bullets enemies _ _ _ [] Hs).
Qed.

(** *** The formation stays on the field *)

(** A formation step on live enemies that stand on the field. *)
Lemma step_enemy_formation_total (enemies : dict)
    (width formation_x formation_y direction : Z) :
  Forall live enemies ->
  direction = 1 \/ direction = -1 ->
  (forall e, e ∈ enemies -> on_field width (formation_x + e.1.1)) ->
  exists formation_x' formation_y' direction',
    step_enemy_formation enemies width formation_x formation_y direction
      = Some (formation_x', formation_y', direction') /\
    (direction' = 1 \/ direction' = -1) /\
    (forall e, e ∈ enemies -> on_field width (formation_x' + e.1.1)) /\
    Z.abs (formation_x' - formation_x) <= 1 /\
    formation_y <= formation_y' <= formation_y + 1.
Proof.
  intros Hlive Hdir Hfield.
  destruct enemies as [| e0 es] eqn:Hen.
  { exists formation_x, formation_y, direction. simpl.
    split; [reflexivity |]. split; [exact Hdir |]. split; [exact Hfield | lia]. }
  rewrite <- Hen in *.
  assert (e0 ∈ enemies) as He0 by (rewrite Hen; left).
  rewrite Forall_forall in Hlive.
  destruct (enemy_bounds_spec enemies e0 He0 (Hlive _ He0))
    as (min_x & max_x & min_y & max_y & Hb & [_ Hmin] & [_ Hmax]).
  assert (step_enemy_formation enemies width formation_x formation_y direction
          = if (formation_x + max_x + direction >=? width)
               || (formation_x + min_x + direction <? 0)
            then Some (formation_x, formation_y + 1, direction * -1)
            else Some (formation_x + direction, formation_y, direction)) as ->.
  { unfold step_enemy_formation. rewrite Hen, <- Hen, Hb. reflexivity. }
  destruct ((formation_x + max_x + direction >=? width)
            || (formation_x + min_x + direction <? 0)) eqn:Hbounce.
  - exists formation_x, (formation_y + 1), (direction * -1).
    split; [reflexivity |]. split; [lia |]. split; [exact Hfield | lia].
  - apply orb_false_iff in Hbounce as [H1 H2].
    rewrite Z.geb_leb in H1. apply Z.leb_gt in H1. apply Z.ltb_ge in H2.
    exists (formation_x + direction), formation_y, direction.
    split; [reflexivity |]. split; [exact Hdir |]. split; [| lia].
    intros e He. pose proof (Hmin e He (Hlive _ He)). pose proof (Hmax e He (Hlive _ He)).
    unfold on_field. lia.
Qed.

(** X8: a formation of live enemies that stands on the field and moves one
    column at a time still stands on the field after a formation step; the
    step returns, keeps the direction at one column to the left or right,
    moves the anchor by at most one column and never up. *)
Theorem step_enemy_formation_keeps_field (enemies : dict)
    (width formation_x formation_y direction : Z) :
  Forall live enemies ->
  direction = 1 \/ direction = -1 ->
  (forall e, e ∈ enemies -> on_field width (formation_x + e.1.1)) ->
  exists formation_x' formation_y' direction',
    step_enemy_formation enemies width formation_x formation_y direction
      = Some (formation_x', formation_y', direction') /\
    (direction' = 1 \/ direction' = -1) /\
    (forall e, e ∈ enemies -> on_field width (formation_x' + e.1.1)) /\
    Z.abs (formation_x' - formation_x) <= 1 /\
    formation_y <= formation_y' <= formation_y + 1.
Proof. apply step_enemy_formation_total. Qed.

(** A witness for X8: two enemies on a field of four columns, the right
    one in the last column. *)
Lemma step_enemy_formation_keeps_field_witness :
  exists formation_x' formation_y' direction',
    step_enemy_formation [((0, 0), 2); ((2, 1), 1)] 4 1 2 1
      = Some (formation_x', formation_y', direction') /\
    (direction' = 1 \/ direction' = -1) /\
    (forall e, e ∈ [((0, 0), 2); ((2, 1), 1)] -> on_field 4 (formation_x' + e.1.1)) /\
    Z.abs (formation_x' - 1) <= 1 /\
    2 <= formation_y' <= 2 + 1.
Proof.
  apply (step_enemy_formation_keeps_field [((0, 0), 2); ((2, 1), 1)] 4 1 2 1).
  - apply (bool_decide_unpack _). vm_compute. reflexivity.
  - left. reflexivity.
  - intros e He. apply list_elem_of_In in He. simpl in He.
    destruct He as [<- | [<- | []]]; unfold on_field; simpl; lia.
Defined.

(** *** A run of the loop *)

Lemma retarget_total (enemies : dict) (fx fy sx cur tick : Z) (rnd : draw) :
  formation_ok enemies -> enemies <> [] ->
  is_Some (retarget enemies fx fy sx cur tick rnd).
Proof.
  intros Hok Hne.
  destruct (nonempty_elem _ Hne) as [e0 He0].
  pose proof (formation_ok_live _ _ Hok He0) as Hl0.
  assert (is_Some (pick_target_column enemies fx fy sx)) as Hpick.
  { destruct (pick_target_column_live enemies fx fy sx e0 He0 Hl0)
      as (e & _ & _ & -> & _). eauto. }
  unfold retarget.
  destruct (Z.of_nat (length enemies) >? 220); [| exact Hpick].
  destruct ((tick mod 8 =? 0) || (sx =? cur)); [| eauto].
  destruct (enemy_columns enemies fx) as [| c cs] eqn:Hcols; [eauto |].
  destruct (below_045 (rnd_random rnd)); [| exact Hpick].
  pose proof (nearest_columns_length enemies fx sx) as Hlen.
  rewrite Hcols in Hlen. simpl in Hlen.
  unfold py_choice.
  destruct (nearest_columns enemies fx sx) as [| n ns] eqn:Hnear;
    [simpl in Hlen; lia |].
  apply lookup_lt_is_Some. apply Nat.mod_upper_bound. simpl. lia.
Qed.

(** The keys after a call of [move_bullets_and_apply_hits] are keys from
    before it. *)
Lemma move_bullets_keys (bullets : list Bullet) (enemies enemies' : dict)
    (fx fy speed : Z) (next : list Bullet) (e : Z * Z * Z) :
  move_bullets_and_apply_hits bullets enemies fx fy speed = (next, enemies') ->
  e ∈ enemies' -> e.1 ∈ fst <$> enemies.
Proof.
  intros Heq He. unfold move_bullets_and_apply_hits in Heq.
  destruct (move_bullets_loop_account bullets enemies fx fy speed [])
    as (_ & _ & Hentries).
  rewrite Heq in Hentries. destruct (Hentries e He) as (v & Hin & _).
  apply (list_elem_of_fmap_2 fst) in Hin. exact Hin.
Qed.

(** One pass of the loop from a state that satisfies the invariant: it
    raises nothing, counts one tick, keeps the invariant, takes no hit
    point back, adds no enemy and lets the formation go down only. *)
Lemma loop_body_ok (p : params) (rnd : Z -> draw) (s : state) :
  state_ok p s -> st_enemies s <> [] ->
  1 <= bullet_speed p -> enemy_move_interval p <> 0 ->
  exists s',
    loop_body p rnd s = Some s' /\
    state_ok p s' /\
    st_tick s' = st_tick s + 1 /\
    total_hp (st_enemies s') <= total_hp (st_enemies s) /\
    (length (st_enemies s') <= length (st_enemies s))%nat /\
    st_formation_y s <= st_formation_y s'.
Proof.
  intros (Hok & Hdir & Hfield & Hship) Hne Hspeed Hint.
  unfold loop_body.
  destruct (retarget_total (st_enemies s) (st_formation_x s) (st_formation_y s)
              (st_ship_x s) (st_current_target_x s) (st_tick s + 1)
              (rnd (st_tick s + 1)) Hok Hne) as [target ->].
  simpl.
  set (ship_x := move_ship_towards (st_ship_x s) target (width p)).
  assert (on_field (width p) ship_x) as Hship'.
  { unfold ship_x, on_field, move_ship_towards in *.
    destruct (Z.gtb_spec target (st_ship_x s)); [lia |].
    destruct (Z.ltb_spec target (st_ship_x s)); lia. }
  destruct (if st_cooldown s <=? 0 then _ else _) as [bullets cooldown].
  destruct (move_bullets_loop_spec bullets (st_enemies s) (st_formation_x s)
              (st_formation_y s) (bullet_speed p) [] Hspeed Hok)
    as (next & enemies' & Heq & _ & Hok').
  pose proof (move_bullets_loop_account bullets (st_enemies s) (st_formation_x s)
                (st_formation_y s) (bullet_speed p) []) as (_ & Hhp & _).
  assert (forall e, e ∈ enemies' -> e.1 ∈ fst <$> st_enemies s) as Hkeys.
  { intros e He. eapply move_bullets_keys; [exact Heq | exact He]. }
  unfold move_bullets_and_apply_hits. rewrite Heq in Hhp |- *. simpl in Hhp.
  assert (forall e, e ∈ enemies' ->
                    on_field (width p) (st_formation_x s + e.1.1)) as Hfield'.
  { intros e He. apply Hkeys in He.
    apply list_elem_of_fmap in He as (e1 & -> & He1). apply Hfield. exact He1. }
  assert ((length enemies' <= length (st_enemies s))%nat) as Hlen.
  { rewrite <- (length_fmap fst enemies'), <- (length_fmap fst (st_enemies s)).
    apply submseteq_length. apply NoDup_submseteq; [exact (proj1 Hok') |].
    intros k Hk. apply list_elem_of_fmap in Hk as (e & -> & He). auto. }
  unfold py_mod. destruct (Z.eqb_spec (enemy_move_interval p) 0); [contradiction |].
  simpl.
  assert (Forall live enemies') as Hlive.
  { apply Forall_forall. intros e He. exact (formation_ok_live _ _ Hok' He). }
  destruct (step_enemy_formation_total enemies' (width p) (st_formation_x s)
              (st_formation_y s) (st_enemy_direction s) Hlive Hdir Hfield')
    as (fx' & fy' & d' & Hstep & Hd' & Hf' & _ & Hy').
  destruct (((st_tick s + 1) mod enemy_move_interval p =? 0)
            && negb (bool_decide (enemies' = []))).
  - rewrite Hstep. simpl. eexists. split; [reflexivity |].
    split; [| simpl; split; [reflexivity | split; [lia | split; [exact Hlen | lia]]]].
    split; [exact Hok' |]. split; [exact Hd' |]. split; [exact Hf' | exact Hship'].
  - simpl. eexists. split; [reflexivity |].
    split; [| simpl; split; [reflexivity | split; [lia | split; [exact Hlen | lia]]]].
    split; [exact Hok' |]. split; [exact Hdir |]. split; [exact Hfield' | exact Hship'].
Qed.

Lemma run_ok (n : nat) (p : params) (rnd : Z -> draw) (s : state) :
  state_ok p s -> 1 <= bullet_speed p -> enemy_move_interval p <> 0 ->
  exists s',
    run n p rnd s = Some s' /\
    state_ok p s' /\
    st_tick s <= st_tick s' <= st_tick s + Z.of_nat n /\
    (st_enemies s' = [] \/ st_tick s' = st_tick s + Z.of_nat n) /\
    total_hp (st_enemies s') <= total_hp (st_enemies s) /\
    (length (st_enemies s') <= length (st_enemies s))%nat /\
    st_formation_y s <= st_formation_y s'.
Proof.
  intros Hok Hspeed Hint. revert s Hok.
  induction n as [| n IH]; intros s Hok.
  - exists s. simpl. split; [reflexivity |]. split; [exact Hok |].
    split; [lia |]. split; [right; lia |]. split; [lia |]. split; lia.
  - cbn [run]. destruct (st_enemies s) as [| e es] eqn:Hen.
    + exists s. split; [reflexivity |]. split; [exact Hok |]. rewrite Hen.
      split; [lia |]. split; [left; reflexivity |]. split; [lia |]. split; lia.
    + rewrite <- Hen.
      destruct (loop_body_ok p rnd s Hok ltac:(rewrite Hen; discriminate) Hspeed Hint)
        as (s1 & -> & Hok1 & Htick & Hhp & Hlen & Hy).
      simpl.
      destruct (IH s1 Hok1) as (s' & Hrun & Hok' & Ht' & Hend & Hhp' & Hlen' & Hy').
      exists s'. split; [exact Hrun |]. split; [exact Hok' |].
      split; [lia |]. split; [destruct Hend; [left; assumption | right; lia] |].
      split; [lia |]. split; lia.
Qed.

Lemma build_row_keys_upper (y x : Z) (row : list Z) (k : Z * Z) :
  k ∈ fst <$> build_row y x row -> k.1 < x + Z.of_nat (length row).
Proof.
  revert x. induction row as [| level row IH]; intros x; simpl.
  - intros H. inversion H.
  - rewrite fmap_app, elem_of_app. intros [H | H].
    + destruct (0 <? level); simpl in H; [| inversion H].
      apply list_elem_of_singleton in H as ->. simpl. lia.
    + apply IH in H. lia.
Qed.

Lemma build_rows_keys_upper (y w : Z) (g : list (list Z)) (k : Z * Z) :
  Forall (fun row => Z.of_nat (length row) = w) g ->
  k ∈ fst <$> build_rows y g -> 0 <= k.1 < w.
Proof.
  revert y. induction g as [| row g IH]; intros y Hw; simpl.
  - intros H. inversion H.
  - apply Forall_cons in Hw as [Hrow Hw].
    rewrite fmap_app, elem_of_app. intros [H | H].
    + pose proof (build_row_keys _ _ _ _ H). apply build_row_keys_upper in H. lia.
    + eapply IH; eassumption.
Qed.

Lemma total_hp_app (d1 d2 : dict) : total_hp (d1 ++ d2) = total_hp d1 + total_hp d2.
Proof.
  unfold total_hp. induction d1 as [| [k v] d1 IH]; [reflexivity |].
  simpl. unfold fmap in *. lia.
Qed.

Lemma total_hp_build_row (y x : Z) (row : list Z) :
  Forall (fun v => 0 <= v <= 4) row ->
  0 <= total_hp (build_row y x row) <= 4 * Z.of_nat (length row).
Proof.
  revert x. induction row as [| level row IH]; intros x Hrow.
  - unfold total_hp. simpl. lia.
  - apply Forall_cons in Hrow as [Hlevel Hrow]. specialize (IH (x + 1) Hrow).
    cbn [build_row]. rewrite total_hp_app, length_cons, Nat2Z.inj_succ.
    destruct (0 <? level); unfold total_hp at 1 3; simpl; lia.
Qed.

Lemma total_hp_build_rows (y w : Z) (g : list (list Z)) :
  Forall (fun row => Z.of_nat (length row) = w) g ->
  Forall (Forall (fun v => 0 <= v <= 4)) g ->
  0 <= total_hp (build_rows y g) <= 4 * w * Z.of_nat (length g).
Proof.
  revert y. induction g as [| row g IH]; intros y Hw Hlev.
  - unfold total_hp. simpl. lia.
  - apply Forall_cons in Hw as [Hrow Hw]. apply Forall_cons in Hlev as [Hl Hlev].
    specialize (IH (y + 1) Hw Hlev).
    pose proof (total_hp_build_row y 0 row Hl).
    cbn [build_rows]. rewrite total_hp_app, length_cons, Nat2Z.inj_succ. nia.
Qed.

(** The first state and the constants on a rectangular grid with levels
    in 0..4, when the set-up raises nothing. *)
Lemma initial_ok (g : list (list Z)) (w h : Z) (p : params) (s : state) :
  Ant.rectangular g w h -> Ant.levels_ok g -> build_enemies g <> [] ->
  initial g = Some (p, s) ->
  width p = w + 2 /\ ship_y p = h + 28 /\ bullet_speed p = 2 /\
  fire_cooldown_ticks p = 0 /\
  compute_enemy_move_interval (total_hp (build_enemies g)) (w + 2) 24
  = Some (enemy_move_interval p) /\
  state_ok p s /\
  st_enemies s = build_enemies g /\ st_tick s = 0 /\
  st_formation_x s = 1 /\ st_formation_y s = 2 /\ st_bullets s = [] /\
  st_ship_x s = (w + 2) / 2.
Proof.
  intros [Hh Hw] Hlev Hne. unfold initial.
  destruct g as [| row0 g']; [contradiction Hne; reflexivity |].
  rewrite py_index_nonneg by lia. simpl lookup. cbn [mbind option_bind].
  assert (Z.of_nat (length row0) = w) as Hw0
    by (apply Forall_cons in Hw as [H0 _]; exact H0).
  rewrite Hw0.
  assert (Z.of_nat (length (row0 :: g')) + 30 - 2 = h + 28) as -> by lia.
  assert (Z.max 3 (h + 28 - (2 + Z.of_nat (length (row0 :: g'))) - 2) = 24)
    as -> by lia.
  destruct (compute_enemy_move_interval _ _ _) as [interval |];
    cbn [mbind option_bind]; [| discriminate].
  intros [= <- <-]. simpl.
  repeat (split; [reflexivity |]).
  split; [| repeat split; reflexivity].
  split; [apply build_enemies_ok; exact Hlev |]. simpl.
  split; [left; reflexivity |].
  assert (0 <= w) as Hwpos by lia.
  split.
  - intros e He. apply (list_elem_of_fmap_2 fst) in He.
    apply (build_rows_keys_upper 0 w) in He; [| exact Hw].
    unfold on_field. lia.
  - unfold on_field.
    pose proof (Z.div_pos (w + 2) 2 ltac:(lia) ltac:(lia)).
    pose proof (Z.div_le_upper_bound (w + 2) 2 (w + 1) ltac:(lia) ltac:(lia)). lia.
Qed.

(** The interval of a run is never 0. *)
Lemma initial_interval (g : list (list Z)) (w h : Z) (p : params) (s : state) :
  Ant.rectangular g w h -> Ant.levels_ok g -> build_enemies g <> [] ->
  initial g = Some (p, s) -> 28 <= enemy_move_interval p <= 180.
Proof.
  intros Hrect Hlev Hne Hinit.
  destruct (initial_ok g w h p s Hrect Hlev Hne Hinit)
    as (_ & _ & _ & _ & Hint & _).
  exact (FloatSpec.compute_enemy_move_interval_range _ _ _ _ Hint).
Qed.

(** On a grid that a list can hold, the set-up raises nothing: the hit
    points are at most [4 * w * h], far from the largest double. *)
Lemma initial_total (g : list (list Z)) (w h : Z) :
  Ant.rectangular g w h -> Ant.levels_ok g -> build_enemies g <> [] ->
  w <= sys_maxsize -> h <= sys_maxsize ->
  exists p s, initial g = Some (p, s).
Proof.
  intros [Hh Hw] Hlev Hne Hwmax Hhmax. unfold initial.
  pose proof (total_hp_build_rows 0 w g Hw Hlev) as Hhp.
  fold (build_enemies g) in Hhp.
  destruct g as [| row0 g']; [contradiction Hne; reflexivity |].
  rewrite py_index_nonneg by lia. simpl lookup. cbn [mbind option_bind].
  assert (Z.of_nat (length row0) = w) as Hw0
    by (apply Forall_cons in Hw as [H0 _]; exact H0).
  rewrite Hw0. unfold sys_maxsize in *.
  assert (0 <= w) as Hwpos by lia.
  destruct (FloatSpec.compute_enemy_move_interval_total
              (total_hp (build_enemies (row0 :: g'))) (w + 2)
              (Z.max 3 (Z.of_nat (length (row0 :: g')) + 30 - 2
                        - (2 + Z.of_nat (length (row0 :: g'))) - 2)))
    as (i & -> & _).
  - split; [lia |]. rewrite Hh in Hhp.
    apply Z.le_trans with (4 * w * h); [lia |].
    apply Z.le_trans with (4 * 2 ^ 63 * 2 ^ 63); [nia | lia].
  - split; [lia |]. apply Z.le_trans with (2 ^ 64); lia.
  - cbn [mbind option_bind]. eauto.
Qed.

(** A grid with hit points beyond the range of a double, which no list
    can hold, would stop the set-up with an [OverflowError]: the bounds
    of [initial_total] are not idle. *)
Lemma initial_overflow (g : list (list Z)) :
  2 ^ 1024 <= total_hp (build_enemies g) -> initial g = None.
Proof.
  intros Hbig. unfold initial.
  destruct (py_index g 0) as [row0 |]; [| reflexivity].
  cbn [mbind option_bind].
  rewrite FloatSpec.compute_enemy_move_interval_raises; [reflexivity |].
  left. exact Hbig.
Qed.

Lemma generate_gif_initial (g : list (list Z)) (max_ticks : Z) (rnd : Z -> draw) :
  Shooter.generate_gif g max_ticks rnd
  = match build_enemies g with
    | [] => NoEnemiesFound
    | _ =>
        match initial g with
        | None => Raised
        | Some (p, s) =>
            match run (Z.to_nat max_ticks) p rnd s with
            | Some s' => Stopped s'
            | None => Raised
            end
        end
    end.
Proof.
  unfold Shooter.generate_gif, initial.
  destruct (build_enemies g); [reflexivity |].
  destruct (py_index g 0); [| reflexivity]. cbn [mbind option_bind].
  destruct (compute_enemy_move_interval _ _ _); reflexivity.
Qed.

(** X9: on a rectangular grid with levels in 0..4, of a size that a
    list can have, the shooter's [generate_gif] raises nothing but its
    own "No enemies found": it stops after at most [max_ticks] ticks, with
    the field cleared or the budget used up; the enemies it stops with
    have no more hit points in total and are no more than it started
    with, and the formation never stands above its first row. *)
Theorem generate_gif_stops (g : list (list Z)) (w h max_ticks : Z)
    (rnd : Z -> draw) :
  Ant.rectangular g w h -> Ant.levels_ok g ->
  w <= sys_maxsize -> h <= sys_maxsize ->
  (Shooter.generate_gif g max_ticks rnd = NoEnemiesFound /\ build_enemies g = []) \/
  exists s,
    Shooter.generate_gif g max_ticks rnd = Stopped s /\
    0 <= st_tick s <= Z.max 0 max_ticks /\
    (st_enemies s = [] \/ st_tick s = Z.max 0 max_ticks) /\
    total_hp (st_enemies s) <= total_hp (build_enemies g) /\
    (length (st_enemies s) <= length (build_enemies g))%nat /\
    2 <= st_formation_y s.
Proof.
  intros Hrect Hlev Hwmax Hhmax. rewrite generate_gif_initial.
  destruct (build_enemies g) as [| e es] eqn:Hen; [left; auto | right].
  rewrite <- Hen.
  assert (build_enemies g <> []) as Hne by (rewrite Hen; discriminate).
  destruct (initial_total g w h Hrect Hlev Hne Hwmax Hhmax) as (p & s & Hinit).
  rewrite Hinit.
  pose proof (initial_interval g w h p s Hrect Hlev Hne Hinit) as Hint.
  destruct (initial_ok g w h p s Hrect Hlev Hne Hinit)
    as (_ & _ & Hspeed & _ & _ & Hok & Hens & Htick & _ & Hy & _).
  destruct (run_ok (Z.to_nat max_ticks) p rnd s Hok ltac:(lia) ltac:(lia))
    as (s' & -> & _ & Ht & Hend & Hhp & Hlen & Hy').
  exists s'. split; [reflexivity |]. rewrite Hens in *. rewrite Htick in *.
  split; [lia |]. split; [destruct Hend; [left; assumption | right; lia] |].
  split; [exact Hhp |]. split; [exact Hlen | lia].
Qed.

(** A witness for X9: a grid of 2 rows and 2 columns with one cell of
    level 3, and 50 ticks. *)
Lemma generate_gif_stops_witness :
  (Shooter.generate_gif [[0; 3]; [0; 0]] 50 (fun _ => mkDraw 0 0) = NoEnemiesFound
   /\ build_enemies [[0; 3]; [0; 0]] = []) \/
  exists s,
    Shooter.generate_gif [[0; 3]; [0; 0]] 50 (fun _ => mkDraw 0 0) = Stopped s /\
    0 <= st_tick s <= Z.max 0 50 /\
    (st_enemies s = [] \/ st_tick s = Z.max 0 50) /\
    total_hp (st_enemies s) <= total_hp (build_enemies [[0; 3]; [0; 0]]) /\
    (length (st_enemies s) <= length (build_enemies [[0; 3]; [0; 0]]%Z))%nat /\
    2 <= st_formation_y s.
Proof.
  apply (generate_gif_stops [[0; 3]; [0; 0]] 2 2 50 (fun _ => mkDraw 0 0)).
  - split; [reflexivity |]. apply (bool_decide_unpack _). vm_compute. reflexivity.
  - apply (bool_decide_unpack _). vm_compute. reflexivity.
  - unfold sys_maxsize. lia.
  - unfold sys_maxsize. lia.
Defined.

(** X10: in the state the shooter stops in on a rectangular grid of [w]
    columns with levels in 0..4, every enemy and the ship stand in a
    column of the field, which is [w + 2] columns wide, and the direction
    is one column to the left or to the right. *)
Theorem generate_gif_on_field (g : list (list Z)) (w h max_ticks : Z)
    (rnd : Z -> draw) (s : state) :
  Ant.rectangular g w h -> Ant.levels_ok g ->
  Shooter.generate_gif g max_ticks rnd = Stopped s ->
  (forall e, e ∈ st_enemies s -> 0 <= st_formation_x s + e.1.1 <= w + 1) /\
  0 <= st_ship_x s <= w + 1 /\
  (st_enemy_direction s = 1 \/ st_enemy_direction s = -1).
Proof.
  intros Hrect Hlev. rewrite generate_gif_initial.
  destruct (build_enemies g) as [| e es] eqn:Hen; [discriminate |].
  assert (build_enemies g <> []) as Hne by (rewrite Hen; discriminate).
  destruct (initial g) as [[p s0] |] eqn:Hinit; [| discriminate].
  pose proof (initial_interval g w h p s0 Hrect Hlev Hne Hinit) as Hint.
  destruct (initial_ok g w h p s0 Hrect Hlev Hne Hinit)
    as (Hwidth & _ & Hspeed & _ & _ & Hok & _).
  destruct (run_ok (Z.to_nat max_ticks) p rnd s0 Hok ltac:(lia) ltac:(lia))
    as (s' & -> & (_ & Hdir & Hfield & Hship) & _).
  intros [= <-]. unfold on_field in *. rewrite Hwidth in *.
  split; [intros e0 He0; specialize (Hfield e0 He0); lia |].
  split; [lia | exact Hdir].
Qed.

(** A witness for X10: the same grid and budget. *)
Lemma generate_gif_on_field_witness :
  exists s,
    Shooter.generate_gif [[0; 3]; [0; 0]] 50 (fun _ => mkDraw 0 0) = Stopped s /\
    (forall e, e ∈ st_enemies s -> 0 <= st_formation_x s + e.1.1 <= 2 + 1) /\
    0 <= st_ship_x s <= 2 + 1 /\
    (st_enemy_direction s = 1 \/ st_enemy_direction s = -1).
Proof.
  eexists. split; [vm_compute; reflexivity |].
  apply (generate_gif_on_field [[0; 3]; [0; 0]] 2 2 50 (fun _ => mkDraw 0 0)).
  - split; [reflexivity |]. apply (bool_decide_unpack _). vm_compute. reflexivity.
  - apply (bool_decide_unpack _). vm_compute. reflexivity.
  - vm_compute. reflexivity.
Defined.

(** *** The bullets in flight *)

Lemma loop_body_bullets (p : params) (rnd : Z -> draw) (s s' : state) :
  loop_body p rnd s = Some s' ->
  1 <= bullet_speed p -> fire_cooldown_ticks p = 0 ->
  on_field (width p) (st_ship_x s) -> bullets_ok p s ->
  on_field (width p) (st_ship_x s') /\ bullets_ok p s'.
Proof.
  intros Hbody Hspeed Hfire Hship [Hcool Hbullets].
  assert (forall t, on_field (width p)
                      (move_ship_towards (st_ship_x s) t (width p))) as Hmoved.
  { intros t. revert Hship. unfold on_field, move_ship_towards.
    destruct (Z.gtb_spec t (st_ship_x s)); [lia |].
    destruct (Z.ltb_spec t (st_ship_x s)); lia. }
  unfold loop_body in Hbody.
  destruct (retarget _ _ _ _ _ _ _) as [t |]; simpl in Hbody; [| discriminate].
  specialize (Hmoved t).
  set (ship_x := move_ship_towards (st_ship_x s) t (width p)) in *.
  remember (if st_cooldown s <=? 0 then _ else _) as fired eqn:Hfired in Hbody.
  assert (fired.2 = 0 /\
          Forall (fun b => on_field (width p) (bullet_x b) /\
                           bullet_y b <= ship_y p - 1) fired.1) as (Hc & Hb).
  { rewrite Hfired, Hcool. simpl.
    assert (Forall (fun b => on_field (width p) (bullet_x b) /\
                             bullet_y b <= ship_y p - 1) (st_bullets s)) as Hold.
    { eapply Forall_impl; [exact Hbullets |]. simpl.
      intros b [Hbx Hby]. split; [exact Hbx | lia]. }
    destruct (has_enemy_ahead _ _ _ _ _); simpl.
    - split; [exact Hfire |].
      apply Forall_app. split; [exact Hold |].
      constructor; [| constructor]. simpl. split; [exact Hmoved | lia].
    - split; [reflexivity | exact Hold]. }
  destruct fired as [bullets cooldown]. simpl in Hc, Hb. subst cooldown.
  destruct (move_bullets_and_apply_hits bullets _ _ _ _) as [next enemies'] eqn:Hmove.
  assert (Forall (fun b => on_field (width p) (bullet_x b) /\
                           0 <= bullet_y b <= ship_y p - 1 - bullet_speed p) next)
    as Hnext.
  { apply Forall_forall. intros b' Hb'.
    pose proof (move_bullets_loop_flight bullets (st_enemies s) (st_formation_x s)
                  (st_formation_y s) (bullet_speed p) [] b') as Hfl.
    unfold move_bullets_and_apply_hits in Hmove. rewrite Hmove in Hfl.
    destruct (Hfl Hb') as [Hnil | (b & e & Hin & Hflight)]; [inversion Hnil |].
    destruct (flight_live _ _ _ _ Hspeed Hflight) as (Hbx & Hby & Hpos).
    rewrite Forall_forall in Hb. destruct (Hb _ Hin) as [Hfx Hfy].
    simpl in Hby. rewrite Hbx. split; [exact Hfx |].
    specialize (Hpos ltac:(discriminate)). lia. }
  destruct (py_mod _ _) as [phase |]; simpl in Hbody; [| discriminate].
  destruct (if (phase =? 0) && _ then _ else _) as [[[fx fy] dir] |];
    simpl in Hbody; [| discriminate].
  injection Hbody as <-. simpl. split; [exact Hmoved |].
  split; [reflexivity | exact Hnext].
Qed.

Lemma run_bullets (n : nat) (p : params) (rnd : Z -> draw) (s s' : state) :
  run n p rnd s = Some s' ->
  1 <= bullet_speed p -> fire_cooldown_ticks p = 0 ->
  on_field (width p) (st_ship_x s) -> bullets_ok p s ->
  bullets_ok p s'.
Proof.
  intros Hrun Hspeed Hfire. revert s Hrun.
  induction n as [| n IH]; intros s Hrun Hship Hb; simpl in Hrun.
  - injection Hrun as <-. exact Hb.
  - destruct (st_enemies s); [injection Hrun as <-; exact Hb |].
    destruct (loop_body p rnd s) as [s1 |] eqn:Hbody; simpl in Hrun; [| discriminate].
    destruct (loop_body_bullets _ _ _ _ Hbody Hspeed Hfire Hship Hb) as [Hship1 Hb1].
    exact (IH s1 Hrun Hship1 Hb1).
Qed.

(** X16: in the state the shooter stops in on a rectangular grid of [w]
    columns and [h] rows, no cooldown is pending and every bullet in
    flight is inside the picture: in a column of the field, not above row
    0, and not below row [h + 25], three rows above the ship. *)
Theorem generate_gif_bullets (g : list (list Z)) (w h max_ticks : Z)
    (rnd : Z -> draw) (s : state) :
  Ant.rectangular g w h ->
  Shooter.generate_gif g max_ticks rnd = Stopped s ->
  st_cooldown s = 0 /\
  Forall (fun b => 0 <= bullet_x b <= w + 1 /\ 0 <= bullet_y b <= h + 25)
         (st_bullets s).
Proof.
  intros [Hh Hw]. unfold Shooter.generate_gif.
  destruct (build_enemies g) as [| e es]; [discriminate |].
  destruct g as [| row0 g']; [simpl; discriminate |].
  rewrite py_index_nonneg by lia. simpl lookup. cbv iota beta.
  apply Forall_cons in Hw as [Hw0 _]. rewrite Hw0.
  destruct (compute_enemy_move_interval _ _ _) as [interval |];
    [| discriminate].
  match goal with
  | |- context [run ?n ?p ?r ?s0] =>
      destruct (run n p r s0) as [s1 |] eqn:Hrun; [| discriminate];
      intros [= <-];
      pose proof (run_bullets n p r s0 s1 Hrun) as Hb
  end.
  simpl in Hb. unfold bullets_ok, on_field in Hb. simpl in Hb.
  assert (0 <= w) as Hwpos by lia.
  destruct Hb as [Hc Hall]; [lia | reflexivity | | split; [reflexivity | constructor] |].
  - pose proof (Z.div_pos (w + 2) 2 ltac:(lia) ltac:(lia)).
    pose proof (Z.div_le_upper_bound (w + 2) 2 (w + 1) ltac:(lia) ltac:(lia)). lia.
  - split; [exact Hc |]. eapply Forall_impl; [exact Hall |].
    simpl in Hh |- *. intros b Hb'. lia.
Qed.

(** A witness for X16: 18 ticks on a grid of 7 rows and 3 columns. *)
Lemma generate_gif_bullets_witness :
  exists s,
    Shooter.generate_gif
      [[0; 0; 1]; [0; 0; 0]; [0; 0; 0]; [0; 0; 0]; [0; 0; 0]; [0; 0; 0]; [0; 1; 0]]
      18 (fun _ => mkDraw 0 0) = Stopped s /\
    st_cooldown s = 0 /\
    Forall (fun b => 0 <= bullet_x b <= 3 + 1 /\ 0 <= bullet_y b <= 7 + 25)
           (st_bullets s).
Proof.
  eexists. split; [vm_compute; reflexivity |].
  apply (generate_gif_bullets
           [[0; 0; 1]; [0; 0; 0]; [0; 0; 0]; [0; 0; 0]; [0; 0; 0]; [0; 0; 0]; [0; 1; 0]]
           3 7 18 (fun _ => mkDraw 0 0)).
  - split; [reflexivity |]. apply (bool_decide_unpack _). vm_compute. reflexivity.
  - vm_compute. reflexivity.
Defined.

(** *** The pacing of the program *)

(** X11: for a rectangular grid of at most 128 rows with levels in 0..4
    (the grid source builds 7 rows), as wide as a list can be, the move
    interval that [generate_gif] computes is 28, whatever the grid holds:
    the estimate never lifts the quotient above the lower clamp, not
    even with the roundings of the float operations, and the number of
    descents it divides by is always 24. *)
Theorem generate_gif_move_interval (g : list (list Z)) (w h : Z) :
  Ant.rectangular g w h -> Ant.levels_ok g -> h <= 128 ->
  w <= sys_maxsize ->
  build_enemies g <> [] ->
  exists p s, initial g = Some (p, s) /\ enemy_move_interval p = 28.
Proof.
  intros Hrect Hlev Hh Hwmax Hne.
  destruct (initial_total g w h Hrect Hlev Hne Hwmax
              ltac:(unfold sys_maxsize; lia)) as (p & s & Hinit).
  exists p, s. split; [exact Hinit |].
  destruct (initial_ok g w h p s Hrect Hlev Hne Hinit)
    as (_ & _ & _ & _ & Hint & _).
  destruct Hrect as [Hlen Hw].
  pose proof (total_hp_build_rows 0 w g Hw Hlev) as Hhp.
  fold (build_enemies g) in Hhp.
  assert (0 <= w) as Hwpos.
  { destruct g as [| row g']; [contradiction Hne; reflexivity |].
    apply Forall_cons in Hw as [H0 _]. lia. }
  set (T := total_hp (build_enemies g)) in *.
  assert (0 <= T <= 512 * w) as HT by nia.
  unfold sys_maxsize in Hwmax.
  rewrite FloatSpec.compute_enemy_move_interval_small in Hint.
  - injection Hint as <-. reflexivity.
  - split; [lia |]. apply Z.le_trans with (2 ^ 73); lia.
  - split; [lia |]. apply Z.le_trans with (2 ^ 64); lia.
  - rewrite (Z.max_r 1 ((w + 2) * 24)) by lia.
    rewrite inject_Z_mult, inject_Z_plus.
    assert (inject_Z T <= 512 * inject_Z w)%Q as QT.
    { change 512%Q with (inject_Z 512).
      rewrite <- inject_Z_mult, <- Zle_Qle. lia. }
    assert (0 <= inject_Z T)%Q as QT0 by (apply FloatSpec.inject_Z_nonneg; lia).
    assert (0 <= inject_Z w)%Q as Qw0 by (apply FloatSpec.inject_Z_nonneg; lia).
    change (inject_Z 2) with 2%Q. change (inject_Z 24) with 24%Q.
    set (t := inject_Z T) in *. set (v := inject_Z w) in *.
    clearbody t v. lra.
Qed.

(** A witness for X11: a grid of 2 rows and 2 columns full of level 4. *)
Lemma generate_gif_move_interval_witness :
  exists p s, initial [[4; 4]; [4; 4]] = Some (p, s) /\ enemy_move_interval p = 28.
Proof.
  apply (generate_gif_move_interval [[4; 4]; [4; 4]] 2 2).
  - split; [reflexivity |]. apply (bool_decide_unpack _). vm_compute. reflexivity.
  - apply (bool_decide_unpack _). vm_compute. reflexivity.
  - lia.
  - unfold sys_maxsize. lia.
  - discriminate.
Defined.

(** X17: [compute_enemy_move_interval] returns nothing outside 28..180;
    it returns for every pair of operands between 0 and [2^200], whatever
    [max_descents] is, also 0 or negative, since the divisor is at least
    1; and it raises [OverflowError] when [total_hp] or [width * 6] is
    [2^1024] or more, too large to become a float. *)
Theorem compute_enemy_move_interval_domain (total_hp width max_descents : Z) :
  (forall i,
      compute_enemy_move_interval total_hp width max_descents = Some i ->
      28 <= i <= 180) /\
  (0 <= total_hp <= 2 ^ 200 -> 0 <= width <= 2 ^ 200 ->
   is_Some (compute_enemy_move_interval total_hp width max_descents)) /\
  (2 ^ 1024 <= total_hp \/ 2 ^ 1024 <= width * 6 ->
   compute_enemy_move_interval total_hp width max_descents = None).
Proof.
  split; [| split].
  - intros i Hi. exact (FloatSpec.compute_enemy_move_interval_range _ _ _ _ Hi).
  - intros Hhp Hw.
    destruct (FloatSpec.compute_enemy_move_interval_total
                total_hp width max_descents Hhp Hw) as (i & -> & _).
    eexists. reflexivity.
  - apply FloatSpec.compute_enemy_move_interval_raises.
Qed.

End ShooterMore.

(** ** The shooter script from the page to the frames *)

Module ShooterDriverSpec.
Import Shooter ShooterSpec ShooterDriver ShooterMore.

Lemma loop_body_tick (p : params) (rnd : Z -> draw) (s s' : state) :
  loop_body p rnd s = Some s' -> st_tick s' = st_tick s + 1.
Proof.
  unfold loop_body. intros H.
  destruct (retarget _ _ _ _ _ _ _) as [t |]; simpl in H; [| discriminate].
  destruct (if st_cooldown s <=? 0 then _ else _) as [bullets cooldown].
  destruct (move_bullets_and_apply_hits _ _ _ _ _) as [bullets' enemies'].
  destruct (py_mod _ _) as [phase |]; simpl in H; [| discriminate].
  destruct (if (phase =? 0) && _ then _ else _) as [[[fx fy] dir] |];
    simpl in H; [| discriminate].
  injection H as <-. reflexivity.
Qed.

(** The loop with frames runs as the loop without, appends at most one
    frame a tick, one every tick when [render_every] is 1, and ends on a
    frame of the last state when that state has no enemies. *)
Lemma run_frames_spec (n : nat) (p : params) (rnd : Z -> draw) (render_every : Z)
    (s s' : state) (frames frames' : list frame) :
  run_frames n p rnd render_every s frames = Some (s', frames') ->
  run n p rnd s = Some s' /\
  exists new,
    frames' = frames ++ new /\
    Z.of_nat (length new) <= st_tick s' - st_tick s /\
    (render_every = 1 -> Z.of_nat (length new) = st_tick s' - st_tick s) /\
    (st_enemies s' = [] ->
     (st_enemies s = [] -> last frames = Some (snapshot s)) ->
     last frames' = Some (snapshot s')).
Proof.
  revert s frames. induction n as [| n IH]; intros s frames Hrun.
  - simpl in Hrun. injection Hrun as <- <-. split; [reflexivity |].
    exists []. rewrite app_nil_r. split; [reflexivity |]. simpl.
    split; [lia |]. split; [lia | auto].
  - cbn [run_frames run] in *. destruct (st_enemies s) as [| e es] eqn:Hen.
    + injection Hrun as <- <-. split; [reflexivity |].
      exists []. rewrite app_nil_r. split; [reflexivity |]. simpl.
      split; [lia |]. split; [lia |]. intros _ Hlast. apply Hlast. reflexivity.
    + destruct (loop_body p rnd s) as [s1 |] eqn:Hbody; simpl in Hrun;
        [| discriminate].
      pose proof (loop_body_tick _ _ _ _ Hbody) as Htick.
      destruct (py_mod (st_tick s1) render_every) as [phase |] eqn:Hphase;
        simpl in Hrun; [| discriminate].
      destruct (IH _ _ Hrun) as (Hrun' & new & Hfr & Hlen & Hone & Hlast).
      simpl. split; [exact Hrun' |].
      destruct ((phase =? 0) || bool_decide (st_enemies s1 = [])) eqn:Hshow.
      * exists (snapshot s1 :: new). split; [rewrite Hfr, <- app_assoc; reflexivity |].
        simpl length. split; [lia |]. split; [intros; lia |].
        intros Hclear _. apply Hlast; [exact Hclear |].
        intros _. apply last_snoc.
      * exists new. split; [exact Hfr |]. split; [lia |]. split.
        -- intros ->. exfalso. unfold py_mod in Hphase. simpl in Hphase.
           injection Hphase as <-. rewrite Z.mod_1_r in Hshow. discriminate.
        -- intros Hclear _. apply Hlast; [exact Hclear |].
           intros Hs1. exfalso. apply orb_false_iff in Hshow as [_ Hdec].
           apply bool_decide_eq_false in Hdec. contradiction.
Qed.

Lemma run_frames_total (n : nat) (p : params) (rnd : Z -> draw) (render_every : Z)
    (s s' : state) (frames : list frame) :
  render_every <> 0 -> run n p rnd s = Some s' ->
  exists frames', run_frames n p rnd render_every s frames = Some (s', frames').
Proof.
  intros Hre. revert s frames. induction n as [| n IH]; intros s frames Hrun.
  - simpl in *. injection Hrun as <-. eauto.
  - cbn [run_frames run] in *. destruct (st_enemies s) as [| e es].
    + injection Hrun as <-. eauto.
    + destruct (loop_body p rnd s) as [s1 |]; simpl in *; [| discriminate].
      unfold py_mod. destruct (Z.eqb_spec render_every 0); [contradiction |].
      simpl. apply IH. exact Hrun.
Qed.

Lemma hold_replicate (n : nat) (frames : list frame) (f : frame) :
  last frames = Some f -> hold n frames = frames ++ replicate n f.
Proof.
  revert frames. induction n as [| n IH]; intros frames Hlast; simpl.
  - rewrite app_nil_r. reflexivity.
  - unfold py_last. rewrite Hlast.
    rewrite (IH _ (last_snoc f frames)), <- app_assoc. reflexivity.
Qed.

(** X12: the frames that the shooter's [generate_gif] saves are the frames
    it rendered followed by [final_hold_frames] copies of the last of
    them.  It rendered the first state and at most one frame a tick,
    exactly one a tick when [render_every] is 1; if the run cleared the
    field, the last rendered frame shows the cleared field. *)
Theorem generate_gif_frames (cells : list Cell)
    (max_ticks render_every final_hold_frames : Z) (rnd : Z -> draw)
    (frames : list frame) (s : state) :
  generate_gif cells max_ticks render_every final_hold_frames rnd
    = Saved frames s ->
  exists shown last_frame,
    frames = shown ++ replicate (Z.to_nat final_hold_frames) last_frame /\
    last shown = Some last_frame /\
    (exists first, head shown = Some first /\ fr_bullets first = []
                   /\ fr_formation_x first = 1 /\ fr_formation_y first = 2) /\
    1 <= Z.of_nat (length shown) <= 1 + st_tick s /\
    (render_every = 1 -> Z.of_nat (length shown) = 1 + st_tick s) /\
    (st_enemies s = [] -> last_frame = snapshot s).
Proof.
  unfold generate_gif.
  destruct (fetch_contribution_grid cells) as [| | g]; try discriminate.
  destruct (build_enemies g) as [| e es] eqn:Hen; [discriminate |].
  destruct (initial g) as [[p s0] |] eqn:Hinit; [| discriminate].
  destruct (run_frames _ p rnd render_every s0 [snapshot s0])
    as [[s' shown] |] eqn:Hrun; [| discriminate].
  intros [= <- <-].
  assert (st_tick s0 = 0 /\ st_bullets s0 = [] /\ st_formation_x s0 = 1
          /\ st_formation_y s0 = 2) as (Htick0 & Hb0 & Hx0 & Hy0).
  { unfold initial in Hinit. destruct (py_index g 0); [| discriminate].
    cbn [mbind option_bind] in Hinit.
    destruct (compute_enemy_move_interval _ _ _);
      cbn [mbind option_bind] in Hinit; [| discriminate].
    injection Hinit as <- <-. auto. }
  destruct (run_frames_spec _ _ _ _ _ _ _ _ Hrun)
    as (_ & new & -> & Hlen & Hone & Hlast).
  assert (is_Some (last ([snapshot s0] ++ new))) as [f Hf].
  { apply last_is_Some. discriminate. }
  exists ([snapshot s0] ++ new), f.
  split; [apply hold_replicate; exact Hf |]. split; [exact Hf |].
  split; [exists (snapshot s0); simpl; auto |].
  rewrite length_app. simpl length.
  split; [lia |]. split; [intros Hre; specialize (Hone Hre); lia |].
  intros Hclear. specialize (Hlast Hclear ltac:(intros _; reflexivity)).
  congruence.
Qed.

(** A witness for X12: a page with one cell of level 1, rendered every
    second tick and held for 3 frames. *)
Lemma generate_gif_frames_witness :
  exists frames s,
    generate_gif [make_cell 0 0 1] 100 2 3 (fun _ => mkDraw 0 0) = Saved frames s /\
    exists shown last_frame,
      frames = shown ++ replicate (Z.to_nat 3) last_frame /\
      last shown = Some last_frame /\
      (exists first, head shown = Some first /\ fr_bullets first = []
                     /\ fr_formation_x first = 1 /\ fr_formation_y first = 2) /\
      1 <= Z.of_nat (length shown) <= 1 + st_tick s /\
      (2 = 1 -> Z.of_nat (length shown) = 1 + st_tick s) /\
      (st_enemies s = [] -> last_frame = snapshot s).
Proof.
  eexists _, _. split; [vm_compute; reflexivity |].
  apply (generate_gif_frames [make_cell 0 0 1] 100 2 3 (fun _ => mkDraw 0 0)).
  vm_compute. reflexivity.
Defined.

(** The grid of a page whose cells are all inside. *)
Lemma fetch_contribution_grid_inside (cells : list Cell) :
  cells <> [] ->
  Forall (fun c => 0 <= cell_x c /\ 0 <= cell_y c <= 6) cells ->
  Forall (fun c => 0 <= cell_level c <= 4) cells ->
  exists g w,
    fetch_contribution_grid cells = Fetched g /\
    Ant.rectangular g w 7 /\ Ant.levels_ok g /\
    exists c, c ∈ cells /\ w = cell_x c + 1.
Proof.
  intros Hne Hpos Hlev.
  destruct (GridSourceSpec.max_x_spec cells Hne)
    as (max_x & Hmax & [c0 [Hc0 Hx0]] & Hle).
  assert (0 <= max_x) as Hmx.
  { rewrite Forall_forall in Hpos. destruct (Hpos _ Hc0). lia. }
  destruct (GridSourceSpec.ant_fill_spec (max_x + 1) cells (zeros (max_x + 1) 7)
              (GridSourceSpec.zeros_rectangular _ _))
    as (g & Hfill & Hrect & _ & Hok).
  exists g, (max_x + 1). split.
  - unfold fetch_contribution_grid. rewrite Hmax.
    rewrite (GridSourceSpec.shooter_fill_inside (max_x + 1)), Hfill; [reflexivity |].
    rewrite Forall_forall in *. intros c Hc.
    specialize (Hpos c Hc). specialize (Hle c Hc). simpl in *. lia.
  - rewrite Z.max_r in Hrect by lia. split; [exact Hrect |].
    split; [apply Hok; [apply GridSourceSpec.zeros_levels_ok | exact Hlev] |].
    exists c0. split; [exact Hc0 | lia].
Qed.

Lemma fetch_contribution_grid_below (cells : list Cell) :
  Forall (fun c => 0 <= cell_x c /\ 0 <= cell_y c) cells ->
  Exists (fun c => 7 <= cell_y c) cells ->
  fetch_contribution_grid cells = IndexErrorRaised.
Proof.
  intros Hpos Hbad.
  assert (cells <> []) as Hne by (intros ->; inversion Hbad).
  destruct (GridSourceSpec.max_x_spec cells Hne)
    as (max_x & Hmax & [c0 [Hc0 Hx0]] & Hle).
  assert (0 <= max_x) as Hmx.
  { rewrite Forall_forall in Hpos. destruct (Hpos _ Hc0). lia. }
  unfold fetch_contribution_grid. rewrite Hmax.
  rewrite (GridSourceSpec.shooter_fill_below (max_x + 1)); [reflexivity | | | exact Hbad].
  - pose proof (GridSourceSpec.zeros_rectangular (max_x + 1) 7) as Hz.
    rewrite Z.max_r in Hz by lia. exact Hz.
  - rewrite Forall_forall in *. intros c Hc.
    specialize (Hpos c Hc). specialize (Hle c Hc). lia.
Qed.

(** X13: with arguments that pass the checks of [main] and the cells of
    a parsed page, none in a column that a list could not hold, the
    shooter script ends in one of four ways (drawing and writing the file
    apart, which are not modelled).  A page
    without cells gives its "No contribution cells" error; a page with a
    cell in row 7, 8 or 9 makes it raise an [IndexError]; any other page
    gives the "No enemies" error or a saved animation, whose run has
    cleared the field or used all its ticks. *)
Theorem main_outcomes (cells : list Cell)
    (iterations render_every final_hold_frames : Z) (rnd : Z -> draw) :
  1 <= iterations -> 1 <= render_every -> 0 <= final_hold_frames ->
  Forall from_parser cells ->
  Forall (fun c => cell_x c < sys_maxsize) cells ->
  let outcome := main cells iterations render_every final_hold_frames rnd in
  (cells = [] /\ outcome = RuntimeError_no_cells) \/
  (Exists (fun c => 7 <= cell_y c) cells /\ outcome = Exception) \/
  (cells <> [] /\ Forall (fun c => cell_y c <= 6) cells /\
   (outcome = RuntimeError_no_enemies \/
    exists frames s,
      outcome = Saved frames s /\
      (st_enemies s = [] \/ st_tick s = iterations))).
Proof.
  intros Hit Hre Hhold Hparsed Hcols. cbv zeta. unfold main.
  destruct (Z.ltb_spec iterations 1); [lia |].
  destruct (Z.ltb_spec render_every 1); [lia |].
  destruct (Z.ltb_spec final_hold_frames 0); [lia |].
  unfold generate_gif.
  destruct cells as [| c0 cs] eqn:Hcells; [left; auto | right].
  rewrite <- Hcells in *.
  assert (cells <> []) as Hne by (rewrite Hcells; discriminate).
  destruct (decide (Exists (fun c => 7 <= cell_y c) cells)) as [Hbad | Hgood].
  - left. split; [exact Hbad |].
    rewrite fetch_contribution_grid_below; [reflexivity | | exact Hbad].
    eapply Forall_impl; [exact Hparsed |]. unfold from_parser. intros c Hc. lia.
  - right. split; [exact Hne |].
    assert (Forall (fun c => cell_y c <= 6) cells) as Hrows.
    { apply Forall_forall. intros c Hc.
      destruct (Z_le_gt_dec (cell_y c) 6) as [Hle | Hgt]; [exact Hle |].
      exfalso. apply Hgood. apply Exists_exists. exists c. split; [exact Hc | lia]. }
    split; [exact Hrows |].
    destruct (fetch_contribution_grid_inside cells Hne)
      as (g & w & -> & Hrect & Hlev & c1 & Hc1 & Hw1).
    { rewrite Forall_forall in *. intros c Hc.
      specialize (Hparsed c Hc). specialize (Hrows c Hc).
      unfold from_parser in Hparsed. lia. }
    { eapply Forall_impl; [exact Hparsed |]. unfold from_parser. intros c Hc. lia. }
    destruct (build_enemies g) as [| e es] eqn:Hen; [left; reflexivity | right].
    assert (build_enemies g <> []) as Hne' by (rewrite Hen; discriminate).
    assert (w <= sys_maxsize) as Hwmax.
    { rewrite Forall_forall in Hcols. specialize (Hcols c1 Hc1). lia. }
    destruct (initial_total g w 7 Hrect Hlev Hne' Hwmax
                ltac:(unfold sys_maxsize; lia)) as (p & s0 & Hinit).
    rewrite Hinit.
    pose proof (initial_interval g w 7 p s0 Hrect Hlev Hne' Hinit) as Hint.
    destruct (initial_ok g w 7 p s0 Hrect Hlev Hne' Hinit)
      as (_ & _ & Hspeed & _ & _ & Hok & _ & Htick & _).
    destruct (run_ok (Z.to_nat iterations) p rnd s0 Hok ltac:(lia) ltac:(lia))
      as (s' & Hrun & _ & _ & Hend & _).
    destruct (run_frames_total _ _ _ render_every _ _ [snapshot s0]
                ltac:(lia) Hrun) as [frames ->].
    eexists _, s'. split; [reflexivity |].
    destruct Hend as [Hclear | Hticks]; [left; exact Hclear | right; lia].
Qed.

(** A witness for X13: a page of two cells and a run of 40 ticks. *)
Lemma main_outcomes_witness :
  let outcome :=
    main [make_cell 0 0 1; make_cell 1 3 2] 40 1 2 (fun _ => mkDraw 0 0) in
  ([make_cell 0 0 1; make_cell 1 3 2] = [] /\ outcome = RuntimeError_no_cells) \/
  (Exists (fun c => 7 <= cell_y c) [make_cell 0 0 1; make_cell 1 3 2]
   /\ outcome = Exception) \/
  ([make_cell 0 0 1; make_cell 1 3 2] <> [] /\
   Forall (fun c => cell_y c <= 6) [make_cell 0 0 1; make_cell 1 3 2] /\
   (outcome = RuntimeError_no_enemies \/
    exists frames s,
      outcome = Saved frames s /\
      (st_enemies s = [] \/ st_tick s = 40))).
Proof.
  apply (main_outcomes [make_cell 0 0 1; make_cell 1 3 2] 40 1 2
           (fun _ => mkDraw 0 0)); try lia.
  - apply (bool_decide_unpack _). vm_compute. reflexivity.
  - apply (bool_decide_unpack _). vm_compute. reflexivity.
Defined.

End ShooterDriverSpec.

(** ** More on the ant *)

Module AntMore.
Import Ant AntSpec AntDriver.

(** *** The ant script from the page to the frames *)

Lemma find_ant_start_inside (g : grid) (w h : Z) (r_x r_y : nat) :
  rectangular g w h -> 1 <= w -> 1 <= h ->
  exists x y,
    find_ant_start g r_x r_y = Some (x, y) /\ 0 <= x < w /\ 0 <= y < h.
Proof.
  intros [Hh Hw] Hw1 Hh1. unfold find_ant_start.
  destruct g as [| row0 g']; [simpl in Hh; lia |].
  rewrite py_index_nonneg by lia. simpl lookup. cbn [mbind option_bind].
  apply Forall_cons in Hw as [Hw0 _]. rewrite Hw0, Hh.
  unfold py_randrange.
  destruct (Z.leb_spec w 0); [lia |]. destruct (Z.leb_spec h 0); [lia |].
  simpl. eexists _, _. split; [reflexivity |].
  split; apply Z.mod_pos_bound; lia.
Qed.

Lemma walk_frames_ok (n : nat) (g : grid) (w h x y d : Z)
    (frames : list (grid * (Z * Z))) :
  rectangular g w h -> levels_ok g -> 0 <= x < w -> 0 <= y < h ->
  exists frames',
    walk_frames n g x y d frames = Some frames' /\
    length frames' = (length frames + n)%nat /\
    (Forall (frame_ok w h) frames -> Forall (frame_ok w h) frames').
Proof.
  revert g x y d frames.
  induction n as [| n IH]; intros g x y d frames Hrect Hok Hx Hy.
  - exists frames. simpl. split; [reflexivity |]. split; [lia | auto].
  - destruct (step_ant_inside g w h x y d Hrect Hok Hx Hy)
      as (g1 & x1 & y1 & d1 & Hstep & Hrect1 & Hok1 & Hx1 & Hy1).
    destruct (IH g1 x1 y1 d1 (frames ++ [(g1, (x1, y1))]) Hrect1 Hok1 Hx1 Hy1)
      as (frames' & Hwalk & Hlen & Hall).
    exists frames'. cbn [walk_frames]. rewrite Hstep.
    split; [exact Hwalk |]. split.
    + rewrite Hlen, length_app. simpl. lia.
    + intros Hfr. apply Hall. apply Forall_app. split; [exact Hfr |].
      constructor; [| constructor]. unfold frame_ok. simpl. auto.
Qed.

(** X14: the ant script reaches [save] for every parsed page with at
    least one cell and every number of iterations from 1 on, also when
    the page has cells in rows 7 to 9: grid source, start and walk raise
    nothing (drawing and writing the file are not modelled), it hands
    over one frame more than it has iterations, and every frame shows a
    grid of 7 rows,
    as wide as the largest column number plus one, with levels in 0..4 and
    the ant on a cell of the grid. *)
Theorem main_saves (cells : list Cell) (iterations : Z) (r_x r_y : nat) :
  1 <= iterations -> cells <> [] -> Forall from_parser cells ->
  exists frames w,
    main cells iterations r_x r_y = Saved frames /\
    (exists c, c ∈ cells /\ w = cell_x c + 1) /\
    (forall c, c ∈ cells -> cell_x c < w) /\
    length frames = S (Z.to_nat iterations) /\
    Forall (frame_ok w 7) frames.
Proof.
  intros Hit Hne Hparsed. unfold main, generate_gif.
  destruct (Z.ltb_spec iterations 1); [lia |].
  destruct (GridSourceSpec.max_x_spec cells Hne)
    as (max_x & Hmax & [c0 [Hc0 Hx0]] & Hle).
  assert (0 <= max_x) as Hmx.
  { rewrite Forall_forall in Hparsed. destruct (Hparsed _ Hc0) as [Hx _]. lia. }
  destruct (GridSourceSpec.ant_fill_spec (max_x + 1) cells (zeros (max_x + 1) 7)
              (GridSourceSpec.zeros_rectangular _ _))
    as (g & Hfill & Hrect & _ & Hok).
  rewrite Z.max_r in Hrect by lia.
  assert (levels_ok g) as Hlev.
  { apply Hok; [apply GridSourceSpec.zeros_levels_ok |].
    eapply Forall_impl; [exact Hparsed |]. unfold from_parser. intros c Hc. lia. }
  unfold fetch_contribution_grid. rewrite Hmax, Hfill.
  destruct (find_ant_start_inside g (max_x + 1) 7 r_x r_y Hrect ltac:(lia) ltac:(lia))
    as (x & y & -> & Hx & Hy).
  destruct (walk_frames_ok (Z.to_nat iterations) g (max_x + 1) 7 x y 1
              [(g, (x, y))] Hrect Hlev Hx Hy) as (frames & -> & Hlen & Hall).
  exists frames, (max_x + 1). split; [reflexivity |].
  split; [exists c0; split; [exact Hc0 | lia] |].
  split; [intros c Hc; specialize (Hle c Hc); lia |].
  split; [rewrite Hlen; simpl; lia |].
  apply Hall. constructor; [| constructor]. unfold frame_ok. simpl. auto.
Qed.

(** A witness for X14: a page with a cell in row 8, and 5 iterations. *)
Lemma main_saves_witness :
  exists frames w,
    main [make_cell 0 1 2; make_cell 8 0 3] 5 4 9 = Saved frames /\
    (exists c, c ∈ [make_cell 0 1 2; make_cell 8 0 3] /\ w = cell_x c + 1) /\
    (forall c, c ∈ [make_cell 0 1 2; make_cell 8 0 3] -> cell_x c < w) /\
    length frames = S (Z.to_nat 5) /\
    Forall (frame_ok w 7) frames.
Proof.
  apply (main_saves [make_cell 0 1 2; make_cell 8 0 3] 5 4 9).
  - lia.
  - discriminate.
  - apply (bool_decide_unpack _). vm_compute. reflexivity.
Defined.

(** *** A step can be undone *)

Lemma mod_add_cancel (a b c w : Z) :
  0 <= a < w -> 0 <= b < w -> (a + c) mod w = (b + c) mod w -> a = b.
Proof.
  intros Ha Hb Heq.
  pose proof (Z.div_mod (a + c) w ltac:(lia)) as H1.
  pose proof (Z.div_mod (b + c) w ltac:(lia)) as H2.
  rewrite Heq in H1.
  assert (a - b = w * ((a + c) / w - (b + c) / w)) as Hdiff by lia.
  assert ((a + c) / w - (b + c) / w = 0) by nia. lia.
Qed.

Lemma next_level_inj (L1 L2 : Z) :
  0 <= L1 <= 4 -> 0 <= L2 <= 4 -> (L1 + 1) mod 5 = (L2 + 1) mod 5 -> L1 = L2.
Proof.
  intros H1 H2. apply (mod_add_cancel L1 L2 1 5); lia.
Qed.

(** Two grids that become equal by an assignment at the same place were
    equal but for that place. *)
Lemma insert_cell_eq (g1 g2 : grid) (row1 row2 : list Z) (x y : nat) (v1 v2 : Z) :
  g1 !! y = Some row1 -> g2 !! y = Some row2 ->
  (x < length row1)%nat -> (x < length row2)%nat ->
  <[y := <[x := v1]> row1]> g1 = <[y := <[x := v2]> row2]> g2 ->
  v1 = v2 /\
  (row1 !! x = row2 !! x -> g1 = g2).
Proof.
  intros Hr1 Hr2 Hx1 Hx2 Heq.
  assert (<[x := v1]> row1 = <[x := v2]> row2) as Hrow.
  { assert ((<[y := <[x := v1]> row1]> g1) !! y = (<[y := <[x := v2]> row2]> g2) !! y)
      as Hy by (rewrite Heq; reflexivity).
    rewrite !list_lookup_insert_eq in Hy
      by (eapply lookup_lt_Some; eassumption).
    congruence. }
  split.
  - assert ((<[x := v1]> row1) !! x = (<[x := v2]> row2) !! x) as Hv
      by (rewrite Hrow; reflexivity).
    rewrite !list_lookup_insert_eq in Hv by assumption. congruence.
  - intros Hsame.
    assert (row1 = row2) as ->.
    { apply list_eq. intros k. destruct (decide (k = x)) as [-> | Hk]; [exact Hsame |].
      assert ((<[x := v1]> row1) !! k = (<[x := v2]> row2) !! k) as Hv
        by (rewrite Hrow; reflexivity).
      rewrite !list_lookup_insert_ne in Hv by congruence. exact Hv. }
    apply list_eq. intros j. destruct (decide (j = y)) as [-> | Hj]; [congruence |].
    assert ((<[y := <[x := v1]> row2]> g1) !! j = (<[y := <[x := v2]> row2]> g2) !! j)
      as Hv by (rewrite Heq; reflexivity).
    rewrite !list_lookup_insert_ne in Hv by congruence. exact Hv.
Qed.

(** Two states that one step takes to the same state are the same. *)
Lemma step_ant_inj (g1 g2 : grid) (w h x1 y1 d1 x2 y2 d2 : Z) :
  rectangular g1 w h -> levels_ok g1 ->
  rectangular g2 w h -> levels_ok g2 ->
  0 <= x1 < w -> 0 <= y1 < h -> 0 <= d1 < 4 ->
  0 <= x2 < w -> 0 <= y2 < h -> 0 <= d2 < 4 ->
  step_ant g1 x1 y1 d1 = step_ant g2 x2 y2 d2 ->
  g1 = g2 /\ x1 = x2 /\ y1 = y2 /\ d1 = d2.
Proof.
  intros Hr1 Hl1 Hr2 Hl2 Hx1 Hy1 Hd1 Hx2 Hy2 Hd2 Heq.
  destruct (cell_is_Some g1 w h x1 y1 Hr1 Hx1 Hy1) as [L1 Hc1].
  destruct (cell_is_Some g2 w h x2 y2 Hr2 Hx2 Hy2) as [L2 Hc2].
  pose proof (levels_ok_lookup _ _ _ _ Hl1 Hc1) as HL1.
  pose proof (levels_ok_lookup _ _ _ _ Hl2 Hc2) as HL2.
  apply cell_inv in Hc1 as (row1 & Hrow1 & Hv1).
  apply cell_inv in Hc2 as (row2 & Hrow2 & Hv2).
  pose proof Hr1 as [Hh1 Hw1]. pose proof Hr2 as [Hh2 Hw2].
  destruct (lookup_Z_lt g1 0 ltac:(lia)) as [r01 H01].
  destruct (lookup_Z_lt g2 0 ltac:(lia)) as [r02 H02].
  change (Z.to_nat 0) with 0%nat in H01, H02.
  rewrite Forall_lookup in Hw1, Hw2.
  pose proof (Hw1 _ _ H01) as Hlen01. pose proof (Hw2 _ _ H02) as Hlen02.
  pose proof (Hw1 _ _ Hrow1) as Hlen1. pose proof (Hw2 _ _ Hrow2) as Hlen2.
  rewrite (step_ant_eq g1 r01 row1 x1 y1 d1 L1) in Heq by (assumption || lia).
  rewrite (step_ant_eq g2 r02 row2 x2 y2 d2 L2) in Heq by (assumption || lia).
  rewrite Hlen01, Hlen02, Hh1, Hh2 in Heq.
  set (t1 := if Z.even L1 then 1 else -1) in *.
  set (t2 := if Z.even L2 then 1 else -1) in *.
  rewrite !advance_heading in Heq by (try apply Z.mod_pos_bound; lia).
  injection Heq as Hg Hx Hy Hd.
  rewrite <- Hd in Hx, Hy.
  apply mod_add_cancel in Hx; [| lia | lia].
  apply mod_add_cancel in Hy; [| lia | lia].
  subst x2 y2.
  destruct (insert_cell_eq g1 g2 row1 row2 (Z.to_nat x1) (Z.to_nat y1) _ _
              Hrow1 Hrow2 ltac:(lia) ltac:(lia) Hg) as [Hv Hsame].
  apply next_level_inj in Hv; [| lia | lia]. subst L2.
  split; [apply Hsame; congruence |].
  split; [reflexivity |]. split; [reflexivity |].
  subst t1 t2. apply (mod_add_cancel d1 d2 (if Z.even L1 then 1 else -1) 4); lia.
Qed.

(** X15: a step of the ant can be undone, so the walk never merges two
    histories: on grids of one shape with levels in 0..4, two different
    states, each with the ant on a cell and a heading in 0..3, are taken
    to different results by a step. *)
Theorem step_ant_injective (g1 g2 : grid) (w h x1 y1 d1 x2 y2 d2 : Z) :
  rectangular g1 w h -> levels_ok g1 ->
  rectangular g2 w h -> levels_ok g2 ->
  0 <= x1 < w -> 0 <= y1 < h -> 0 <= d1 < 4 ->
  0 <= x2 < w -> 0 <= y2 < h -> 0 <= d2 < 4 ->
  (g1, x1, y1, d1) <> (g2, x2, y2, d2) ->
  step_ant g1 x1 y1 d1 <> step_ant g2 x2 y2 d2.
Proof.
  intros Hr1 Hl1 Hr2 Hl2 Hx1 Hy1 Hd1 Hx2 Hy2 Hd2 Hne Heq.
  apply Hne.
  destruct (step_ant_inj g1 g2 w h x1 y1 d1 x2 y2 d2) as (-> & -> & -> & ->);
    auto.
Qed.

(** A witness for X15: two ants in different cells of one grid. *)
Lemma step_ant_injective_witness :
  step_ant [[0; 0; 0]; [0; 0; 0]; [0; 0; 0]] 0 0 1
  <> step_ant [[0; 0; 0]; [0; 0; 0]; [0; 0; 0]] 0 2 1.
Proof.
  apply (step_ant_injective [[0; 0; 0]; [0; 0; 0]; [0; 0; 0]]
           [[0; 0; 0]; [0; 0; 0]; [0; 0; 0]] 3 3 0 0 1 0 2 1);
    try lia; try discriminate;
    try (split; [reflexivity |]); apply (bool_decide_unpack _); vm_compute;
    reflexivity.
Defined.

End AntMore.
